(** * Readium package codec: the JSON-manifest package (pack/rwppackage.go)
      and the XML encryption manifest (xmlenc/encryption.go)

    A shallow embedding of the package reader and writer of the Readium LCP
    server, and of the lookup of the XML encryption manifest, with the
    properties the specification states about them; then of the table of
    the events of the license statuses (package transactions) and of the
    handlers of the publications of the frontend
    (frontend/api/publication.go), with properties read off the code.

    Conventions of the embedding.
    - A Go [error] value is an [option error]: [None] is [nil].
    - A Go pointer to a [rwpm.Properties] is an address into an explicit
      store ([Heap]); a nil pointer is [None].  The store is threaded through
      the functions that allocate or assign through such a pointer.
    - A function of which some path ends in a run-time panic (a method called
      on a nil [*zip.File], a write through a nil [io.Writer]) returns an
      [option]: [None] is the panic.
    - The destination archive is the list of the entries created so far; the
      failures of the destination stream are an input: the archive carries
      the outcome ([None], or the error) of each of its coming operations. *)

From Stdlib Require Import ZArith.
From Stdlib.Strings Require Import Byte.
From stdpp Require Import base option list gmap strings fin_maps.


(** ** Errors *)

(** [errors_New text] is the value of [errors.New(text)]; [lib_error code]
    stands for the errors of the libraries and of the streams (archive/zip,
    encoding/json, net/url, io), which the code only hands on. *)
Inductive error : Type :=
| errors_New (text : string)
| lib_error (code : nat).

#[global] Instance error_eq_dec : EqDecision error.
Proof. solve_decision. Defined.

(** The message of an error, [err.Error()], where the code fixes it. *)
Definition Error (e : error) : option string :=
  match e with
  | errors_New text => Some text
  | lib_error _ => None
  end.

#[global] Instance byte_eq_dec : EqDecision byte := Byte.byte_eq_dec.

(** Addresses of the [rwpm.Properties] cells. *)
Abbreviation loc := positive (only parsing).

(** ** The publication manifest (package rwpm) *)

Module rwpm.

(** Modelled from the spec: the type declarations of package rwpm are not
    among the sources; the fields are the ones rwppackage.go uses
    ([Href], [Type], [Properties], [Encrypted], [Scheme], [Profile],
    [Algorithm], [ReadingOrder], [Resources]) and the wire shape of the
    specification ([metadata.title]). *)
Record Encrypted : Type := mkEncrypted {
  Encrypted_Scheme : string;
  Encrypted_Profile : string;
  Encrypted_Algorithm : string
}.

(** [Encrypted *Encrypted]: the code only ever replaces this pointer by a
    fresh one and never assigns through it, so it is kept as a value. *)
Record Properties : Type := mkProperties {
  Properties_Encrypted : option Encrypted
}.

(** [Properties *Properties]: a nil or an address, because
    [MarkAsEncrypted] assigns through it. *)
Record Link : Type := mkLink {
  Link_Href : string;
  Link_Type : string;
  Link_Properties : option loc
}.

Record Metadata : Type := mkMetadata {
  Metadata_Title : string
}.

Record Publication : Type := mkPublication {
  Publication_Metadata : Metadata;
  Publication_ReadingOrder : list Link;
  Publication_Resources : list Link
}.

#[global] Instance Encrypted_eq_dec : EqDecision Encrypted.
Proof. solve_decision. Defined.
#[global] Instance Properties_eq_dec : EqDecision Properties.
Proof. solve_decision. Defined.
#[global] Instance Link_eq_dec : EqDecision Link.
Proof. solve_decision. Defined.

(** [new(rwpm.Properties)]: the zero value. *)
Definition zero_Properties : Properties :=
  {| Properties_Encrypted := None |}.

End rwpm.

(** The store of the [rwpm.Properties] cells. *)
Abbreviation Heap := (gmap positive rwpm.Properties) (only parsing).

(** Reading through a pointer.  Go has no dangling pointer; the invariants
    below keep every address of a manifest allocated, and an address that is
    not reads as the zero value. *)
Definition deref (h : Heap) (p : loc) : rwpm.Properties :=
  default rwpm.zero_Properties (h !! p).

(** ** The manifest as a JSON document

    What [json.Encoder.Encode] sees of a publication, and what
    [json.Decoder.Decode] builds: the same tree with the cells in place of
    their addresses, [{ metadata: {title}, readingOrder: [{href, type,
    properties?: {encrypted?: {scheme, profile, algorithm}}}], resources:
    [...] }]. *)
Module wire.

Record Link : Type := mkLink {
  href : string;
  type : string;
  properties : option rwpm.Properties
}.

Record Publication : Type := mkPublication {
  title : string;
  readingOrder : list Link;
  resources : list Link
}.

#[global] Instance Link_eq_dec : EqDecision Link.
Proof. solve_decision. Defined.
#[global] Instance Publication_eq_dec : EqDecision Publication.
Proof. solve_decision. Defined.

(** The encryption record of a link of the document, if it has one. *)
Definition encrypted (l : Link) : option rwpm.Encrypted :=
  p ← properties l; rwpm.Properties_Encrypted p.

End wire.

Definition view_Link (h : Heap) (l : rwpm.Link) : wire.Link :=
  {| wire.href := rwpm.Link_Href l;
     wire.type := rwpm.Link_Type l;
     wire.properties := deref h <$> rwpm.Link_Properties l |}.

Definition view_Publication (h : Heap) (m : rwpm.Publication) : wire.Publication :=
  {| wire.title := rwpm.Metadata_Title (rwpm.Publication_Metadata m);
     wire.readingOrder := view_Link h <$> rwpm.Publication_ReadingOrder m;
     wire.resources := view_Link h <$> rwpm.Publication_Resources m |}.

(** Building a decoded document in memory: every [properties] object gets a
    cell of its own. *)
Definition alloc_Link (h : Heap) (l : wire.Link) : Heap * rwpm.Link :=
  match wire.properties l with
  | None => (h, rwpm.mkLink (wire.href l) (wire.type l) None)
  | Some p =>
      let a := fresh (dom h) in
      (<[a := p]> h, rwpm.mkLink (wire.href l) (wire.type l) (Some a))
  end.

Fixpoint alloc_Links (h : Heap) (ls : list wire.Link) : Heap * list rwpm.Link :=
  match ls with
  | [] => (h, [])
  | l :: ls' =>
      let '(h1, l1) := alloc_Link h l in
      let '(h2, ls1) := alloc_Links h1 ls' in
      (h2, l1 :: ls1)
  end.

Definition alloc_Publication (h : Heap) (d : wire.Publication) : Heap * rwpm.Publication :=
  let '(h1, ro) := alloc_Links h (wire.readingOrder d) in
  let '(h2, rs) := alloc_Links h1 (wire.resources d) in
  (h2, rwpm.mkPublication (rwpm.mkMetadata (wire.title d)) ro rs).

(** ** Streams (package io)

    The streams the code gets from the archives, with the results of their
    operations as data. *)

Module io.

(** An [io.ReadCloser] over an archive entry: the bytes it yields, the
    error that ends the reading ([None] for [io.EOF]) and the result of
    [Close]. *)
Record ReadCloser : Type := mkReadCloser {
  rc_data : list byte;
  rc_err : option error;
  rc_Close : option error
}.

(** An [io.Writer] and an [io.WriteCloser] whose writes land in an object
    of type [W]; [Write] gives the number of bytes written and the error,
    and panics ([None]) on a nil receiver. *)
Record Writer (W : Type) : Type := mkWriter {
  Write : list byte → W → option (W * (Z * option error))
}.

Record WriteCloser (W : Type) : Type := mkWriteCloser {
  wc_Write : list byte → W → option (W * (Z * option error));
  wc_Close : W → option (W * option error)
}.

Arguments Write {W} _ _ _.
Arguments wc_Write {W} _ _ _.
Arguments wc_Close {W} _ _.

(** An [io.WriteCloser] used as an [io.Writer]. *)
Definition as_Writer {W} (wc : WriteCloser W) : Writer W :=
  {| Write := wc_Write wc |}.

Definition ErrShortWrite : error := errors_New "short write".

(** [io.Copy(dst, src)]: copies until the end of [src] or the first
    error; the bytes of [src] go to [dst] in one [Write] (the chunks of the
    32 KiB buffer are not told apart).  A write error comes before the read
    error of the same round. *)
Definition Copy {W} (dst : Writer W) (src : ReadCloser) (s : W)
  : option (W * (Z * option error)) :=
  match rc_data src with
  | [] => Some (s, (0%Z, rc_err src))
  | data =>
      '(s', (nw, ew)) ← Write dst data s;
      match ew with
      | Some e => Some (s', (nw, Some e))
      | None =>
          if bool_decide (nw = Z.of_nat (length data))
          then Some (s', (nw, rc_err src))
          else Some (s', (nw, Some ErrShortWrite))
      end
  end.

End io.

(** ** Archives (package archive/zip)

    The library is outside the repository; the code uses [zip.Reader.File],
    [File.Open], [Writer.Create], [Writer.CreateHeader], the writes to the
    [io.Writer] of an entry, and [Writer.Close].  An archive is the list of
    its entries in the order of the central directory, which is the order
    of their creation; the library takes two entries of one name, and what
    is written to an entry is what the entry opens on when the archive is
    read back. *)

Module zip.

Definition Store : Z := 0.
Definition Deflate : Z := 8.

Record FileHeader : Type := mkFileHeader {
  Name : string;
  Method : Z;                (* uint16 *)
  UncompressedSize64 : Z     (* uint64 *)
}.

(** A [*zip.File] of an open archive: its header and what [Open] gives. *)
Record File : Type := mkFile {
  header : FileHeader;
  Open : io.ReadCloser + error
}.

Record Reader : Type := mkReader {
  Files : list File          (* the field [File] of [zip.Reader] *)
}.

(** The calls made on a [*zip.Writer], kept to tell what was attempted. *)
Inductive call : Type :=
| call_CreateHeader (name : string) (method : Z)
| call_Write (index : nat) (data : list byte)
| call_Close.

#[global] Instance call_eq_dec : EqDecision call.
Proof. solve_decision. Defined.

(** A [*zip.Writer]: the entries created so far, each with the bytes
    written to it, in the order of their creation; whether [Close] has
    run; the outcomes the destination stream gives to the coming
    operations, one each (none left: success); the calls made so far. *)
Record Writer : Type := mkWriter {
  dir : list (FileHeader * list byte);
  closed : bool;
  outcomes : list (option error);
  log : list call
}.

(** A writer on a fresh destination stream, [zip.NewWriter(w)]. *)
Definition NewWriter (stream : list (option error)) : Writer :=
  {| dir := []; closed := false; outcomes := stream; log := [] |}.

Definition next_outcome (w : Writer) : option error :=
  match outcomes w with
  | [] => None
  | o :: _ => o
  end.

(** [zip.ErrAlgorithm] *)
Definition ErrAlgorithm : error := errors_New "zip: unsupported compression algorithm".

(** The methods that have a compressor: [Store] and [Deflate], which the
    package registers itself; the code registers no other. *)
Definition compressor (method : Z) : bool :=
  bool_decide (method = Store) || bool_decide (method = Deflate).

(** [w.CreateHeader(fh)]: a new entry, and the [io.Writer] of its
    content, here the position of the entry; nil on error.  The entry
    before is ended on the stream first; then a method without compressor
    is refused with [ErrAlgorithm], and no entry is made. *)
Definition CreateHeader (w : Writer) (fh : FileHeader) : Writer * (option nat * option error) :=
  let lg := log w ++ [call_CreateHeader (Name fh) (Method fh)] in
  match next_outcome w with
  | Some e =>
      ({| dir := dir w; closed := closed w; outcomes := tail (outcomes w); log := lg |},
       (None, Some e))
  | None =>
      if compressor (Method fh)
      then ({| dir := dir w ++ [(fh, [])]; closed := closed w;
               outcomes := tail (outcomes w); log := lg |},
            (Some (length (dir w)), None))
      else ({| dir := dir w; closed := closed w; outcomes := tail (outcomes w); log := lg |},
            (None, Some ErrAlgorithm))
  end.

(** [w.Create(name)] is [CreateHeader] with the method [Deflate]. *)
Definition Create (w : Writer) (name : string) : Writer * (option nat * option error) :=
  CreateHeader w {| Name := name; Method := Deflate; UncompressedSize64 := 0 |}.

(** A write to the content of entry [i]: refused once another entry has
    been created or the archive closed. *)
Definition Write (i : nat) (data : list byte) (w : Writer) : Writer * (Z * option error) :=
  let lg := log w ++ [call_Write i data] in
  if bool_decide (S i = length (dir w)) && negb (closed w) then
    match next_outcome w with
    | Some e =>
        ({| dir := dir w; closed := closed w; outcomes := tail (outcomes w); log := lg |},
         (0%Z, Some e))
    | None =>
        ({| dir := alter (λ en, (en.1, en.2 ++ data)) i (dir w); closed := closed w;
            outcomes := tail (outcomes w); log := lg |},
         (Z.of_nat (length data), None))
    end
  else
    ({| dir := dir w; closed := closed w; outcomes := outcomes w; log := lg |},
     (0%Z, Some (errors_New "zip: write to closed file"))).

(** [w.Close()]: writes the central directory. *)
Definition Close (w : Writer) : Writer * option error :=
  let lg := log w ++ [call_Close] in
  if closed w then
    ({| dir := dir w; closed := true; outcomes := outcomes w; log := lg |},
     Some (errors_New "zip: writer closed twice"))
  else
    ({| dir := dir w; closed := true; outcomes := tail (outcomes w); log := lg |},
     next_outcome w).

(** The archive read back from the destination once it is closed: the
    entries in the order of the central directory, each opening on the
    bytes written to it. *)
Definition reopen (w : Writer) : Reader :=
  {| Files :=
       (λ en : FileHeader * list byte,
          {| header := {| Name := Name en.1; Method := Method en.1;
                          UncompressedSize64 := Z.of_nat (length en.2) |};
             Open := inl (io.mkReadCloser en.2 None None) |}) <$> dir w |}.

End zip.

(** ** The JSON codec of the manifest (package encoding/json)

    [json_Encode d] is what [json.Encoder.Encode] writes for the document
    [d] (the JSON text and a line feed), or the error of the marshalling;
    [json_Decode b] is the document [json.Decoder.Decode] builds from the
    bytes [b] of a stream, or its error.  The library is not part of the
    repository: the development is parametric in it. *)
Class JsonCodec : Type := {
  json_Encode : wire.Publication → list byte + error;
  json_Decode : list byte → wire.Publication + error
}.

(** The two directions agree on the document [d]. *)
Definition json_roundtrip `{JsonCodec} (d : wire.Publication) : Prop :=
  ∀ b, json_Encode d = inl b → json_Decode b = inl d.

(** ** package license *)

Module license.

(** Modelled from the spec: the type [license.EncryptionProfile] is
    declared outside the sources; rwppackage.go only calls its method
    [String], so a profile is given by the string this method returns. *)
Record EncryptionProfile : Type := mkEncryptionProfile {
  String : string
}.

End license.

(** ** package pack: the Readium package (rwppackage.go) *)

(** [RWPPReader] is a Readium Package reader. *)
Record RWPPReader : Type := mkRWPPReader {
  RWPPReader_manifest : rwpm.Publication;
  RWPPReader_zipArchive : zip.Reader
}.

(** [RWPPWriter] is a Readium Package writer.  [zipWriter] is a pointer; the
    archive it points to is held by this writer alone and is kept in the
    record. *)
Record RWPPWriter : Type := mkRWPPWriter {
  RWPPWriter_manifest : rwpm.Publication;
  RWPPWriter_zipWriter : zip.Writer
}.

Definition set_zipWriter (writer : RWPPWriter) (zw : zip.Writer) : RWPPWriter :=
  {| RWPPWriter_manifest := RWPPWriter_manifest writer; RWPPWriter_zipWriter := zw |}.

Definition set_ReadingOrder (m : rwpm.Publication) (ro : list rwpm.Link) : rwpm.Publication :=
  {| rwpm.Publication_Metadata := rwpm.Publication_Metadata m;
     rwpm.Publication_ReadingOrder := ro;
     rwpm.Publication_Resources := rwpm.Publication_Resources m |}.

Definition set_Properties (l : rwpm.Link) (p : option loc) : rwpm.Link :=
  {| rwpm.Link_Href := rwpm.Link_Href l;
     rwpm.Link_Type := rwpm.Link_Type l;
     rwpm.Link_Properties := p |}.

Definition set_Encrypted (p : rwpm.Properties) (e : option rwpm.Encrypted) : rwpm.Properties :=
  {| rwpm.Properties_Encrypted := e |}.

(** The working reading order of a writer. *)
Definition ReadingOrder (writer : RWPPWriter) : list rwpm.Link :=
  rwpm.Publication_ReadingOrder (RWPPWriter_manifest writer).

(** [ManifestLocation] is the path of the Readium manifest in a package. *)
Definition ManifestLocation : string := "manifest.json".

(** The interface [PackageWriter] (declared outside the sources, with the
    three methods [RWPPWriter] implements).  The stream [NewFile] returns
    writes into the writer it comes from. *)
Class PackageWriter (W : Type) : Type := {
  pw_NewFile : W → string → string → Z → W * (io.WriteCloser W * option error);
  pw_MarkAsEncrypted : Heap → W → string → Z → license.EncryptionProfile → string → Heap * W;
  pw_Close : Heap → W → option (W * option error)
}.

(** The index [files] of the entries of an archive by name, as [NewWriter]
    and [Resources] build it: a later entry of the same name replaces an
    earlier one. *)
Definition index_files (zipArchive : zip.Reader) : gmap string zip.File :=
  foldl (λ files file, <[zip.Name (zip.header file) := file]> files) ∅
        (zip.Files zipArchive).

(** *** Resources *)

Record rwpResource : Type := mkrwpResource {
  isEncrypted : bool;
  contentType : string;
  file : option zip.File        (* [*zip.File], nil when the index has no such entry *)
}.

(** [int64(x)] of a [uint64]. *)
Definition int64_of_uint64 (x : Z) : Z :=
  (if x <? 2 ^ 63 then x else x - 2 ^ 64)%Z.

Definition Path (resource : rwpResource) : option string :=
  f ← file resource; Some (zip.Name (zip.header f)).
Definition ContentType (resource : rwpResource) : string := contentType resource.
Definition Size (resource : rwpResource) : option Z :=
  f ← file resource; Some (int64_of_uint64 (zip.UncompressedSize64 (zip.header f))).
Definition Encrypted (resource : rwpResource) : bool := isEncrypted resource.
Definition Open (resource : rwpResource) : option (io.ReadCloser + error) :=
  f ← file resource; Some (zip.Open f).
Definition CompressBeforeEncryption (resource : rwpResource) : bool := false.
Definition CanBeEncrypted (resource : rwpResource) : bool := true.

(** [Resources] returns the list of the resources which should be
    encrypted: the files of the reading order, with their type and
    encryption status. *)
Definition Resources (h : Heap) (reader : RWPPReader) : list rwpResource :=
  let files := index_files (RWPPReader_zipArchive reader) in
  foldl (λ resources manifestResource,
           let isEncrypted :=
             match rwpm.Link_Properties manifestResource with
             | None => false
             | Some p => bool_decide (rwpm.Properties_Encrypted (deref h p) ≠ None)
             end in
           resources ++ [ {| file := files !! rwpm.Link_Href manifestResource;
                             isEncrypted := isEncrypted;
                             contentType := rwpm.Link_Type manifestResource |} ])
        []
        (rwpm.Publication_ReadingOrder (RWPPReader_manifest reader)).

(** The resource [Resources] makes of a link. *)
Definition resource_of (h : Heap) (files : gmap string zip.File) (l : rwpm.Link)
  : rwpResource :=
  {| file := files !! rwpm.Link_Href l;
     isEncrypted :=
       match rwpm.Link_Properties l with
       | None => false
       | Some p => bool_decide (rwpm.Properties_Encrypted (deref h p) ≠ None)
       end;
     contentType := rwpm.Link_Type l |}.

(** [CopyTo]: the error of the copy first, then the error of closing the
    source, then the error of closing the destination.  The deferred second
    [rc.Close()] does not reach the result. *)
Definition CopyTo {W} `{PackageWriter W} (resource : rwpResource) (packageWriter : W)
  : option (W * option error) :=
  path ← Path resource;
  f ← file resource;
  let '(pw1, (wc, err)) :=
    pw_NewFile packageWriter path (contentType resource) (zip.Method (zip.header f)) in
  match err with
  | Some e => Some (pw1, Some e)
  | None =>
      match zip.Open f with
      | inr e => Some (pw1, Some e)
      | inl rc =>
          '(pw2, (_, err)) ← io.Copy (io.as_Writer wc) rc pw1;
          let rCloseError := io.rc_Close rc in
          '(pw3, wCloseError) ← io.wc_Close wc pw2;
          match err with
          | Some e => Some (pw3, Some e)
          | None =>
              match rCloseError with
              | Some e => Some (pw3, Some e)
              | None => Some (pw3, wCloseError)
              end
          end
      end
  end.

(** *** The writer *)

(** [NopWriteCloser] embeds an [io.Writer], nil when the entry could not be
    created; [Close] does nothing. *)
Record NopWriteCloser (W : Type) : Type := mkNopWriteCloser {
  Writer : option (io.Writer W)
}.
Arguments mkNopWriteCloser {W} _.
Arguments Writer {W} _.

Definition NopWriteCloser_Write {W} (nc : NopWriteCloser W) (data : list byte) (s : W)
  : option (W * (Z * option error)) :=
  w ← Writer nc; io.Write w data s.

Definition NopWriteCloser_Close {W} (nc : NopWriteCloser W) : option error := None.

Definition NopWriteCloser_stream {W} (nc : NopWriteCloser W) : io.WriteCloser W :=
  {| io.wc_Write := NopWriteCloser_Write nc;
     io.wc_Close := λ s, Some (s, NopWriteCloser_Close nc) |}.

(** The [io.Writer] of the content of entry [i] of the archive of a writer. *)
Definition entry_Writer (i : nat) : io.Writer RWPPWriter :=
  {| io.Write := λ data writer,
       let '(zw, r) := zip.Write i data (RWPPWriter_zipWriter writer) in
       Some (set_zipWriter writer zw, r) |}.

(** [NewFile] creates a header for the input file and adds it (with its
    media type) to the reading order. *)
Definition NewFile (writer : RWPPWriter) (path contentType : string) (storageMethod : Z)
  : RWPPWriter * (io.WriteCloser RWPPWriter * option error) :=
  let '(zw, (w, err)) :=
    zip.CreateHeader (RWPPWriter_zipWriter writer)
      {| zip.Name := path; zip.Method := storageMethod; zip.UncompressedSize64 := 0 |} in
  let manifest :=
    set_ReadingOrder (RWPPWriter_manifest writer)
      (ReadingOrder writer ++
         [ {| rwpm.Link_Href := path; rwpm.Link_Type := contentType;
              rwpm.Link_Properties := None |} ]) in
  ({| RWPPWriter_manifest := manifest; RWPPWriter_zipWriter := zw |},
   (NopWriteCloser_stream (mkNopWriteCloser (entry_Writer <$> w)), err)).

Definition lcp_scheme : string := "http://readium.org/2014/01/lcp".

(** The loop of [MarkAsEncrypted] over the reading order, from its first
    link: the first link of href [path] gets a [Properties] cell if it has
    none, the field [Encrypted] of the cell is assigned, and the loop
    breaks. *)
Fixpoint MarkAsEncrypted_loop (h : Heap) (readingOrder : list rwpm.Link)
    (path : string) (encrypted : rwpm.Encrypted) : Heap * list rwpm.Link :=
  match readingOrder with
  | [] => (h, [])
  | resource :: rest =>
      if decide (path = rwpm.Link_Href resource) then
        let '(h1, p) :=
          match rwpm.Link_Properties resource with
          | None =>
              let a := fresh (dom h) in (<[a := rwpm.zero_Properties]> h, a)
          | Some a => (h, a)
          end in
        (<[p := set_Encrypted (deref h1 p) (Some encrypted)]> h1,
         set_Properties resource (Some p) :: rest)
      else
        let '(h', rest') := MarkAsEncrypted_loop h rest path encrypted in
        (h', resource :: rest')
  end.

(** [MarkAsEncrypted] marks a resource as encrypted (with an lcp profile
    and algorithm), in the manifest. *)
Definition MarkAsEncrypted (h : Heap) (writer : RWPPWriter) (path : string)
    (originalSize : Z) (profile : license.EncryptionProfile) (algorithm : string)
  : Heap * RWPPWriter :=
  let '(h', readingOrder) :=
    MarkAsEncrypted_loop h (ReadingOrder writer) path
      {| rwpm.Encrypted_Scheme := lcp_scheme;
         rwpm.Encrypted_Profile := license.String profile;
         rwpm.Encrypted_Algorithm := algorithm |} in
  (h', {| RWPPWriter_manifest := set_ReadingOrder (RWPPWriter_manifest writer) readingOrder;
          RWPPWriter_zipWriter := RWPPWriter_zipWriter writer |}).

Section WithJson.

Context `{JsonCodec}.

(** [json.NewEncoder(w).Encode(v)]: the error of the marshalling, or
    else the error of the one write of the text to [w]. *)
Definition Encoder_Encode {W} (w : option (io.Writer W)) (v : wire.Publication) (s : W)
  : option (W * option error) :=
  match json_Encode v with
  | inr e => Some (s, Some e)
  | inl text =>
      w' ← w;
      '(s', (_, err)) ← io.Write w' text s;
      Some (s', err)
  end.

(** [json.NewDecoder(r).Decode(&v)]: when the bytes the stream yields do
    not decode, the error is the one of the stream if it has one. *)
Definition Decoder_Decode (r : io.ReadCloser) : wire.Publication + error :=
  match json_Decode (io.rc_data r) with
  | inl d => inl d
  | inr e => inr (default e (io.rc_err r))
  end.

Definition writeManifest (h : Heap) (writer : RWPPWriter) : option (RWPPWriter * option error) :=
  let '(zw, (w, err)) := zip.Create (RWPPWriter_zipWriter writer) ManifestLocation in
  let writer1 := set_zipWriter writer zw in
  match err with
  | Some e => Some (writer1, Some e)
  | None =>
      Encoder_Encode (entry_Writer <$> w)
        (view_Publication h (RWPPWriter_manifest writer1)) writer1
  end.

(** [Close] closes a Readium Package Writer. *)
Definition Close (h : Heap) (writer : RWPPWriter) : option (RWPPWriter * option error) :=
  '(writer1, err) ← writeManifest h writer;
  match err with
  | Some e => Some (writer1, Some e)
  | None =>
      let '(zw, err') := zip.Close (RWPPWriter_zipWriter writer1) in
      Some (set_zipWriter writer1 zw, err')
  end.

(** The loop of [NewRWPPReader] over the entries of the archive: [None]
    when no entry has the name of the manifest ([found] stays false),
    or else the outcome at the first such entry. *)
Fixpoint find_manifest (files : list zip.File) : option (wire.Publication + error) :=
  match files with
  | [] => None
  | file :: rest =>
      if decide (zip.Name (zip.header file) = ManifestLocation) then
        match zip.Open file with
        | inr e => Some (inr e)
        | inl fileReader => Some (Decoder_Decode fileReader)
        end
      else find_manifest rest
  end.

(** [NewRWPPReader] creates a new Readium Package reader. *)
Definition NewRWPPReader (h : Heap) (zipReader : zip.Reader)
  : Heap * (option RWPPReader * option error) :=
  match find_manifest (zip.Files zipReader) with
  | Some (inr e) => (h, (None, Some e))
  | Some (inl d) =>
      let '(h', manifest) := alloc_Publication h d in
      (h', (Some {| RWPPReader_zipArchive := zipReader; RWPPReader_manifest := manifest |},
            None))
  | None => (h, (None, Some (errors_New "Could not find manifest")))
  end.

(** [OpenRWPP] opens a Readium Package; [OpenReader] is
    [zip.OpenReader] on the file system at hand. *)
Definition OpenRWPP (OpenReader : string → zip.Reader + error) (h : Heap) (name : string)
  : Heap * (option RWPPReader * option error) :=
  match OpenReader name with
  | inr e => (h, (None, Some e))
  | inl zipArchive => NewRWPPReader h zipArchive
  end.

(** One verbatim copy of [NewWriter]: [file, err := f.Open(); _, err =
    io.Copy(fw, file); file.Close()].  No error is looked at; when [Open]
    fails, [file] is nil and the copy panics. *)
Definition copy_verbatim (fw : nat) (f : zip.File) (zw : zip.Writer) : option zip.Writer :=
  match zip.Open f with
  | inr _ => None
  | inl rc =>
      '(zw', _) ← io.Copy {| io.Write := λ data s, Some (zip.Write fw data s) |} rc zw;
      Some zw'
  end.

(** The loop of [NewWriter] over the ancillary resources. *)
Fixpoint copy_resources (files : gmap string zip.File) (resources : list rwpm.Link)
    (zw : zip.Writer) : option (zip.Writer * option error) :=
  match resources with
  | [] => Some (zw, None)
  | manifestResource :: rest =>
      sourceFile ← files !! rwpm.Link_Href manifestResource;
      let '(zw1, (fw, err)) := zip.Create zw (zip.Name (zip.header sourceFile)) in
      match err with
      | Some e => Some (zw1, Some e)
      | None =>
          fw' ← fw;
          zw2 ← copy_verbatim fw' sourceFile zw1;
          copy_resources files rest zw2
      end
  end.

(** [NewWriter] returns a new PackageWriter writing a RWP to the output;
    [W3CManifestName] is a constant of the package declared outside the
    sources, [stream] the behaviour of the output. *)
Definition NewWriter (W3CManifestName : string) (reader : RWPPReader)
    (stream : list (option error)) : option (option RWPPWriter * option error) :=
  let zipWriter := zip.NewWriter stream in
  let files := index_files (RWPPReader_zipArchive reader) in
  r ← match files !! W3CManifestName with
      | Some w3cmanFile =>
          let '(zw1, (fw, err)) := zip.Create zipWriter W3CManifestName in
          match err with
          | Some e => Some (zw1, Some e)
          | None =>
              fw' ← fw;
              zw2 ← copy_verbatim fw' w3cmanFile zw1;
              Some (zw2, None)
          end
      | None => Some (zipWriter, None)
      end;
  match r with
  | (_, Some e) => Some (None, Some e)
  | (zw, None) =>
      '(zw', err) ← copy_resources files
                      (rwpm.Publication_Resources (RWPPReader_manifest reader)) zw;
      match err with
      | Some e => Some (None, Some e)
      | None =>
          let manifest := set_ReadingOrder (RWPPReader_manifest reader) [] in
          Some (Some {| RWPPWriter_zipWriter := zw'; RWPPWriter_manifest := manifest |}, None)
      end
  end.

(** [RWPPWriter] implements [PackageWriter]. *)
#[export] Instance RWPPWriter_PackageWriter : PackageWriter RWPPWriter := {
  pw_NewFile := NewFile;
  pw_MarkAsEncrypted := MarkAsEncrypted;
  pw_Close := Close
}.

End WithJson.

(** ** The store and the manifests over it *)

(** The addresses the links of a list hold. *)
Definition addresses (ls : list rwpm.Link) : list loc :=
  omap rwpm.Link_Properties ls.

(** The state of a writer over a store, as [NewWriter], [NewFile] and
    [MarkAsEncrypted] keep it: the cells of its links are allocated, no two
    links of the working reading order share a cell, and none shares one
    with an ancillary resource. *)
Record writer_inv (h : Heap) (writer : RWPPWriter) : Prop := {
  inv_alloc : ∀ a,
    a ∈ addresses (ReadingOrder writer) ∨
    a ∈ addresses (rwpm.Publication_Resources (RWPPWriter_manifest writer)) →
    is_Some (h !! a);
  inv_NoDup : NoDup (addresses (ReadingOrder writer));
  inv_apart : ∀ a,
    a ∈ addresses (ReadingOrder writer) →
    a ∉ addresses (rwpm.Publication_Resources (RWPPWriter_manifest writer))
}.

(** A link of the document with the record attached, in the properties it
    has or in new ones. *)
Definition marked (encrypted : rwpm.Encrypted) (l : wire.Link) : wire.Link :=
  {| wire.href := wire.href l; wire.type := wire.type l;
     wire.properties :=
       Some (set_Encrypted (default rwpm.zero_Properties (wire.properties l))
                           (Some encrypted)) |}.

(** What [MarkAsEncrypted] does, told on the document: the first link of
    href [path] gets the record. *)
Fixpoint mark_first (path : string) (encrypted : rwpm.Encrypted) (ls : list wire.Link)
  : list wire.Link :=
  match ls with
  | [] => []
  | l :: rest =>
      if decide (path = wire.href l) then marked encrypted l :: rest
      else l :: mark_first path encrypted rest
  end.


(** ** A pass over a writer

    The calls a driver makes on a writer between [NewWriter] and [Close]:
    [NewFile], writes to the stream the last [NewFile] returned, and
    [MarkAsEncrypted]. *)
Inductive call : Type :=
| call_NewFile (path contentType : string) (storageMethod : Z)
| call_Write (data : list byte)
| call_MarkAsEncrypted (path : string) (originalSize : Z)
    (profile : license.EncryptionProfile) (algorithm : string).

(** The store, the writer and the stream of the entry being written. *)
Definition pass_state : Type :=
  Heap * RWPPWriter * option (io.WriteCloser RWPPWriter).

(** One call.  [None]: a [NewFile] that returned an error, which ends the
    pass.  The result of a write is not looked at. *)
Definition do_call (s : pass_state) (c : call) : option pass_state :=
  let '(h, writer, wc) := s in
  match c with
  | call_NewFile path contentType storageMethod =>
      let '(writer', (wc', err)) := NewFile writer path contentType storageMethod in
      match err with
      | Some _ => None
      | None => Some (h, writer', Some wc')
      end
  | call_Write data =>
      match wc with
      | None => Some s
      | Some wc' =>
          match io.wc_Write wc' data writer with
          | Some (writer', _) => Some (h, writer', wc)
          | None => None
          end
      end
  | call_MarkAsEncrypted path originalSize profile algorithm =>
      let '(h', writer') := MarkAsEncrypted h writer path originalSize profile algorithm in
      Some (h', writer', wc)
  end.

Fixpoint do_calls (s : pass_state) (cs : list call) : option pass_state :=
  match cs with
  | [] => Some s
  | c :: cs' => s' ← do_call s c; do_calls s' cs'
  end.

(** The paths passed to [NewFile], in the order of the calls. *)
Definition NewFile_paths (cs : list call) : list string :=
  omap (λ c, match c with call_NewFile path _ _ => Some path | _ => None end) cs.

(** [MarkAsEncrypted] was called with [path]. *)
Definition marked_path (cs : list call) (path : string) : Prop :=
  ∃ originalSize profile algorithm,
    call_MarkAsEncrypted path originalSize profile algorithm ∈ cs.

(** [MarkAsEncrypted] was called with [path] after the [i]-th [NewFile]
    (counted from 0), and no earlier [NewFile] had the same path. *)
Definition marked_link (cs : list call) (i : nat) (path : string) : Prop :=
  (∃ k originalSize profile algorithm,
     cs !! k = Some (call_MarkAsEncrypted path originalSize profile algorithm) ∧
     i < length (NewFile_paths (take k cs))) ∧
  (∀ j, j < i → NewFile_paths cs !! j ≠ Some path).

(** The pass on the document: what the calls do to the reading order. *)
Definition call_on_document (ls : list wire.Link) (c : call) : list wire.Link :=
  match c with
  | call_NewFile path contentType _ =>
      ls ++ [ {| wire.href := path; wire.type := contentType; wire.properties := None |} ]
  | call_Write _ => ls
  | call_MarkAsEncrypted path _ profile algorithm =>
      mark_first path
        {| rwpm.Encrypted_Scheme := lcp_scheme;
           rwpm.Encrypted_Profile := license.String profile;
           rwpm.Encrypted_Algorithm := algorithm |} ls
  end.

(** The manifest read back from the container a closed writer leaves. *)
Definition reread `{JsonCodec} (h : Heap) (writer : RWPPWriter)
  : option wire.Publication :=
  let '(h', (reader, _)) := NewRWPPReader h (zip.reopen (RWPPWriter_zipWriter writer)) in
  r ← reader; Some (view_Publication h' (RWPPReader_manifest r)).

(** A whole pass: the calls, [Close], and the manifest read back from the
    container, in a store [h].  [None]: a [NewFile] returned an error;
    otherwise the result of [Close] and the document read back. *)
Definition pass `{JsonCodec} (h0 : Heap) (writer0 : RWPPWriter) (cs : list call) (h : Heap)
  : option (option error * option wire.Publication) :=
  '(h1, writer1, _) ← do_calls (h0, writer0, None) cs;
  '(writer2, err) ← Close h1 writer1;
  Some (err, reread h writer2).

(** The document of the manifest of a writer after the calls. *)
Definition document_after (h0 : Heap) (writer0 : RWPPWriter) (cs : list call)
  : wire.Publication :=
  let d0 := view_Publication h0 (RWPPWriter_manifest writer0) in
  {| wire.title := wire.title d0;
     wire.readingOrder := foldl call_on_document (wire.readingOrder d0) cs;
     wire.resources := wire.resources d0 |}.

(** The property of a pass as the specification words it: for a pass of
    successful [NewFile] calls closed without error, the reading order
    read back has the paths of the calls, in their order, and a link has an
    encryption record if and only if [MarkAsEncrypted] was called with its
    path. *)
Definition reading_order_as_specified `{JsonCodec}
    (h0 : Heap) (writer0 : RWPPWriter) (cs : list call) : Prop :=
  ∀ h r,
    pass h0 writer0 cs h = Some (None, r) →
    ∃ d, r = Some d ∧
         wire.href <$> wire.readingOrder d = NewFile_paths cs ∧
         ∀ l, l ∈ wire.readingOrder d →
              (is_Some (wire.encrypted l) ↔ marked_path cs (wire.href l)).

(** ** A codec to run the examples with

    A writer and a reader of the JSON text of a manifest, in the one layout
    the writer produces; strings are written as they are, and a string with
    a quotation mark or a backslash is refused. *)
Module sample_json.

Definition parser (A : Type) : Type := list byte → option (A * list byte).

Definition bytes (s : string) : list byte := String.list_byte_of_string s.

Definition quote : byte := Byte.x22.
Definition backslash : byte := Byte.x5c.

Definition plain (s : string) : bool :=
  forallb (λ b, negb (bool_decide (b = quote)) && negb (bool_decide (b = backslash)))
          (bytes s).

Definition w_string (s : string) : list byte := quote :: bytes s ++ [quote].
Definition w_key (k : string) : list byte := w_string k ++ bytes ":".

Definition w_Encrypted (e : rwpm.Encrypted) : list byte :=
  bytes "{" ++ w_key "scheme" ++ w_string (rwpm.Encrypted_Scheme e) ++
  bytes "," ++ w_key "profile" ++ w_string (rwpm.Encrypted_Profile e) ++
  bytes "," ++ w_key "algorithm" ++ w_string (rwpm.Encrypted_Algorithm e) ++ bytes "}".

Definition w_Properties (p : rwpm.Properties) : list byte :=
  match rwpm.Properties_Encrypted p with
  | None => bytes "{}"
  | Some e => bytes "{" ++ w_key "encrypted" ++ w_Encrypted e ++ bytes "}"
  end.

Definition w_Link (l : wire.Link) : list byte :=
  bytes "{" ++ w_key "href" ++ w_string (wire.href l) ++
  bytes "," ++ w_key "type" ++ w_string (wire.type l) ++
  match wire.properties l with
  | None => []
  | Some p => bytes "," ++ w_key "properties" ++ w_Properties p
  end ++ bytes "}".

Fixpoint w_items (ls : list wire.Link) : list byte :=
  match ls with
  | [] => []
  | [l] => w_Link l
  | l :: ls' => w_Link l ++ bytes "," ++ w_items ls'
  end.

Definition w_Links (ls : list wire.Link) : list byte :=
  bytes "[" ++ w_items ls ++ bytes "]".

Definition w_Publication (d : wire.Publication) : list byte :=
  bytes "{" ++ w_key "metadata" ++ bytes "{" ++ w_key "title" ++ w_string (wire.title d) ++
  bytes "}," ++ w_key "readingOrder" ++ w_Links (wire.readingOrder d) ++
  bytes "," ++ w_key "resources" ++ w_Links (wire.resources d) ++ bytes "}".

Definition plain_Link (l : wire.Link) : bool :=
  plain (wire.href l) && plain (wire.type l) &&
  match wire.encrypted l with
  | None => true
  | Some e => plain (rwpm.Encrypted_Scheme e) && plain (rwpm.Encrypted_Profile e) &&
              plain (rwpm.Encrypted_Algorithm e)
  end.

Definition encode (d : wire.Publication) : list byte + error :=
  if plain (wire.title d) && forallb plain_Link (wire.readingOrder d) &&
     forallb plain_Link (wire.resources d)
  then inl (w_Publication d ++ bytes (String (Ascii.ascii_of_nat 10) EmptyString))
  else inr (lib_error 1).

(** The reader. *)
Fixpoint r_lit (lit input : list byte) : option (unit * list byte) :=
  match lit, input with
  | [], _ => Some ((), input)
  | b :: lit', b' :: input' => if decide (b = b') then r_lit lit' input' else None
  | _ :: _, [] => None
  end.

Fixpoint r_chars (input : list byte) : option (list byte * list byte) :=
  match input with
  | [] => None
  | b :: input' =>
      if decide (b = quote) then Some ([], input')
      else if decide (b = backslash) then None
      else '(s, rest) ← r_chars input'; Some (b :: s, rest)
  end.

Definition r_string : parser string := λ input,
  '(_, i1) ← r_lit [quote] input;
  '(s, i2) ← r_chars i1;
  Some (String.string_of_list_byte s, i2).

Definition r_key (k : string) : parser unit := r_lit (w_key k).

Definition r_Encrypted : parser rwpm.Encrypted := λ input,
  '(_, i) ← r_lit (bytes "{") input; '(_, i) ← r_key "scheme" i;
  '(s, i) ← r_string i;
  '(_, i) ← r_lit (bytes ",") i; '(_, i) ← r_key "profile" i;
  '(p, i) ← r_string i;
  '(_, i) ← r_lit (bytes ",") i; '(_, i) ← r_key "algorithm" i;
  '(a, i) ← r_string i;
  '(_, i) ← r_lit (bytes "}") i;
  Some (rwpm.mkEncrypted s p a, i).

Definition r_Properties : parser rwpm.Properties := λ input,
  '(_, i) ← r_lit (bytes "{") input;
  match r_lit (bytes "}") i with
  | Some (_, i') => Some (rwpm.mkProperties None, i')
  | None =>
      '(_, i) ← r_key "encrypted" i;
      '(e, i) ← r_Encrypted i;
      '(_, i) ← r_lit (bytes "}") i;
      Some (rwpm.mkProperties (Some e), i)
  end.

Definition r_Link : parser wire.Link := λ input,
  '(_, i) ← r_lit (bytes "{") input; '(_, i) ← r_key "href" i;
  '(h, i) ← r_string i;
  '(_, i) ← r_lit (bytes ",") i; '(_, i) ← r_key "type" i;
  '(t, i) ← r_string i;
  match r_lit (bytes "}") i with
  | Some (_, i') => Some (wire.mkLink h t None, i')
  | None =>
      '(_, i) ← r_lit (bytes ",") i; '(_, i) ← r_key "properties" i;
      '(p, i) ← r_Properties i;
      '(_, i) ← r_lit (bytes "}") i;
      Some (wire.mkLink h t (Some p), i)
  end.

(** The items of a list after its first, with one unit of [fuel] each. *)
Fixpoint r_more (fuel : nat) (input : list byte) : option (list wire.Link * list byte) :=
  match r_lit (bytes "]") input with
  | Some (_, i') => Some ([], i')
  | None =>
      match fuel with
      | O => None
      | S fuel' =>
          '(_, i) ← r_lit (bytes ",") input;
          '(l, i) ← r_Link i;
          '(ls, i) ← r_more fuel' i;
          Some (l :: ls, i)
      end
  end.

Definition r_Links : parser (list wire.Link) := λ input,
  '(_, i) ← r_lit (bytes "[") input;
  match r_lit (bytes "]") i with
  | Some (_, i') => Some ([], i')
  | None =>
      '(l, i) ← r_Link i;
      '(ls, i) ← r_more (length i) i;
      Some (l :: ls, i)
  end.

Definition r_Publication : parser wire.Publication := λ input,
  '(_, i) ← r_lit (bytes "{") input; '(_, i) ← r_key "metadata" i;
  '(_, i) ← r_lit (bytes "{") i; '(_, i) ← r_key "title" i;
  '(t, i) ← r_string i;
  '(_, i) ← r_lit (bytes "},") i; '(_, i) ← r_key "readingOrder" i;
  '(ro, i) ← r_Links i;
  '(_, i) ← r_lit (bytes ",") i; '(_, i) ← r_key "resources" i;
  '(rs, i) ← r_Links i;
  '(_, i) ← r_lit (bytes "}") i;
  Some (wire.mkPublication t ro rs, i).

Definition decode (input : list byte) : wire.Publication + error :=
  match r_Publication input with
  | Some (d, _) => inl d
  | None => inr (lib_error 2)
  end.

Definition codec : JsonCodec :=
  {| json_Encode := encode; json_Decode := decode |}.

End sample_json.

(** ** package xmlenc: the XML encryption manifest (encryption.go) *)

Module xmlenc.

Definition URI : Type := string.

Record Method : Type := mkMethod {
  Method_KeySize : Z;
  Method_Algorithm : URI
}.

Record CipherReference : Type := mkCipherReference {
  CipherReference_URI : URI
}.

Record CipherData : Type := mkCipherData {
  CipherData_CipherReference : CipherReference;
  CipherData_Value : list byte
}.

Record RetrievalMethod : Type := mkRetrievalMethod {
  RetrievalMethod_URI : URI;
  RetrievalMethod_Type : string
}.

Record KeyInfo : Type := mkKeyInfo {
  KeyInfo_KeyName : string;
  KeyInfo_RetrievalMethod : RetrievalMethod
}.

Record encryptedType : Type := mkencryptedType {
  encryptedType_Method : Method;
  encryptedType_KeyInfo : option KeyInfo;
  encryptedType_CipherData : CipherData;
  encryptedType_ID : string;
  encryptedType_Type : URI;
  encryptedType_MimeType : string;
  encryptedType_Encoding : URI
}.

Record Compression : Type := mkCompression {
  Compression_Method : Z;
  Compression_OriginalLength : Z
}.

Record EncryptionProperty : Type := mkEncryptionProperty {
  EncryptionProperty_Compression : Compression
}.

Record EncryptionProperties : Type := mkEncryptionProperties {
  EncryptionProperties_Properties : list EncryptionProperty
}.

(** [Data] embeds [encryptedType]. *)
Record Data : Type := mkData {
  Data_encryptedType : encryptedType;
  Data_Properties : option EncryptionProperties
}.

Record Manifest : Type := mkManifest {
  Manifest_Data : list Data
}.

(** [datum.CipherData.CipherReference.URI] *)
Definition reference (datum : Data) : URI :=
  CipherReference_URI
    (CipherData_CipherReference (encryptedType_CipherData (Data_encryptedType datum))).

(** [Data{}], the zero value. *)
Definition zero_Data : Data :=
  {| Data_encryptedType :=
       {| encryptedType_Method := {| Method_KeySize := 0; Method_Algorithm := "" |};
          encryptedType_KeyInfo := None;
          encryptedType_CipherData :=
            {| CipherData_CipherReference := {| CipherReference_URI := "" |};
               CipherData_Value := [] |};
          encryptedType_ID := "";
          encryptedType_Type := "";
          encryptedType_MimeType := "";
          encryptedType_Encoding := "" |};
     Data_Properties := None |}.

Section WithUrl.

(** Package net/url: the parsing of a URI reference and the escaped
    form of the path of a parsed one. *)
Variable URL : Type.
Variable url_Parse : string → URL + error.
Variable EscapedPath : URL → string.

(** The loop of [DataForFile] over the records. *)
Fixpoint DataForFile_loop (data : list Data) (uri : URI) : Data * bool :=
  match data with
  | [] => (zero_Data, false)
  | datum :: rest =>
      if decide (reference datum = uri) then (datum, true)
      else DataForFile_loop rest uri
  end.

(** [DataForFile] returns the EncryptedData item corresponding to a
    given path. *)
Definition DataForFile (m : Manifest) (path : string) : Data * bool :=
  match url_Parse path with
  | inr _ => (zero_Data, false)
  | inl fileUri =>
      let uri : URI := EscapedPath fileUri in
      DataForFile_loop (Manifest_Data m) uri
  end.

End WithUrl.

End xmlenc.

(** The names of the entries of a destination archive, in the order of
    their creation. *)
Definition entry_names (zw : zip.Writer) : list string :=
  (λ en : zip.FileHeader * list byte, zip.Name en.1) <$> zip.dir zw.

(** The streams a pass holds: none yet, or the one [NewFile] built on an
    entry of the archive. *)
Definition entry_stream (wc : option (io.WriteCloser RWPPWriter)) : Prop :=
  match wc with
  | None => True
  | Some s => ∃ i, s = NopWriteCloser_stream (mkNopWriteCloser (Some (entry_Writer i)))
  end.

(** ** The scenario of the specification

    A source with the reading order [a.html, b.html] and the ancillary
    resource [styles.css]; the pass marks [a.html] as encrypted with the
    profile [basic] and the algorithm [AES-CBC], and copies [b.html]. *)
Module scenario.

Definition content (s : string) : list byte := String.list_byte_of_string s.

Definition source_file (name : string) (data : list byte) : zip.File :=
  {| zip.header := {| zip.Name := name; zip.Method := zip.Deflate;
                      zip.UncompressedSize64 := Z.of_nat (length data) |};
     zip.Open := inl (io.mkReadCloser data None None) |}.

Definition source_manifest : rwpm.Publication :=
  {| rwpm.Publication_Metadata := {| rwpm.Metadata_Title := "A book" |};
     rwpm.Publication_ReadingOrder :=
       [ rwpm.mkLink "a.html" "text/html" None; rwpm.mkLink "b.html" "text/html" None ];
     rwpm.Publication_Resources := [ rwpm.mkLink "styles.css" "text/css" None ] |}.

Definition reader : RWPPReader :=
  {| RWPPReader_manifest := source_manifest;
     RWPPReader_zipArchive :=
       {| zip.Files :=
            [ source_file "manifest.json" (content "{}");
              source_file "a.html" (content "<p>a</p>");
              source_file "b.html" (content "<p>b</p>");
              source_file "styles.css" (content "p {}") ] |} |}.

(** The writer [NewWriter] gives on this source, on an output without
    failure (see [NewWriter_scenario]). *)
Definition writer : RWPPWriter :=
  {| RWPPWriter_manifest := set_ReadingOrder source_manifest [];
     RWPPWriter_zipWriter :=
       {| zip.dir :=
            [ ({| zip.Name := "styles.css"; zip.Method := zip.Deflate;
                  zip.UncompressedSize64 := 0 |}, content "p {}") ];
          zip.closed := false;
          zip.outcomes := [];
          zip.log := [ zip.call_CreateHeader "styles.css" zip.Deflate;
                       zip.call_Write 0 (content "p {}") ] |} |}.

Definition basic : license.EncryptionProfile := license.mkEncryptionProfile "basic".

Definition calls : list call :=
  [ call_NewFile "a.html" "text/html" zip.Deflate;
    call_Write (content "(a.html, encrypted)");
    call_MarkAsEncrypted "a.html" 8 basic "AES-CBC";
    call_NewFile "b.html" "text/html" zip.Deflate;
    call_Write (content "<p>b</p>") ].

(** The manifest of the destination. *)
Definition destination : wire.Publication :=
  {| wire.title := "A book";
     wire.readingOrder :=
       [ wire.mkLink "a.html" "text/html"
           (Some (rwpm.mkProperties
                    (Some (rwpm.mkEncrypted "http://readium.org/2014/01/lcp"
                                            "basic" "AES-CBC"))));
         wire.mkLink "b.html" "text/html" None ];
     wire.resources := [ wire.mkLink "styles.css" "text/css" None ] |}.

(** A writer on an empty archive, with no ancillary resource. *)
Definition empty_writer : RWPPWriter :=
  {| RWPPWriter_manifest :=
       rwpm.mkPublication (rwpm.mkMetadata "A book") [] [];
     RWPPWriter_zipWriter := zip.NewWriter [] |}.

(** The same path given to [NewFile] twice, then marked. *)
Definition twice : list call :=
  [ call_NewFile "a.html" "text/html" zip.Deflate;
    call_NewFile "a.html" "text/html" zip.Deflate;
    call_MarkAsEncrypted "a.html" 8 basic "AES-CBC" ].

Definition twice_destination : wire.Publication :=
  {| wire.title := "A book";
     wire.readingOrder :=
       [ wire.mkLink "a.html" "text/html"
           (Some (rwpm.mkProperties
                    (Some (rwpm.mkEncrypted "http://readium.org/2014/01/lcp"
                                            "basic" "AES-CBC"))));
         wire.mkLink "a.html" "text/html" None ];
     wire.resources := [] |}.

(** A package writer whose streams take every write and fail to close. *)
Definition closing_error : error := lib_error 3.

Definition unclosable_stream : io.WriteCloser unit :=
  {| io.wc_Write := λ data s, Some (s, (Z.of_nat (length data), None));
     io.wc_Close := λ s, Some (s, Some closing_error) |}.

Definition unclosable : PackageWriter unit :=
  {| pw_NewFile := λ w _ _ _, (w, (unclosable_stream, None));
     pw_MarkAsEncrypted := λ h w _ _ _ _, (h, w);
     pw_Close := λ _ w, Some (w, None) |}.

(** A resource whose stream fails after its bytes and fails to close. *)
Definition transfer_error : error := lib_error 1.
Definition source_closing_error : error := lib_error 2.

Definition broken_stream : io.ReadCloser :=
  {| io.rc_data := content "<p>"; io.rc_err := Some transfer_error;
     io.rc_Close := Some source_closing_error |}.

Definition broken_file : zip.File :=
  {| zip.header := {| zip.Name := "a.html"; zip.Method := zip.Deflate;
                      zip.UncompressedSize64 := 8 |};
     zip.Open := inl broken_stream |}.

Definition broken_resource : rwpResource :=
  {| file := Some broken_file; isEncrypted := false; contentType := "text/html" |}.

(** A writer whose output fails at the second operation to come: the
    entry of the manifest is created and the write of its text fails. *)
Definition output_error : error := lib_error 7.

Definition failing_writer : RWPPWriter :=
  {| RWPPWriter_manifest :=
       rwpm.mkPublication (rwpm.mkMetadata "A book") [] [];
     RWPPWriter_zipWriter := zip.NewWriter [None; Some output_error] |}.

(** A writer whose output fails at the next operation. *)
Definition full_writer : RWPPWriter :=
  {| RWPPWriter_manifest :=
       rwpm.mkPublication (rwpm.mkMetadata "A book") [] [];
     RWPPWriter_zipWriter := zip.NewWriter [Some output_error] |}.

(** An archive without manifest. *)
Definition bare_archive : zip.Reader :=
  {| zip.Files := [ source_file "a.html" (content "<p>a</p>") ] |}.

(** A source whose first link is already marked as encrypted; its cell
    is at address 1 of the store [marked_store]. *)
Definition marked_store : gmap positive rwpm.Properties :=
  {[ 1%positive :=
       rwpm.mkProperties
         (Some (rwpm.mkEncrypted "http://readium.org/2014/01/lcp" "basic" "AES-CBC")) ]}.

Definition marked_reader : RWPPReader :=
  {| RWPPReader_manifest :=
       {| rwpm.Publication_Metadata := {| rwpm.Metadata_Title := "A book" |};
          rwpm.Publication_ReadingOrder :=
            [ rwpm.mkLink "a.html" "text/html" (Some 1%positive);
              rwpm.mkLink "b.html" "text/html" None ];
          rwpm.Publication_Resources := [ rwpm.mkLink "styles.css" "text/css" None ] |};
     RWPPReader_zipArchive := RWPPReader_zipArchive reader |}.

(** An XML encryption manifest with two records, and a reading of
    net/url for paths that need no escaping: the path as it is. *)
Definition datum (uri algorithm : string) : xmlenc.Data :=
  {| xmlenc.Data_encryptedType :=
       {| xmlenc.encryptedType_Method :=
            {| xmlenc.Method_KeySize := 0; xmlenc.Method_Algorithm := algorithm |};
          xmlenc.encryptedType_KeyInfo := None;
          xmlenc.encryptedType_CipherData :=
            {| xmlenc.CipherData_CipherReference :=
                 {| xmlenc.CipherReference_URI := uri |};
               xmlenc.CipherData_Value := [] |};
          xmlenc.encryptedType_ID := "";
          xmlenc.encryptedType_Type := "";
          xmlenc.encryptedType_MimeType := "";
          xmlenc.encryptedType_Encoding := "" |};
     xmlenc.Data_Properties := None |}.

Definition aes : string := "http://www.w3.org/2001/04/xmlenc#aes256-cbc".

Definition encryption : xmlenc.Manifest :=
  {| xmlenc.Manifest_Data :=
       [ datum "OPS/chapter1.xhtml" aes; datum "OPS/chapter2.xhtml" aes ] |}.

Definition plain_Parse (path : string) : string + error := inl path.
Definition plain_EscapedPath (u : string) : string := u.

(** A writer at work over [marked_store]: its first link has the cell at
    address 1, and the path [b.html] was given to [NewFile] twice. *)
Definition working_writer : RWPPWriter :=
  {| RWPPWriter_manifest :=
       {| rwpm.Publication_Metadata := {| rwpm.Metadata_Title := "A book" |};
          rwpm.Publication_ReadingOrder :=
            [ rwpm.mkLink "a.html" "text/html" (Some 1%positive);
              rwpm.mkLink "b.html" "text/html" None;
              rwpm.mkLink "b.html" "text/html" None ];
          rwpm.Publication_Resources := [ rwpm.mkLink "styles.css" "text/css" None ] |};
     RWPPWriter_zipWriter := zip.NewWriter [] |}.

Definition working_marked : gmap positive rwpm.Properties * RWPPWriter :=
  MarkAsEncrypted marked_store working_writer "b.html" 8 basic "AES-CBC".

(** [NewFile] given the path of the manifest. *)
Definition manifest_path : list call :=
  [ call_NewFile "manifest.json" "application/json" zip.Deflate;
    call_Write (content "[]") ].

(** [MarkAsEncrypted] called before the [NewFile] of its path. *)
Definition marked_early : list call :=
  [ call_MarkAsEncrypted "a.html" 8 basic "AES-CBC";
    call_NewFile "a.html" "text/html" zip.Deflate ].

End scenario.

(** ** Destinations without failure, and what [NewWriter] copies *)

(** The destination stream fails at none of the operations to come. *)
Definition no_failure (outcomes : list (option error)) : Prop :=
  ∀ o, o ∈ outcomes → o = None.

(** The bytes the stream of an entry yields; none when it does not open. *)
Definition stream_data (f : zip.File) : list byte :=
  match zip.Open f with
  | inl rc => io.rc_data rc
  | inr _ => []
  end.

(** The names of the entries [NewWriter] copies from the source: the W3C
    manifest when the source has one, then the ancillary resources. *)
Definition referenced (W3CManifestName : string) (reader : RWPPReader) : list string :=
  match index_files (RWPPReader_zipArchive reader) !! W3CManifestName with
  | Some _ => [W3CManifestName]
  | None => []
  end ++ (rwpm.Link_Href <$> rwpm.Publication_Resources (RWPPReader_manifest reader)).

(** The entry of name [name] as [NewWriter] writes it. *)
Definition seeded_entry (files : gmap string zip.File) (name : string)
  : option (zip.FileHeader * list byte) :=
  f ← files !! name;
  Some ({| zip.Name := name; zip.Method := zip.Deflate; zip.UncompressedSize64 := 0 |},
        stream_data f).

(** An entry of this name is in the archive and opens. *)
Definition opens (files : gmap string zip.File) (name : string) : Prop :=
  ∃ f rc, files !! name = Some f ∧ zip.Open f = inl rc.




(** The first entry of the name of the manifest, as the loop of
    [NewRWPPReader] finds it. *)
Definition first_manifest (zipReader : zip.Reader) (file : zip.File) : Prop :=
  ∃ before after,
    zip.Files zipReader = before ++ file :: after ∧
    zip.Name (zip.header file) = ManifestLocation ∧
    ∀ f, f ∈ before → zip.Name (zip.header f) ≠ ManifestLocation.

(** ** [BuildRWPPFromPDF] *)

Definition nl : string := String (Ascii.ascii_of_nat 10) EmptyString.
Definition tab : string := String (Ascii.ascii_of_nat 9) EmptyString.
Definition dq : string := String (Ascii.ascii_of_nat 34) EmptyString.

(** The text of the template of the manifest before [{{.Title}}] and
    after it. *)
Definition manifest_head : string :=
  nl +:+
  tab +:+ "{" +:+ nl +:+
  tab +:+ tab +:+ dq +:+ "@context" +:+ dq +:+ ": [" +:+ nl +:+
  tab +:+ tab +:+ tab +:+ dq +:+ "https://readium.org/webpub-manifest/context.jsonld"
    +:+ dq +:+ nl +:+
  tab +:+ tab +:+ "]," +:+ nl +:+
  tab +:+ tab +:+ dq +:+ "metadata" +:+ dq +:+ ": {" +:+ nl +:+
  tab +:+ tab +:+ tab +:+ dq +:+ "title" +:+ dq +:+ ": " +:+ dq.

Definition manifest_tail : string :=
  dq +:+ nl +:+
  tab +:+ tab +:+ "}," +:+ nl +:+
  tab +:+ tab +:+ dq +:+ "readingOrder" +:+ dq +:+ ": [" +:+ nl +:+
  tab +:+ tab +:+ tab +:+ "{" +:+ nl +:+
  tab +:+ tab +:+ tab +:+ tab +:+ dq +:+ "href" +:+ dq +:+ ": " +:+ dq +:+ "publication.pdf"
    +:+ dq +:+ "," +:+ nl +:+
  tab +:+ tab +:+ tab +:+ tab +:+ dq +:+ "type" +:+ dq +:+ ": " +:+ dq +:+ "application/pdf"
    +:+ dq +:+ nl +:+
  tab +:+ tab +:+ tab +:+ "}" +:+ nl +:+
  tab +:+ tab +:+ "]" +:+ nl +:+
  tab +:+ "}" +:+ nl +:+
  tab.

(** The [io.Writer] of the content of entry [i] of an archive. *)
Definition zip_entry_Writer (i : nat) : io.Writer zip.Writer :=
  {| io.Write := λ data zw, Some (zip.Write i data zw) |}.

(** [tmpl.Execute(w, struct{ Title string }{title})] on the template of
    the manifest: package text/template writes the text before the action,
    the value of [.Title] as it is, and the text after, in three writes, and
    stops at the first write that fails. *)
Definition Template_Execute (title : string) (w : io.Writer zip.Writer) (zw : zip.Writer)
  : option (zip.Writer * option error) :=
  '(zw1, (_, err)) ← io.Write w (String.list_byte_of_string manifest_head) zw;
  match err with
  | Some e => Some (zw1, Some e)
  | None =>
      '(zw2, (_, err)) ← io.Write w (String.list_byte_of_string title) zw1;
      match err with
      | Some e => Some (zw2, Some e)
      | None =>
          '(zw3, (_, err)) ← io.Write w (String.list_byte_of_string manifest_tail) zw2;
          Some (zw3, err)
      end
  end.

(** What [BuildRWPPFromPDF] meets outside: [os.Create(outputPath)] gives
    the output file, that is the outcomes of its coming operations, or an
    error; [os.Open(inputPath)] gives the stream of the input file or an
    error; [tmpl.Parse] gives its error (nil on the text of the template,
    which is fixed). *)
Record pdf_env : Type := mkpdf_env {
  os_Create : list (option error) + error;
  os_Open : io.ReadCloser + error;
  Template_Parse : option error
}.

(** [BuildRWPPFromPDF] builds a Readium Package (rwpp) which embeds a PDF
    file.  The result is the archive written to the output file (none when
    the file could not be created) and the error.  The deferred [Close] of
    the two files do not reach the result. *)
Definition BuildRWPPFromPDF (title : string) (env : pdf_env)
  : option (option zip.Writer * option error) :=
  match os_Create env with
  | inr e => Some (None, Some e)
  | inl f =>
      let zipWriter := zip.NewWriter f in
      let '(zw1, (writer, err)) := zip.Create zipWriter "publication.pdf" in
      match err with
      | Some e => Some (Some zw1, Some e)
      | None =>
          match os_Open env with
          | inr e =>
              let '(zw2, _) := zip.Close zw1 in Some (Some zw2, Some e)
          | inl inputFile =>
              writer' ← writer;
              '(zw2, (_, err)) ← io.Copy (zip_entry_Writer writer') inputFile zw1;
              match err with
              | Some e =>
                  let '(zw3, _) := zip.Close zw2 in Some (Some zw3, Some e)
              | None =>
                  let '(zw3, (manifestWriter, err)) := zip.Create zw2 ManifestLocation in
                  match err with
                  | Some e => Some (Some zw3, Some e)
                  | None =>
                      match Template_Parse env with
                      | Some e =>
                          let '(zw4, _) := zip.Close zw3 in Some (Some zw4, Some e)
                      | None =>
                          manifestWriter' ← manifestWriter;
                          '(zw4, err) ← Template_Execute title
                                          (zip_entry_Writer manifestWriter') zw3;
                          match err with
                          | Some e =>
                              let '(zw5, _) := zip.Close zw4 in Some (Some zw5, Some e)
                          | None =>
                              let '(zw5, err) := zip.Close zw4 in Some (Some zw5, err)
                          end
                      end
                  end
              end
          end
      end
  end.

(** ** package xmlenc: writing and reading the manifest *)

(** An output stream: the bytes it has taken and the outcomes of the
    writes to come, one each (none left: success). *)
Record sink : Type := mksink {
  sink_bytes : list byte;
  sink_outcomes : list (option error)
}.

Definition sink_Write (data : list byte) (s : sink) : sink * (Z * option error) :=
  match sink_outcomes s with
  | Some e :: rest =>
      ({| sink_bytes := sink_bytes s; sink_outcomes := rest |}, (0%Z, Some e))
  | _ =>
      ({| sink_bytes := sink_bytes s ++ data; sink_outcomes := tail (sink_outcomes s) |},
       (Z.of_nat (length data), None))
  end.

Definition sink_Writer : io.Writer sink :=
  {| io.Write := λ data s, Some (sink_Write data s) |}.

(** [xml.Header] *)
Definition xml_Header : string :=
  "<?xml version=" +:+ dq +:+ "1.0" +:+ dq +:+ " encoding=" +:+ dq +:+ "UTF-8" +:+ dq
    +:+ "?>" +:+ nl.

Section WithXml.

(** Package encoding/xml: [xml_Encode prefix indent m] is what an
    [Encoder] set by [Indent(prefix, indent)] writes for [m], or the error
    of the marshalling; [xml_Decode data err] is what [Decode] makes of a
    stream that yields [data] and ends on [err], with the charset reader of
    golang.org/x/net: the manifest as it is filled, and the error. *)
Variable xml_Encode : string → string → xmlenc.Manifest → list byte + error.
Variable xml_Decode : list byte → option error → xmlenc.Manifest * option error.

(** [Write] writes the encryption XML structure.  The result of the write
    of the header is not looked at. *)
Definition Manifest_Write {W} (m : xmlenc.Manifest) (w : io.Writer W) (s : W)
  : option (W * option error) :=
  '(s1, _) ← io.Write w (String.list_byte_of_string xml_Header) s;
  match xml_Encode "" "  " m with
  | inr e => Some (s1, Some e)
  | inl text =>
      '(s2, (_, err)) ← io.Write w text s1;
      Some (s2, err)
  end.

(** [Read] parses the encryption XML structure. *)
Definition xmlenc_Read (r : io.ReadCloser) : xmlenc.Manifest * option error :=
  xml_Decode (io.rc_data r) (io.rc_err r).

End WithXml.

(** ** package database/sql, as package transactions uses it *)

Module sql.

(** [sql.ErrNoRows] *)
Definition ErrNoRows : error := errors_New "sql: no rows in result set".

(** An argument of a statement. *)
Inductive value : Type :=
| int (n : Z)
| text (s : string)
| time (t : Z).

Section WithRow.

(** A row of a result, which the code only hands to [Scan]. *)
Variable Row : Type.

(** A prepared statement [sql.Stmt], by what its methods return on given
    arguments: [Query] the rows selected or an error, [Exec] an error. *)
Record Stmt : Type := mkStmt {
  Query : list value → list Row + error;
  Exec : list value → option error
}.

(** A database [sql.DB], by what [Exec] and [Prepare] return on a given
    text. *)
Record DB : Type := mkDB {
  DB_Exec : string → option error;
  Prepare : string → Stmt + error
}.

(** [sql.Rows]: the rows still to come, and whether it is closed.  An error
    that ends the rows early is read with [Err], which package transactions
    never calls: to this code it is the end of the rows. *)
Record Rows : Type := mkRows {
  pending : list Row;
  closed : bool
}.

(** [Next]: the row to scan when it returns true; [None] is false, at the
    end of the rows, which closes them, and after [Close]. *)
Definition Next (rs : Rows) : option Row * Rows :=
  if closed rs then (None, rs)
  else match pending rs with
       | [] => (None, {| pending := []; closed := true |})
       | r :: rest => (Some r, {| pending := rest; closed := false |})
       end.

Definition Close (rs : Rows) : Rows :=
  {| pending := pending rs; closed := true |}.

(** [stmt.QueryRow(args...).Scan(dest...)]: the error of the query comes
    out of [Scan]; without a row [Scan] returns [ErrNoRows] and leaves the
    destinations as they are; otherwise it scans the first row. *)
Definition QueryRow_Scan {A} (scan : Row → A * option error) (dest : A)
    (stmt : Stmt) (args : list value) : A * option error :=
  match Query stmt args with
  | inr e => (dest, Some e)
  | inl [] => (dest, Some ErrNoRows)
  | inl (r :: _) => scan r
  end.

End WithRow.

Arguments mkStmt {Row}.
Arguments Query {Row}.
Arguments Exec {Row}.
Arguments mkDB {Row}.
Arguments DB_Exec {Row}.
Arguments Prepare {Row}.
Arguments mkRows {Row}.
Arguments pending {Row}.
Arguments closed {Row}.
Arguments Next {Row}.
Arguments Close {Row}.
Arguments QueryRow_Scan {Row A}.

End sql.

(** ** package transactions: the events of the license statuses *)

Module transactions.

Definition NotFound : error := errors_New "Event not found".

(** A [time.Time] is kept as a number; the zero time is 0. *)
Record Device : Type := mkDevice {
  Device_DeviceId : string;
  Device_DeviceName : string;
  Device_Timestamp : Z
}.

Record Event : Type := mkEvent {
  Event_Id : Z;
  Event_DeviceName : string;
  Event_Timestamp : Z;
  Event_Type : string;
  Event_DeviceId : string;
  Event_LicenseStatusFk : Z
}.

(** [Event{}] and [Device{}] *)
Definition zero_Event : Event := mkEvent 0 "" 0 "" "" 0.
Definition zero_Device : Device := mkDevice "" "" 0.

Definition tableDef : string :=
  "CREATE TABLE IF NOT EXISTS event (" +:+ nl +:+
  tab +:+ "id INTEGER PRIMARY KEY AUTOINCREMENT," +:+ nl +:+
  tab +:+ "device_name varchar(255) DEFAULT NULL," +:+ nl +:+
  tab +:+ "timestamp datetime NOT NULL," +:+ nl +:+
  tab +:+ "type int NOT NULL," +:+ nl +:+
  tab +:+ "device_id varchar(255) DEFAULT NULL," +:+ nl +:+
  tab +:+ "license_status_fk int NOT NULL," +:+ nl +:+
  "  " +:+ tab +:+ "FOREIGN KEY(license_status_fk) REFERENCES license_status(id)," +:+ nl +:+
  "  " +:+ tab +:+ "CONSTRAINT license_status_fk_UNIQUE UNIQUE (license_status_fk)" +:+ nl +:+
  ");".

(** The texts of the statements [Open] prepares. *)
Definition get_text : string := "SELECT * FROM event WHERE id = ? LIMIT 1".

Definition getbylicensestatusid_text : string :=
  "SELECT * FROM event WHERE license_status_fk = ?".

Definition checkdevicestatus_text : string :=
  "SELECT type FROM event WHERE license_status_fk = ?" +:+ nl +:+
  tab +:+ "AND device_id = ? ORDER BY timestamp DESC LIMIT 1".

Definition listregistereddevices_text : string :=
  "SELECT device_id," +:+ nl +:+
  tab +:+ "device_name, timestamp  FROM event  WHERE license_status_fk = ? AND type = 1".

Definition add_text : string :=
  "INSERT INTO event (device_name, timestamp, type, device_id, license_status_fk) VALUES (?, ?, ?, ?, ?)".

Section WithDatabase.

Variable Row : Type.

(** [Scan] of a row into the destinations each function passes, all of them
    zero before: what they hold after, and the error.  [Get] scans the type
    of the event into an integer, the iterator of [GetByLicenseStatusId]
    into the field [Type]. *)
Variable Scan_Event_int : Row → (Event * Z) * option error.
Variable Scan_Event : Row → Event * option error.
Variable Scan_Device : Row → Device * option error.
Variable Scan_int : Row → Z * option error.

(** [status.Types[typeInt]] of package status, which is not among the
    sources; [None] where the indexing panics. *)
Variable status_Types : Z → option string.

(** The statements are pointers: [None] is nil.  [db] is taken not to be
    nil. *)
Record dbTransactions : Type := mkdbTransactions {
  db : sql.DB Row;
  get : option (sql.Stmt Row);
  add : option (sql.Stmt Row);
  getbylicensestatusid : option (sql.Stmt Row);
  checkdevicestatus : option (sql.Stmt Row);
  listregistereddevices : option (sql.Stmt Row)
}.

(** [Get] returns the event if it exists in table 'event'.  The error of
    [Query] is not looked at before [records.Next()]: on an error [records]
    is nil and the call panics. *)
Definition Get (i : dbTransactions) (id : Z) : option (Event * option error) :=
  stmt ← get i;
  match sql.Query stmt [sql.int id] with
  | inr _ => None
  | inl rows =>
      match sql.Next (sql.mkRows rows false) with
      | (Some r, _) =>
          let '((e, typeInt), err) := Scan_Event_int r in
          match err with
          | None =>
              ty ← status_Types typeInt;
              Some (mkEvent (Event_Id e) (Event_DeviceName e) (Event_Timestamp e) ty
                            (Event_DeviceId e) (Event_LicenseStatusFk e), None)
          | Some _ => Some (e, err)
          end
      | (None, _) => Some (zero_Event, Some NotFound)
      end
  end.

(** [Add] adds an event in the database. *)
Definition Add (i : dbTransactions) (e : Event) (typeEvent : Z) : option error :=
  match sql.Prepare (db i) add_text with
  | inr err => Some err
  | inl add =>
      sql.Exec add [sql.text (Event_DeviceName e); sql.time (Event_Timestamp e);
                    sql.int typeEvent; sql.text (Event_DeviceId e);
                    sql.int (Event_LicenseStatusFk e)]
  end.

(** The function values [GetByLicenseStatusId] and [ListRegisteredDevices]
    return: the one that returns the error of the query, and the one that
    reads the rows, with the rows it has captured. *)
Inductive iterator : Type :=
| failed (err : error)
| reading (rows : sql.Rows Row).

Definition query_iterator (stmt : option (sql.Stmt Row)) (args : list sql.value)
  : option iterator :=
  stmt ← stmt;
  Some match sql.Query stmt args with
       | inr err => failed err
       | inl rows => reading (sql.mkRows rows false)
       end.

(** A call of the function value: its results, and the function value with
    the rows as the call leaves them. *)
Definition call_iterator {A} (zero : A) (scan : Row → A * option error)
    (it : iterator) : (A * option error) * iterator :=
  match it with
  | failed err => ((zero, Some err), it)
  | reading rows =>
      match sql.Next rows with
      | (Some r, rows') => (scan r, reading rows')
      | (None, rows') => ((zero, Some NotFound), reading (sql.Close rows'))
      end
  end.

(** [GetByLicenseStatusId] returns all events by licensestatus id. *)
Definition GetByLicenseStatusId (i : dbTransactions) (licenseStatusFk : Z)
  : option iterator :=
  query_iterator (getbylicensestatusid i) [sql.int licenseStatusFk].

Definition next_Event : iterator → (Event * option error) * iterator :=
  call_iterator zero_Event Scan_Event.

(** [ListRegisteredDevices] returns all devices which have the status
    'registered' by licensestatus id. *)
Definition ListRegisteredDevices (i : dbTransactions) (licenseStatusFk : Z)
  : option iterator :=
  query_iterator (listregistereddevices i) [sql.int licenseStatusFk].

Definition next_Device : iterator → (Device * option error) * iterator :=
  call_iterator zero_Device Scan_Device.

(** The results of [n] calls in a row of a function value. *)
Fixpoint calls {A} (next : iterator → (A * option error) * iterator) (n : nat)
    (it : iterator) : list (A * option error) :=
  match n with
  | O => []
  | S n' => let '(r, it') := next it in r :: calls next n' it'
  end.

(** [CheckDeviceStatus] gets the current status of a device. *)
Definition CheckDeviceStatus (i : dbTransactions) (licenseStatusFk : Z)
    (deviceId : string) : option (string * option error) :=
  stmt ← checkdevicestatus i;
  let '(typeInt, err) :=
    sql.QueryRow_Scan Scan_int 0%Z stmt [sql.int licenseStatusFk; sql.text deviceId] in
  match err with
  | None => ty ← status_Types typeInt; Some (ty, None)
  | Some e => if decide (e = sql.ErrNoRows) then Some ("", None) else Some ("", err)
  end.

(** The statement a [Prepare] leaves in its variable: nil on an error. *)
Definition prepared (r : sql.Stmt Row + error) : option (sql.Stmt Row) :=
  match r with
  | inl stmt => Some stmt
  | inr _ => None
  end.

(** [Open] defines the scripts of the queries and creates the table 'event'
    if it does not exist.  Of the errors of the four [Prepare], the first and
    the last are looked at. *)
Definition Open (db : sql.DB Row) : option dbTransactions * option error :=
  match sql.DB_Exec db tableDef with
  | Some err => (None, Some err)
  | None =>
      match sql.Prepare db get_text with
      | inr err => (None, Some err)
      | inl get =>
          let getbylicensestatusid := prepared (sql.Prepare db getbylicensestatusid_text) in
          let checkdevicestatus := prepared (sql.Prepare db checkdevicestatus_text) in
          match sql.Prepare db listregistereddevices_text with
          | inr err => (None, Some err)
          | inl listregistereddevices =>
              (Some (mkdbTransactions db (Some get) None getbylicensestatusid
                       checkdevicestatus (Some listregistereddevices)), None)
          end
      end
  end.

End WithDatabase.

Arguments failed {Row}.
Arguments reading {Row}.
Arguments mkdbTransactions {Row}.
Arguments db {Row}.
Arguments get {Row}.
Arguments add {Row}.
Arguments getbylicensestatusid {Row}.
Arguments checkdevicestatus {Row}.
Arguments listregistereddevices {Row}.
Arguments query_iterator {Row}.
Arguments call_iterator {Row A}.
Arguments calls {Row A}.
Arguments prepared {Row}.
Arguments Open {Row}.
Arguments Add {Row}.

End transactions.

(** ** package staticapi: the publications of the frontend (frontend/api/publication.go) *)

Module staticapi.

(** [http.StatusOK] and the like *)
Definition StatusOK : Z := 200.
Definition StatusCreated : Z := 201.
Definition StatusBadRequest : Z := 400.
Definition StatusNotFound : Z := 404.
Definition StatusInternalServerError : Z := 500.

Section WithPublication.

(** [webpublication.Publication], of which these handlers read no field. *)
Variable Publication : Type.

(** What the handlers take from the packages that are not among the
    sources: the text [err.Error()] of an error; [strconv.ParseInt],
    [strconv.Atoi] (the number and the error they return) and
    [strconv.Itoa]; the constant [api.ContentType_JSON]; the error
    [webpublication.ErrNotFound]; and what a [json.Decoder] on a body makes
    of a zero publication, with the error of [Decode]. *)
Class Packages : Type := {
  err_Error : error → string;
  ParseInt : string → Z → Z → Z * option error;
  Atoi : string → Z * option error;
  Itoa : Z → string;
  ContentType_JSON : string;
  ErrNotFound : error;
  json_Decode : list byte → Publication * option error
}.

(** The request, by what the handlers read of it: [r.FormValue(key)],
    [mux.Vars(r)], [r.Header["Content-Type"]] and the body. *)
Record Request : Type := mkRequest {
  FormValue : string → string;
  Vars : gmap string string;
  Header_Content_Type : list string;
  Body : list byte
}.

(** The value handed to [json.Encoder.Encode]. *)
Inductive body : Type :=
| publications (pubs : list Publication)
| publication (pub : Publication).

(** The response writer, by the error [Encode] returns when it encodes a
    value onto it. *)
Record ResponseWriter : Type := mkResponseWriter {
  Encode_error : body → option error
}.

(** [s.PublicationAPI()] by what its methods return.  [List] is the list of
    the publications the function it returns yields before its first
    error, which ends the loop of [GetPublications]. *)
Record IServer : Type := mkIServer {
  List : Z → Z → list Publication;
  Get : Z → Publication + error;
  Add : Publication → option error;
  Delete : Z → option error
}.

(** What a handler does to the response writer and to the server, in
    order: [problem.Error(w, r, problem.Problem{Detail: detail}, status)],
    [w.Header().Set(key, value)], [Encode] on an encoder on [w],
    [w.WriteHeader(status)], and the calls of the methods of
    [s.PublicationAPI()]. *)
Inductive effect : Type :=
| problem_Error (detail : string) (status : Z)
| Header_Set (key value : string)
| Encode (v : body)
| WriteHeader (status : Z)
| call_List (perPage page : Z)
| call_Get (id : Z)
| call_Add (pub : Publication)
| call_Delete (id : Z).

(** The header map of the response after the effects: [Set] replaces the
    value of a key. *)
Definition Header (effects : list effect) : gmap string string :=
  foldl (λ h e, match e with
                | Header_Set key value => <[key := value]> h
                | _ => h
                end) ∅ effects.

Context `{Packages}.

(** A form value that is a number: unset, or the result of [ParseInt] in
    base 10 on 32 bits. *)
Definition form_number (r : Request) (key : string) (unset : Z) : Z + error :=
  if decide (FormValue r key = "") then inl unset
  else match ParseInt (FormValue r key) 10 32 with
       | (_, Some err) => inr err
       | (n, None) => inl n
       end.

Definition Link_next (nextPage : string) : string :=
  "</publications/?page=" +:+ nextPage +:+ ">; rel=" +:+ dq +:+ "next" +:+ dq +:+
  "; title=" +:+ dq +:+ "next" +:+ dq.

Definition Link_previous (previousPage : string) : string :=
  "</publications/?page=" +:+ previousPage +:+ ">; rel=" +:+ dq +:+ "previous" +:+ dq +:+
  "; title=" +:+ dq +:+ "previous" +:+ dq.

(** [GetPublications] returns a list of publications.  The numbers come
    from [ParseInt] on 32 bits, so that no operation on them wraps. *)
Definition GetPublications (w : ResponseWriter) (r : Request) (s : IServer)
  : list effect :=
  match form_number r "page" 1 with
  | inr err => [problem_Error (err_Error err) StatusBadRequest]
  | inl page =>
      match form_number r "per_page" 100 with
      | inr err => [problem_Error (err_Error err) StatusBadRequest]
      | inl perPage =>
          let page := if decide (0 < page)%Z then (page - 1)%Z else page in
          if decide (page < 0)%Z
          then [problem_Error "page must be positive integer" StatusBadRequest]
          else
            let pubs := List s perPage page in
            [call_List perPage page] ++
            (if decide (0 < length pubs)
             then [Header_Set "Link" (Link_next (Itoa (page + 1)))]
             else []) ++
            (if decide (1 < page)%Z
             then [Header_Set "Link" (Link_previous (Itoa (page - 1)))]
             else []) ++
            [Header_Set "Content-Type" ContentType_JSON; Encode (publications pubs)] ++
            match Encode_error w (publications pubs) with
            | Some err => [problem_Error (err_Error err) StatusBadRequest]
            | None => []
            end
      end
  end.

(** [GetPublication] returns a publication from its numeric id, given as
    part of the calling url.  After the problem of an id that is not a
    number there is no return. *)
Definition GetPublication (w : ResponseWriter) (r : Request) (s : IServer)
  : list effect :=
  let '(id, err) := Atoi (default "" (Vars r !! "id")) in
  match err with
  | Some _ => [problem_Error "The publication id must be an integer" StatusBadRequest]
  | None => []
  end ++
  [call_Get id] ++
  match Get s id with
  | inl pub =>
      [Encode (publication pub)] ++
      match Encode_error w (publication pub) with
      | None => [Header_Set "Content-Type" ContentType_JSON]
      | Some err => [problem_Error (err_Error err) StatusInternalServerError]
      end
  | inr err =>
      if decide (err = ErrNotFound)
      then [problem_Error (err_Error err) StatusNotFound]
      else [problem_Error (err_Error err) StatusInternalServerError]
  end.

(** [DecodeJSONPublication] transforms a json string to a publication.
    The decoder stays nil unless the first content type of the request is
    the one of JSON, and [Decode] on a nil decoder panics: [None]. *)
Definition DecodeJSONPublication (r : Request) : option (Publication * option error) :=
  match Header_Content_Type r with
  | ctype0 :: _ =>
      if decide (ctype0 = ContentType_JSON) then Some (json_Decode (Body r)) else None
  | [] => None
  end.

(** [CreatePublication] creates a publication in the database. *)
Definition CreatePublication (w : ResponseWriter) (r : Request) (s : IServer)
  : option (list effect) :=
  '(pub, err) ← DecodeJSONPublication r;
  match err with
  | Some err =>
      Some [problem_Error ("incorrect JSON Publication " +:+ err_Error err) StatusBadRequest]
  | None =>
      Some ([call_Add pub] ++
            match Add s pub with
            | Some err => [problem_Error (err_Error err) StatusBadRequest]
            | None => [WriteHeader StatusCreated]
            end)
  end.

(** [DeletePublication] removes a publication in the database. *)
Definition DeletePublication (w : ResponseWriter) (r : Request) (s : IServer)
  : list effect :=
  match ParseInt (default "" (Vars r !! "id")) 10 64 with
  | (_, Some err) => [problem_Error (err_Error err) StatusBadRequest]
  | (id, None) =>
      [call_Delete id] ++
      match Delete s id with
      | Some err => [problem_Error (err_Error err) StatusBadRequest]
      | None => [WriteHeader StatusOK]
      end
  end.

End WithPublication.

Arguments problem_Error {Publication}.
Arguments Header_Set {Publication}.
Arguments Encode {Publication}.
Arguments WriteHeader {Publication}.
Arguments call_List {Publication}.
Arguments call_Get {Publication}.
Arguments call_Add {Publication}.
Arguments call_Delete {Publication}.
Arguments publications {Publication}.
Arguments publication {Publication}.
Arguments Header {Publication}.
Arguments mkResponseWriter {Publication}.
Arguments Encode_error {Publication}.
Arguments mkIServer {Publication}.
Arguments List {Publication}.
Arguments Get {Publication}.
Arguments Add {Publication}.
Arguments Delete {Publication}.
Arguments form_number {Publication _}.
Arguments GetPublications {Publication _}.
Arguments GetPublication {Publication _}.
Arguments DecodeJSONPublication {Publication _}.
Arguments CreatePublication {Publication _}.
Arguments DeletePublication {Publication _}.

End staticapi.

(** ** Further cases *)
Module cases.

(** The resource of [a.html] in the source of the scenario. *)
Definition a_html : rwpResource :=
  {| file := Some (scenario.source_file "a.html" (scenario.content "<p>a</p>"));
     isEncrypted := false; contentType := "text/html" |}.

Definition a_html_stream : io.ReadCloser :=
  io.mkReadCloser (scenario.content "<p>a</p>") None None.

(** A source whose manifest names an ancillary resource the archive does
    not have. *)
Definition orphan_reader : RWPPReader :=
  {| RWPPReader_manifest :=
       {| rwpm.Publication_Metadata := {| rwpm.Metadata_Title := "A book" |};
          rwpm.Publication_ReadingOrder :=
            [ rwpm.mkLink "a.html" "text/html" None;
              rwpm.mkLink "missing.html" "text/html" None ];
          rwpm.Publication_Resources :=
            [ rwpm.mkLink "styles.css" "text/css" None;
              rwpm.mkLink "font.woff" "font/woff" None ] |};
     RWPPReader_zipArchive := RWPPReader_zipArchive scenario.reader |}.

(** An archive with two entries of the name of the manifest: the first one
    does not open, the second one holds a manifest. *)
Definition unreadable : error := lib_error 11.

Definition locked_manifest : zip.File :=
  {| zip.header := {| zip.Name := "manifest.json"; zip.Method := zip.Deflate;
                      zip.UncompressedSize64 := 0 |};
     zip.Open := inr unreadable |}.

Definition shadowed_archive : zip.Reader :=
  {| zip.Files :=
       [ scenario.source_file "a.html" (scenario.content "<p>a</p>");
         locked_manifest;
         scenario.source_file "manifest.json"
           (match sample_json.encode scenario.destination with
            | inl text => text
            | inr _ => []
            end) ] |}.

(** An archive that holds the manifest of the destination of the scenario. *)
Definition manifest_file : zip.File :=
  scenario.source_file "manifest.json"
    (match sample_json.encode scenario.destination with
     | inl text => text
     | inr _ => []
     end).

Definition destination_archive : zip.Reader :=
  {| zip.Files :=
       [ scenario.source_file "styles.css" (scenario.content "p {}");
         scenario.source_file "a.html" (scenario.content "(a.html, encrypted)");
         manifest_file;
         scenario.source_file "b.html" (scenario.content "<p>b</p>") ] |}.

(** A resource whose entry declares a size beyond the positive range of
    [int64]. *)
Definition huge : rwpResource :=
  {| file := Some {| zip.header := {| zip.Name := "big.bin"; zip.Method := zip.Store;
                                      zip.UncompressedSize64 := 2 ^ 63 + 5 |};
                     zip.Open := inl (io.mkReadCloser [] None None) |};
     isEncrypted := false; contentType := "application/octet-stream" |}.

(** A codec that cannot marshal. *)
Definition marshal_error : error := lib_error 5.

Definition mute_codec : JsonCodec :=
  {| json_Encode := λ _, inr marshal_error; json_Decode := λ _, inr marshal_error |}.

(** The input of [BuildRWPPFromPDF]: files that work. *)
Definition pdf : io.ReadCloser := io.mkReadCloser (scenario.content "%PDF-1.7") None None.

Definition pdf_files : pdf_env :=
  {| os_Create := inl []; os_Open := inl pdf; Template_Parse := None |}.

(** An encoder of the XML manifest for the examples: one line for each
    record, with its URI. *)
Definition lines_Encode (prefix indent : string) (m : xmlenc.Manifest)
  : list byte + error :=
  inl (String.list_byte_of_string
         (foldr (λ d acc, indent +:+ xmlenc.reference d +:+ nl +:+ acc) ""
                (xmlenc.Manifest_Data m))).

Definition failing_once : sink :=
  {| sink_bytes := []; sink_outcomes := [Some scenario.output_error] |}.

(** A database for the examples: a row is a number. *)
Definition Scan_int (r : Z) : Z * option error := (r, None).

Definition Scan_Event (r : Z) : transactions.Event * option error :=
  (transactions.mkEvent r "reader" 0 "1" "device" 7, None).

Definition Scan_Event_int (r : Z) : (transactions.Event * Z) * option error :=
  if decide (r < 0)%Z
  then ((transactions.mkEvent r "" 0 "" "" 0, 0%Z), Some scenario.output_error)
  else ((transactions.mkEvent r "reader" 0 "" "device" 7, 1%Z), None).

Definition Scan_Device (r : Z) : transactions.Device * option error :=
  (transactions.mkDevice "device" "reader" r, None).

Definition status_Types (n : Z) : option string :=
  ["zero"; "register"; "renew"; "return"] !! Z.to_nat n.

Definition selecting (rows : list Z) : sql.Stmt Z :=
  sql.mkStmt (λ _, inl rows) (λ _, None).

Definition refusing : sql.Stmt Z :=
  sql.mkStmt (λ _, inr scenario.output_error) (λ _, Some scenario.output_error).

Definition events (stmt : sql.Stmt Z) : transactions.dbTransactions Z :=
  transactions.mkdbTransactions (sql.mkDB (λ _, None) (λ _, inl stmt))
    (Some stmt) None (Some stmt) (Some stmt) (Some stmt).

(** A database that prepares every statement but the one of
    [GetByLicenseStatusId]. *)
Definition half_prepared : sql.DB Z :=
  sql.mkDB (λ _, None)
    (λ text, if decide (text = transactions.getbylicensestatusid_text)
             then inr scenario.output_error
             else inl (selecting [1%Z; 2%Z])).

(** Packages for the examples of the handlers: a publication is its title,
    and the numbers are the ones the examples use. *)
Definition numbers : list (string * Z) :=
  [("0", 0%Z); ("1", 1%Z); ("2", 2%Z); ("3", 3%Z); ("4", 4%Z); ("-2", (-2)%Z)].

Definition parse (text : string) : Z * option error :=
  match list_find (λ p, p.1 = text) numbers with
  | Some (_, (_, n)) => (n, None)
  | None => (0%Z, Some (lib_error 7))
  end.

Definition print (n : Z) : string :=
  match list_find (λ p, p.2 = n) numbers with
  | Some (_, (text, _)) => text
  | None => "?"
  end.

Definition packages : staticapi.Packages string :=
  {| staticapi.err_Error := λ e, default "error" (Error e);
     staticapi.ParseInt := λ text _ _, parse text;
     staticapi.Atoi := parse;
     staticapi.Itoa := print;
     staticapi.ContentType_JSON := "application/json";
     staticapi.ErrNotFound := errors_New "not found";
     staticapi.json_Decode := λ data, (String.string_of_list_byte data, None) |}.

Definition page_request (page : string) : staticapi.Request :=
  staticapi.mkRequest (λ key, if decide (key = "page") then page else "")
    (<["id" := page]> ∅) ["text/plain"] [].

Definition quiet : staticapi.ResponseWriter string :=
  staticapi.mkResponseWriter (λ _, None).

Definition shelves : staticapi.IServer string :=
  staticapi.mkIServer (λ _ _, ["Emma"; "Persuasion"])
    (λ id, if decide (id = 0%Z) then inl "Emma" else inr (errors_New "not found"))
    (λ _, None) (λ _, None).

End cases.



Lemma addresses_cons l ls :
  addresses (l :: ls) =
  match rwpm.Link_Properties l with Some a => a :: addresses ls | None => addresses ls end.
Proof. reflexivity. Qed.

Lemma addresses_app ls1 ls2 : addresses (ls1 ++ ls2) = addresses ls1 ++ addresses ls2.
Proof. apply omap_app. Qed.

Lemma elem_of_addresses a ls :
  a ∈ addresses ls ↔ ∃ l, l ∈ ls ∧ rwpm.Link_Properties l = Some a.
Proof. apply list_elem_of_omap. Qed.

Lemma deref_insert_eq (h : Heap) a v : deref (<[a := v]> h) a = v.
Proof. unfold deref. by rewrite lookup_insert_eq. Qed.

Lemma deref_insert_ne (h : Heap) a b v : a ≠ b → deref (<[a := v]> h) b = deref h b.
Proof. intros. unfold deref. by rewrite lookup_insert_ne. Qed.

(** A link sees nothing of an assignment to a cell that is not its own. *)
Lemma view_Link_insert_ne (h : Heap) a v l :
  rwpm.Link_Properties l ≠ Some a → view_Link (<[a := v]> h) l = view_Link h l.
Proof.
  intros Hne. unfold view_Link. f_equal.
  destruct (rwpm.Link_Properties l) as [b|]; [|done]. simpl. f_equal.
  apply deref_insert_ne. congruence.
Qed.

Lemma view_Links_insert_ne (h : Heap) a v ls :
  a ∉ addresses ls → view_Link (<[a := v]> h) <$> ls = view_Link h <$> ls.
Proof.
  intros Hni. apply list_fmap_ext. intros i l Hl.
  apply view_Link_insert_ne. intros Heq. apply Hni.
  apply elem_of_addresses. exists l. split; [|done].
  by eapply list_elem_of_lookup_2.
Qed.

(** Links whose cells two stores agree on look the same in both. *)
Lemma view_Links_agree (h h' : Heap) ls :
  (∀ a, a ∈ addresses ls → h' !! a = h !! a) →
  view_Link h' <$> ls = view_Link h <$> ls.
Proof.
  intros Hag. apply list_fmap_ext. intros i l Hl.
  unfold view_Link. f_equal.
  destruct (rwpm.Link_Properties l) as [b|] eqn:Hb; [|done]. simpl. f_equal.
  unfold deref. rewrite Hag; [done|].
  apply elem_of_addresses. exists l. split; [|done]. by eapply list_elem_of_lookup_2.
Qed.

Lemma fresh_not_alloc (h : Heap) : h !! fresh (dom h) = None.
Proof. apply not_elem_of_dom, is_fresh. Qed.

Lemma alloc_not_fresh (h : Heap) a : is_Some (h !! a) → fresh (dom h) ≠ a.
Proof. intros [v Hv] <-. rewrite fresh_not_alloc in Hv. done. Qed.

(** *** The loop of [MarkAsEncrypted] *)

Lemma MarkAsEncrypted_loop_no_match h ro path enc :
  (∀ l, l ∈ ro → rwpm.Link_Href l ≠ path) →
  MarkAsEncrypted_loop h ro path enc = (h, ro).
Proof.
  induction ro as [|resource rest IH]; intros Hno; [done|]. simpl.
  destruct (decide (path = rwpm.Link_Href resource)) as [->|_].
  - exfalso. eapply Hno; [left|done].
  - rewrite IH; [done|]. intros l Hl. apply Hno. by right.
Qed.

(** The loop assigns to one cell at most: a new one, or the cell of a link
    of the list. *)
Lemma MarkAsEncrypted_loop_frame h ro path enc h' ro' a :
  MarkAsEncrypted_loop h ro path enc = (h', ro') →
  is_Some (h !! a) → a ∉ addresses ro → h' !! a = h !! a.
Proof.
  revert h' ro'. induction ro as [|resource rest IH]; intros h' ro' Hloop Ha Hni.
  { simpl in Hloop. by simplify_eq. }
  simpl in Hloop. rewrite addresses_cons in Hni.
  destruct (decide (path = rwpm.Link_Href resource)) as [->|_].
  - destruct (rwpm.Link_Properties resource) as [b|] eqn:Hb; simplify_eq.
    + rewrite lookup_insert_ne; [done|]. intros ->. apply Hni. by left.
    + assert (fresh (dom h) ≠ a) as Hne by by apply alloc_not_fresh.
      by rewrite !lookup_insert_ne.
  - destruct (MarkAsEncrypted_loop h rest path enc) as [h1 rest1] eqn:Hrec.
    simplify_eq. eapply IH; [done..|].
    destruct (rwpm.Link_Properties resource); [|done].
    intros ?. apply Hni. by right.
Qed.

Lemma MarkAsEncrypted_loop_alloc h ro path enc h' ro' a :
  MarkAsEncrypted_loop h ro path enc = (h', ro') →
  is_Some (h !! a) → is_Some (h' !! a).
Proof.
  revert h' ro'. induction ro as [|resource rest IH]; intros h' ro' Hloop Ha.
  { simpl in Hloop. by simplify_eq. }
  simpl in Hloop.
  destruct (decide (path = rwpm.Link_Href resource)) as [->|_].
  - destruct (rwpm.Link_Properties resource) as [b|] eqn:Hb; simplify_eq;
      rewrite ?lookup_insert_is_Some'; auto.
  - destruct (MarkAsEncrypted_loop h rest path enc) as [h1 rest1] eqn:Hrec.
    simplify_eq. by eapply IH.
Qed.

(** The addresses of the links after the loop: the ones before, and
    possibly one that was not allocated and now is. *)
Lemma MarkAsEncrypted_loop_addresses h ro path enc h' ro' a :
  MarkAsEncrypted_loop h ro path enc = (h', ro') →
  a ∈ addresses ro' → a ∈ addresses ro ∨ (h !! a = None ∧ is_Some (h' !! a)).
Proof.
  revert h' ro'. induction ro as [|resource rest IH]; intros h' ro' Hloop Ha.
  { simpl in Hloop. simplify_eq. by left. }
  simpl in Hloop. rewrite addresses_cons.
  destruct (decide (path = rwpm.Link_Href resource)) as [->|_].
  - destruct (rwpm.Link_Properties resource) as [b|] eqn:Hb; simplify_eq.
    + left. rewrite addresses_cons in Ha. simpl in Ha. done.
    + rewrite addresses_cons in Ha. simpl in Ha.
      apply elem_of_cons in Ha as [->|Ha]; [|by left].
      right. split; [apply fresh_not_alloc|]. rewrite lookup_insert_eq. eauto.
  - destruct (MarkAsEncrypted_loop h rest path enc) as [h1 rest1] eqn:Hrec.
    simplify_eq. rewrite addresses_cons in Ha.
    destruct (rwpm.Link_Properties resource) as [b|].
    + apply elem_of_cons in Ha as [->|Ha]; [left; by left|].
      destruct (IH _ _ eq_refl Ha); [left; by right|by right].
    + by eapply IH.
Qed.

Lemma MarkAsEncrypted_loop_NoDup h ro path enc h' ro' :
  (∀ a, a ∈ addresses ro → is_Some (h !! a)) →
  NoDup (addresses ro) →
  MarkAsEncrypted_loop h ro path enc = (h', ro') →
  NoDup (addresses ro').
Proof.
  revert h' ro'. induction ro as [|resource rest IH]; intros h' ro' Hal Hnd Hloop.
  { simpl in Hloop. by simplify_eq. }
  simpl in Hloop. rewrite addresses_cons in Hal, Hnd.
  destruct (decide (path = rwpm.Link_Href resource)) as [->|_].
  - destruct (rwpm.Link_Properties resource) as [b|] eqn:Hb; simplify_eq;
      rewrite addresses_cons; simpl; [done|].
    apply NoDup_cons. split; [|done].
    intros Hin. apply Hal in Hin. by apply alloc_not_fresh in Hin.
  - destruct (MarkAsEncrypted_loop h rest path enc) as [h1 rest1] eqn:Hrec.
    simplify_eq. rewrite addresses_cons.
    destruct (rwpm.Link_Properties resource) as [b|] eqn:Hb.
    + apply NoDup_cons in Hnd as [Hb' Hnd]. apply NoDup_cons. split.
      * intros Hin. eapply MarkAsEncrypted_loop_addresses in Hin as [Hin|[Hin _]]; [..|done].
        { done. }
        { destruct (Hal b) as [? Hsome]; [by left|]. congruence. }
      * eapply IH; [|done|reflexivity]. intros a Ha. apply Hal. by right.
    + by eapply IH.
Qed.

(** The loop, seen on the document, is [mark_first]. *)
Lemma MarkAsEncrypted_loop_view h ro path enc h' ro' :
  (∀ a, a ∈ addresses ro → is_Some (h !! a)) →
  NoDup (addresses ro) →
  MarkAsEncrypted_loop h ro path enc = (h', ro') →
  view_Link h' <$> ro' = mark_first path enc (view_Link h <$> ro).
Proof.
  revert h' ro'. induction ro as [|resource rest IH]; intros h' ro' Hal Hnd Hloop.
  { simpl in Hloop. by simplify_eq. }
  simpl in Hloop. rewrite addresses_cons in Hal, Hnd. simpl.
  destruct (decide (path = rwpm.Link_Href resource)) as [->|Hne].
  - destruct (rwpm.Link_Properties resource) as [b|] eqn:Hb; simplify_eq; simpl.
    + apply NoDup_cons in Hnd as [Hb' Hnd]. f_equal.
      * unfold view_Link. simpl. rewrite ?Hb. simpl. by rewrite deref_insert_eq.
      * by apply view_Links_insert_ne.
    + f_equal.
      * unfold view_Link. simpl. rewrite ?Hb. simpl. by rewrite deref_insert_eq.
      * assert (fresh (dom h) ∉ addresses rest) as Hfr.
        { intros Hin. apply Hal in Hin. by apply alloc_not_fresh in Hin. }
        by rewrite !view_Links_insert_ne.
  - destruct (MarkAsEncrypted_loop h rest path enc) as [h1 rest1] eqn:Hrec.
    simplify_eq. simpl. f_equal.
    + unfold view_Link. f_equal.
      destruct (rwpm.Link_Properties resource) as [b|] eqn:Hb; [|done]. simpl. f_equal.
      apply NoDup_cons in Hnd as [Hb' Hnd]. unfold deref.
      erewrite MarkAsEncrypted_loop_frame; [done..| |done]. apply Hal. by left.
    + eapply IH; [| |reflexivity].
      * intros a Ha. apply Hal. destruct (rwpm.Link_Properties resource); [by right|done].
      * destruct (rwpm.Link_Properties resource); [|done]. by apply NoDup_cons in Hnd as [_ ?].
Qed.

(** *** [mark_first] *)

Lemma mark_first_list_find path enc ls :
  mark_first path enc ls =
  match list_find (λ l, path = wire.href l) ls with
  | Some (i, l) => <[i := marked enc l]> ls
  | None => ls
  end.
Proof.
  induction ls as [|l rest IH]; [done|]. simpl.
  destruct (decide (path = wire.href l)) as [Heq|Hne]; [done|].
  rewrite IH. destruct (list_find _ rest) as [[i l']|]; done.
Qed.

Lemma mark_first_href path enc ls :
  wire.href <$> mark_first path enc ls = wire.href <$> ls.
Proof.
  induction ls as [|l rest IH]; [done|]. simpl.
  destruct (decide (path = wire.href l)); simpl; by f_equal.
Qed.

Lemma mark_first_length path enc ls : length (mark_first path enc ls) = length ls.
Proof.
  rewrite <-(length_fmap wire.href), mark_first_href. apply length_fmap.
Qed.

(** *** The writer under [NewFile] and [MarkAsEncrypted] *)

Lemma NewFile_ReadingOrder writer path contentType storageMethod :
  ReadingOrder (NewFile writer path contentType storageMethod).1 =
  ReadingOrder writer ++
    [ {| rwpm.Link_Href := path; rwpm.Link_Type := contentType;
         rwpm.Link_Properties := None |} ].
Proof.
  unfold NewFile. destruct (zip.CreateHeader _ _) as [zw [w err]]. done.
Qed.

Lemma NewFile_Resources writer path contentType storageMethod :
  rwpm.Publication_Resources
    (RWPPWriter_manifest (NewFile writer path contentType storageMethod).1) =
  rwpm.Publication_Resources (RWPPWriter_manifest writer).
Proof.
  unfold NewFile. destruct (zip.CreateHeader _ _) as [zw [w err]]. done.
Qed.

Lemma NewFile_inv h writer path contentType storageMethod :
  writer_inv h writer →
  writer_inv h (NewFile writer path contentType storageMethod).1.
Proof.
  intros [Hal Hnd Hap].
  assert (addresses (ReadingOrder (NewFile writer path contentType storageMethod).1)
          = addresses (ReadingOrder writer)) as Hadd.
  { rewrite NewFile_ReadingOrder, addresses_app. simpl. apply app_nil_r. }
  split; rewrite ?Hadd, ?NewFile_Resources; done.
Qed.

Lemma MarkAsEncrypted_inv h writer path originalSize profile algorithm h' writer' :
  writer_inv h writer →
  MarkAsEncrypted h writer path originalSize profile algorithm = (h', writer') →
  writer_inv h' writer'.
Proof.
  intros [Hal Hnd Hap]. unfold MarkAsEncrypted.
  destruct (MarkAsEncrypted_loop _ _ _ _) as [h1 ro1] eqn:Hloop.
  intros ?; simplify_eq. unfold ReadingOrder in *.
  split; simpl.
  - intros a [Ha|Ha].
    + eapply MarkAsEncrypted_loop_addresses in Ha as [Ha|[_ Ha]]; [..|done]; [|done].
      eapply MarkAsEncrypted_loop_alloc; [done|]. auto.
    + eapply MarkAsEncrypted_loop_alloc; [done|]. auto.
  - eapply MarkAsEncrypted_loop_NoDup; [|done..]. auto.
  - intros a Ha Hres.
    eapply MarkAsEncrypted_loop_addresses in Ha as [Ha|[Ha _]]; [..|done].
    + by eapply Hap.
    + destruct (Hal a) as [? Hsome]; [by right|]. congruence.
Qed.

Lemma MarkAsEncrypted_view h writer path originalSize profile algorithm h' writer' :
  writer_inv h writer →
  MarkAsEncrypted h writer path originalSize profile algorithm = (h', writer') →
  RWPPWriter_zipWriter writer' = RWPPWriter_zipWriter writer ∧
  view_Publication h' (RWPPWriter_manifest writer') =
  {| wire.title := wire.title (view_Publication h (RWPPWriter_manifest writer));
     wire.readingOrder :=
       mark_first path
         {| rwpm.Encrypted_Scheme := lcp_scheme;
            rwpm.Encrypted_Profile := license.String profile;
            rwpm.Encrypted_Algorithm := algorithm |}
         (wire.readingOrder (view_Publication h (RWPPWriter_manifest writer)));
     wire.resources := wire.resources (view_Publication h (RWPPWriter_manifest writer)) |}.
Proof.
  intros [Hal Hnd Hap]. unfold MarkAsEncrypted.
  destruct (MarkAsEncrypted_loop _ _ _ _) as [h1 ro1] eqn:Hloop.
  intros ?; simplify_eq. split; [done|]. unfold ReadingOrder in *.
  unfold view_Publication. simpl. f_equal.
  - eapply MarkAsEncrypted_loop_view; [|done..]. auto.
  - apply view_Links_agree. intros a Ha.
    eapply MarkAsEncrypted_loop_frame; [done| |].
    + apply Hal. by right.
    + intros Hro. by eapply Hap.
Qed.

(** C3. [MarkAsEncrypted(path, originalSize, profile, algorithm)] scans the
    working reading order from its first link and changes the first link
    whose href is [path], and only this one: the link gets the encryption
    record of the fixed scheme [http://readium.org/2014/01/lcp], of the
    given profile and of the given algorithm, and every other link, the
    ancillary resources, the title and the archive stay as they are.  When
    no link has the href [path], the call changes nothing: the store and
    the writer are the ones before the call. *)
Theorem MarkAsEncrypted_first_match h writer path originalSize profile algorithm h' writer' :
  writer_inv h writer →
  MarkAsEncrypted h writer path originalSize profile algorithm = (h', writer') →
  let encrypted :=
    {| rwpm.Encrypted_Scheme := "http://readium.org/2014/01/lcp";
       rwpm.Encrypted_Profile := license.String profile;
       rwpm.Encrypted_Algorithm := algorithm |} in
  let before := view_Publication h (RWPPWriter_manifest writer) in
  let after := view_Publication h' (RWPPWriter_manifest writer') in
  RWPPWriter_zipWriter writer' = RWPPWriter_zipWriter writer ∧
  wire.title after = wire.title before ∧
  wire.resources after = wire.resources before ∧
  ((∀ l, l ∈ wire.readingOrder before → wire.href l ≠ path) →
   h' = h ∧ writer' = writer) ∧
  (∀ i l,
     wire.readingOrder before !! i = Some l → wire.href l = path →
     (∀ j l', j < i → wire.readingOrder before !! j = Some l' → wire.href l' ≠ path) →
     wire.readingOrder after = <[i := marked encrypted l]> (wire.readingOrder before) ∧
     wire.href (marked encrypted l) = wire.href l ∧
     wire.type (marked encrypted l) = wire.type l ∧
     wire.encrypted (marked encrypted l) = Some encrypted).
Proof.
  intros Hinv Hm. cbv zeta.
  destruct (MarkAsEncrypted_view _ _ _ _ _ _ _ _ Hinv Hm) as [Hzw Hview].
  rewrite Hview. simpl. split_and!; [done..| |].
  - intros Hno. revert Hm. unfold MarkAsEncrypted.
    rewrite MarkAsEncrypted_loop_no_match.
    + intros ?; simplify_eq. split; [done|].
      destruct writer as [[md ro rs] zw]. done.
    + intros l Hl Heq. eapply (Hno (view_Link h l)); [|done].
      apply list_elem_of_fmap. by exists l.
  - intros i l Hi Hp Hfirst. split; [|done].
    rewrite mark_first_list_find.
    assert (list_find (λ l0, path = wire.href l0)
              (view_Link h <$> rwpm.Publication_ReadingOrder (RWPPWriter_manifest writer))
            = Some (i, l)) as ->; [|done].
    apply list_find_Some. split_and!; [done..|].
    intros j y Hj Hlt Heq. by eapply Hfirst.
Qed.

(** *** The archive under the calls *)

Lemma CreateHeader_names zw fh zw' w :
  zip.CreateHeader zw fh = (zw', (w, None)) →
  entry_names zw' = entry_names zw ++ [zip.Name fh] ∧ w = Some (length (zip.dir zw)).
Proof.
  unfold zip.CreateHeader, entry_names.
  destruct (zip.next_outcome zw); [|destruct (zip.compressor _)];
    intros ?; simplify_eq. simpl.
  by rewrite fmap_app.
Qed.

Lemma CreateHeader_error zw fh zw' w e :
  zip.CreateHeader zw fh = (zw', (w, Some e)) →
  zip.dir zw' = zip.dir zw ∧ zip.closed zw' = zip.closed zw ∧ w = None ∧
  zip.log zw' = zip.log zw ++ [zip.call_CreateHeader (zip.Name fh) (zip.Method fh)].
Proof.
  unfold zip.CreateHeader.
  destruct (zip.next_outcome zw); [|destruct (zip.compressor _)]; intros ?; by simplify_eq.
Qed.

Lemma zip_Write_names i data zw : entry_names (zip.Write i data zw).1 = entry_names zw.
Proof.
  unfold zip.Write, entry_names.
  destruct (bool_decide _ && _); [|done].
  destruct (zip.next_outcome zw); [done|]. simpl.
  apply list_eq. intros j. rewrite !list_lookup_fmap.
  destruct (decide (i = j)) as [->|Hne].
  - rewrite list_lookup_alter_eq. by destruct (zip.dir zw !! j).
  - by rewrite list_lookup_alter_ne.
Qed.

Lemma entry_stream_Write wc i data writer :
  wc = NopWriteCloser_stream (mkNopWriteCloser (Some (entry_Writer i))) →
  io.wc_Write wc data writer =
  Some (set_zipWriter writer (zip.Write i data (RWPPWriter_zipWriter writer)).1,
        (zip.Write i data (RWPPWriter_zipWriter writer)).2).
Proof.
  intros ->. simpl. unfold NopWriteCloser_Write. simpl.
  by destruct (zip.Write _ _ _).
Qed.

(** One call keeps the state of the writer, does to the document what
    [call_on_document] tells, and adds to the archive the entry of a
    [NewFile]. *)
Lemma do_call_spec h writer wc c h' writer' wc' :
  writer_inv h writer → entry_stream wc →
  do_call (h, writer, wc) c = Some (h', writer', wc') →
  writer_inv h' writer' ∧ entry_stream wc' ∧
  view_Publication h' (RWPPWriter_manifest writer') =
    {| wire.title := wire.title (view_Publication h (RWPPWriter_manifest writer));
       wire.readingOrder :=
         call_on_document
           (wire.readingOrder (view_Publication h (RWPPWriter_manifest writer))) c;
       wire.resources :=
         wire.resources (view_Publication h (RWPPWriter_manifest writer)) |} ∧
  entry_names (RWPPWriter_zipWriter writer') =
    entry_names (RWPPWriter_zipWriter writer) ++ NewFile_paths [c].
Proof.
  intros Hinv Hwc. destruct c as [path contentType storageMethod|data|path sz profile alg];
    simpl.
  - pose proof (NewFile_inv h writer path contentType storageMethod Hinv) as Hinv'.
    pose proof (NewFile_ReadingOrder writer path contentType storageMethod) as Hro.
    pose proof (NewFile_Resources writer path contentType storageMethod) as Hrs.
    revert Hinv' Hro Hrs. unfold NewFile, ReadingOrder.
    destruct (zip.CreateHeader _ _) as [zw [w err]] eqn:Hch. simpl.
    intros Hinv' Hro Hrs. destruct err as [e|]; [done|]. intros ?; simplify_eq.
    apply CreateHeader_names in Hch as [Hnames ->]. simpl in *.
    split_and!; [done|by eexists|..].
    + unfold view_Publication. simpl. f_equal. by rewrite fmap_app.
    + done.
  - destruct wc as [s|]; [|intros ?; simplify_eq].
    + destruct Hwc as [i Hs]. rewrite (entry_stream_Write _ i) by done.
      intros ?; simplify_eq. split_and!.
      * destruct Hinv as [? ? ?]. by split.
      * by eexists.
      * done.
      * simpl. rewrite zip_Write_names. by rewrite app_nil_r.
    + split_and!; [done..|]. by rewrite app_nil_r.
  - destruct (MarkAsEncrypted h writer path sz profile alg) as [h1 writer1] eqn:Hm.
    intros ?; simplify_eq.
    destruct (MarkAsEncrypted_view _ _ _ _ _ _ _ _ Hinv Hm) as [Hzw Hview].
    split_and!; [by eapply MarkAsEncrypted_inv|done|done|].
    rewrite Hzw. by rewrite app_nil_r.
Qed.

Lemma NewFile_paths_cons c cs : NewFile_paths (c :: cs) = NewFile_paths [c] ++ NewFile_paths cs.
Proof. unfold NewFile_paths. simpl. by destruct c. Qed.

Lemma NewFile_paths_app cs1 cs2 :
  NewFile_paths (cs1 ++ cs2) = NewFile_paths cs1 ++ NewFile_paths cs2.
Proof. apply omap_app. Qed.

Lemma do_calls_spec cs h writer wc h' writer' wc' :
  writer_inv h writer → entry_stream wc →
  do_calls (h, writer, wc) cs = Some (h', writer', wc') →
  writer_inv h' writer' ∧
  view_Publication h' (RWPPWriter_manifest writer') =
    {| wire.title := wire.title (view_Publication h (RWPPWriter_manifest writer));
       wire.readingOrder :=
         foldl call_on_document
           (wire.readingOrder (view_Publication h (RWPPWriter_manifest writer))) cs;
       wire.resources :=
         wire.resources (view_Publication h (RWPPWriter_manifest writer)) |} ∧
  entry_names (RWPPWriter_zipWriter writer') =
    entry_names (RWPPWriter_zipWriter writer) ++ NewFile_paths cs.
Proof.
  revert h writer wc. induction cs as [|c cs IH]; intros h writer wc Hinv Hwc Hrun.
  - simpl in Hrun. simplify_eq. split_and!; [done| |by rewrite app_nil_r].
    by destruct (view_Publication h' _).
  - cbn [do_calls] in Hrun.
    destruct (do_call (h, writer, wc) c) as [[[h1 writer1] wc1]|] eqn:Hc; [|done].
    cbn [mbind option_bind] in Hrun.
    apply do_call_spec in Hc as (Hinv1 & Hwc1 & Hview1 & Hnames1); [|done..].
    apply IH in Hrun as (Hinv' & Hview' & Hnames'); [|done..].
    split_and!; [done|..].
    + rewrite Hview', Hview1. done.
    + rewrite NewFile_paths_cons, Hnames', Hnames1. by rewrite app_assoc.
Qed.

(** *** The calls that mark a link *)

Lemma NewFile_paths_take_length cs k :
  length (NewFile_paths (take k cs)) ≤ length (NewFile_paths cs).
Proof.
  rewrite <-(take_drop k cs) at 2. rewrite NewFile_paths_app, length_app. lia.
Qed.

Lemma marked_link_bound cs i path :
  marked_link cs i path → i < length (NewFile_paths cs).
Proof.
  intros [(k & sz & prof & alg & _ & Hlt) _].
  pose proof (NewFile_paths_take_length cs k). lia.
Qed.

(** A call more marks the links the calls before marked and, when it is a
    [MarkAsEncrypted], the first link of its path. *)
Lemma marked_link_snoc cs c i path :
  i < length (NewFile_paths cs) →
  marked_link (cs ++ [c]) i path ↔
  marked_link cs i path ∨
  ((∃ sz prof alg, c = call_MarkAsEncrypted path sz prof alg) ∧
   ∀ j, j < i → NewFile_paths cs !! j ≠ Some path).
Proof.
  intros Hi.
  assert (∀ j, j < i → (NewFile_paths (cs ++ [c]) !! j ≠ Some path ↔
                         NewFile_paths cs !! j ≠ Some path)) as Hfirst.
  { intros j Hj. rewrite NewFile_paths_app, lookup_app_l by lia. done. }
  split.
  - intros [(k & sz & prof & alg & Hk & Hlt) Hf].
    assert (∀ j, j < i → NewFile_paths cs !! j ≠ Some path) as Hf'.
    { intros j Hj. apply Hfirst; auto. }
    destruct (decide (k < length cs)) as [Hkl|Hkl].
    + left. split; [|done]. exists k, sz, prof, alg.
      rewrite lookup_app_l in Hk by done.
      rewrite take_app_le in Hlt by lia. done.
    + right. split; [|done].
      apply lookup_lt_Some in Hk as Hk'. rewrite length_app in Hk'. simpl in Hk'.
      assert (k = length cs) as -> by lia.
      rewrite list_lookup_middle in Hk by done. simplify_eq. eauto.
  - intros [[(k & sz & prof & alg & Hk & Hlt) Hf]|[(sz & prof & alg & ->) Hf]].
    + split; [|intros j Hj; apply Hfirst; auto].
      exists k, sz, prof, alg. apply lookup_lt_Some in Hk as Hk'.
      rewrite lookup_app_l by done. rewrite take_app_le by lia. done.
    + split; [|intros j Hj; apply Hfirst; auto].
      exists (length cs), sz, prof, alg.
      rewrite list_lookup_middle by done. rewrite take_app_length. done.
Qed.

(** The reading order the calls build, from an empty one: the paths of the
    [NewFile] calls in their order, and a record exactly on the marked
    links, of the fixed scheme. *)
Lemma document_of_calls cs :
  let ls := foldl call_on_document [] cs in
  wire.href <$> ls = NewFile_paths cs ∧
  ∀ i l, ls !! i = Some l →
    (is_Some (wire.encrypted l) ↔ marked_link cs i (wire.href l)) ∧
    (∀ e, wire.encrypted l = Some e → rwpm.Encrypted_Scheme e = lcp_scheme).
Proof.
  induction cs as [|c cs IH] using rev_ind; simpl.
  { split; [done|]. intros i l Hl. by rewrite lookup_nil in Hl. }
  rewrite foldl_app. simpl. destruct IH as [Hhref IH].
  set (ls := foldl call_on_document [] cs) in *.
  assert (length (NewFile_paths cs) = length ls) as Hlen.
  { by rewrite <-Hhref, length_fmap. }
  assert (∀ j p, NewFile_paths cs !! j = Some p ↔ ∃ y, ls !! j = Some y ∧ wire.href y = p)
    as Hpaths.
  { intros j p. rewrite <-Hhref, list_lookup_fmap.
    destruct (ls !! j) as [y|]; simpl.
    - split; [intros ?; simplify_eq; eauto|]. by intros (? & ? & ?); simplify_eq.
    - split; [done|]. by intros (? & ? & ?). }
  destruct c as [path contentType storageMethod|data|path sz profile alg]; simpl.
  - (* NewFile *)
    split.
    { rewrite fmap_app, Hhref, NewFile_paths_app. done. }
    intros i l Hl. apply lookup_snoc_Some in Hl as [[Hi Hl]|[-> <-]].
    + destruct (IH i l Hl) as [IH1 IH2]. split; [|done].
      rewrite marked_link_snoc by lia. rewrite IH1.
      split; [by left|]. by intros [?|[(? & ? & ? & ?) _]].
    + split; [|done]. simpl. split; [by intros [? ?]|].
      intros [(k & sz & prof & alg & Hk & Hlt) _]. exfalso.
      apply lookup_snoc_Some in Hk as [[Hk1 Hk2]|[_ ?]]; [|done].
      rewrite take_app_le in Hlt by lia.
      pose proof (NewFile_paths_take_length cs k). lia.
  - (* a write *)
    split.
    { rewrite Hhref, NewFile_paths_app. simpl. by rewrite app_nil_r. }
    intros i l Hl. destruct (IH i l Hl) as [IH1 IH2]. split; [|done].
    apply lookup_lt_Some in Hl as Hi.
    rewrite marked_link_snoc by lia. rewrite IH1.
    split; [by left|]. by intros [?|[(? & ? & ? & ?) _]].
  - (* MarkAsEncrypted *)
    split.
    { rewrite mark_first_href, Hhref, NewFile_paths_app. simpl. by rewrite app_nil_r. }
    intros i l Hl. apply lookup_lt_Some in Hl as Hi. rewrite mark_first_length in Hi.
    rewrite marked_link_snoc by lia.
    rewrite mark_first_list_find in Hl.
    destruct (list_find _ ls) as [[i0 l0]|] eqn:Hfind.
    + apply list_find_Some in Hfind as (Hl0 & Hp0 & Hmin).
      destruct (decide (i = i0)) as [->|Hne].
      * rewrite list_lookup_insert_eq in Hl by lia. simplify_eq. simpl. split.
        -- split; [|by eauto]. intros _. right. split; [by eauto|].
           intros j Hj Hpj. apply Hpaths in Hpj as (y & Hy & Hhy).
           by eapply Hmin.
        -- intros e He. unfold wire.encrypted in He. simpl in He. by simplify_eq.
      * rewrite list_lookup_insert_ne in Hl by done.
        destruct (IH i l Hl) as [IH1 IH2]. split; [|done].
        rewrite IH1. split; [by left|]. intros [?|[(sz' & prof' & alg' & Heq) Hf]]; [done|].
        exfalso. simplify_eq.
        destruct (decide (i0 < i)) as [Hlt|Hge].
        -- eapply (Hf i0); [done|]. apply Hpaths. eauto.
        -- eapply (Hmin i l); [done|lia|done].
    + destruct (IH i l Hl) as [IH1 IH2]. split; [|done].
      rewrite IH1. split; [by left|]. intros [?|[(sz' & prof' & alg' & Heq) Hf]]; [done|].
      exfalso. simplify_eq. eapply list_find_None in Hfind.
      eapply Forall_lookup_1 in Hfind; [|done]. by apply Hfind.
Qed.

(** *** Reading a manifest into the store *)

Lemma alloc_Links_spec ls : ∀ h h' ls',
  alloc_Links h ls = (h', ls') →
  view_Link h' <$> ls' = ls ∧
  (∀ a, is_Some (h !! a) → h' !! a = h !! a) ∧
  (∀ a, a ∈ addresses ls' → is_Some (h' !! a)).
Proof.
  induction ls as [|l ls IH]; intros h h' ls' Hal; simpl in Hal.
  { simplify_eq. split_and!; [done..|]. intros a Ha. by apply elem_of_nil in Ha. }
  destruct (alloc_Link h l) as [h1 l1] eqn:Hl.
  destruct (alloc_Links h1 ls) as [h2 ls1] eqn:Hls. simplify_eq.
  destruct (IH _ _ _ Hls) as (Hview & Hframe & Halloc).
  unfold alloc_Link in Hl. destruct l as [hr ty [p|]]; simpl in Hl; simplify_eq.
  - assert (h' !! fresh (dom h) = Some p) as Hp.
    { rewrite Hframe; [apply lookup_insert_eq|]. rewrite lookup_insert_eq. eauto. }
    split_and!.
    + rewrite fmap_cons. f_equal. unfold view_Link, deref. simpl. by rewrite Hp.
    + intros a Ha. rewrite Hframe.
      * apply lookup_insert_ne. by apply alloc_not_fresh.
      * rewrite lookup_insert_is_Some'. auto.
    + intros a Ha. rewrite addresses_cons in Ha. simpl in Ha.
      apply elem_of_cons in Ha as [->|Ha]; [eauto|auto].
  - split_and!; [|done..]. by rewrite fmap_cons.
Qed.

(** A manifest just decoded shows the document it was decoded from. *)
Lemma alloc_Publication_view h d h' m :
  alloc_Publication h d = (h', m) → view_Publication h' m = d.
Proof.
  unfold alloc_Publication.
  destruct (alloc_Links h (wire.readingOrder d)) as [h1 ro] eqn:Hro.
  destruct (alloc_Links h1 (wire.resources d)) as [h2 rs] eqn:Hrs.
  intros ?; simplify_eq.
  destruct (alloc_Links_spec _ _ _ _ Hro) as (Hv1 & _ & Ha1).
  destruct (alloc_Links_spec _ _ _ _ Hrs) as (Hv2 & Hf2 & _).
  destruct d as [t dro drs]. unfold view_Publication. simpl in *. f_equal; [|done].
  rewrite <-Hv1. apply view_Links_agree. intros a Ha. apply Hf2. by apply Ha1.
Qed.

(** *** Closing the writer and reading the container back *)

Section Reading.

Context `{JsonCodec}.

Lemma Close_total h writer : is_Some (Close h writer).
Proof.
  unfold Close, writeManifest, zip.Create, zip.CreateHeader, Encoder_Encode.
  destruct (zip.next_outcome _); simpl; [eauto|].
  destruct (json_Encode _); simpl; [|eauto].
  destruct (zip.Write _ _ _) as [zw [n [e|]]]; simpl; [eauto|].
  destruct (zip.Close _). simpl. eauto.
Qed.

(** A writer closed without error leaves its archive with one entry
    more, of the name of the manifest, holding the text of the document
    of its manifest. *)
Lemma Close_success h writer writer' :
  Close h writer = Some (writer', None) →
  ∃ text,
    json_Encode (view_Publication h (RWPPWriter_manifest writer)) = inl text ∧
    RWPPWriter_manifest writer' = RWPPWriter_manifest writer ∧
    zip.dir (RWPPWriter_zipWriter writer') =
    zip.dir (RWPPWriter_zipWriter writer) ++
      [ ({| zip.Name := ManifestLocation; zip.Method := zip.Deflate;
            zip.UncompressedSize64 := 0 |}, text) ].
Proof.
  unfold Close, writeManifest, zip.Create, zip.CreateHeader, Encoder_Encode.
  destruct (zip.next_outcome _); simpl; [done|].
  destruct (json_Encode _) as [text|e]; simpl; [|done].
  unfold zip.Write. simpl. rewrite length_app. simpl.
  rewrite bool_decide_eq_true_2 by lia. simpl.
  destruct (zip.closed (RWPPWriter_zipWriter writer)) eqn:Hc; simpl; [done|].
  destruct (zip.next_outcome _); simpl; [done|].
  unfold zip.Close. simpl. rewrite ?Hc. simpl.
  intros ?; simplify_eq. exists text. split_and!; [done..|]. simpl.
  replace (length (zip.dir (RWPPWriter_zipWriter writer)))
    with (length (zip.dir (RWPPWriter_zipWriter writer)) + 0) by lia.
  rewrite alter_app_r. done.
Qed.

Lemma find_manifest_app fs1 fs2 :
  (∀ f, f ∈ fs1 → zip.Name (zip.header f) ≠ ManifestLocation) →
  find_manifest (fs1 ++ fs2) = find_manifest fs2.
Proof.
  induction fs1 as [|f fs1 IH]; intros Hno; [done|]. simpl.
  destruct (decide _) as [Heq|_].
  - exfalso. eapply Hno; [by left|done].
  - apply IH. intros f' Hf'. apply Hno. by right.
Qed.

(** The container of a writer closed without error reads back as the
    document of its manifest, when no entry created before has the name
    of the manifest and the codec agrees on the document. *)
Lemma reread_Close h0 writer writer' h :
  Close h0 writer = Some (writer', None) →
  ManifestLocation ∉ entry_names (RWPPWriter_zipWriter writer) →
  json_roundtrip (view_Publication h0 (RWPPWriter_manifest writer)) →
  reread h writer' = Some (view_Publication h0 (RWPPWriter_manifest writer)).
Proof.
  intros Hclose Hnames Hrt.
  apply Close_success in Hclose as (text & Henc & _ & Hdir).
  unfold reread, NewRWPPReader, zip.reopen. simpl. rewrite Hdir, fmap_app.
  rewrite find_manifest_app.
  - simpl. unfold Decoder_Decode. simpl. rewrite (Hrt _ Henc).
    destruct (alloc_Publication h _) as [h' m] eqn:Hal. simpl.
    by rewrite (alloc_Publication_view _ _ _ _ Hal).
  - intros f Hf Hname. apply Hnames.
    apply list_elem_of_fmap in Hf as (en & -> & Hen). simpl in Hname.
    unfold entry_names. apply list_elem_of_fmap. by exists en.
Qed.

End Reading.


(** The scenario of the specification: the writer is the one [NewWriter]
    gives on the source, [publication.json] standing for the name of the
    W3C manifest. *)
Example NewWriter_scenario :
  NewWriter "publication.json" scenario.reader [] = Some (Some scenario.writer, None).
Proof. vm_compute. reflexivity. Qed.

Lemma scenario_writer_inv : writer_inv ∅ scenario.writer.
Proof.
  split; simpl.
  - intros a [Ha|Ha]; by apply elem_of_nil in Ha.
  - constructor.
  - intros a Ha. by apply elem_of_nil in Ha.
Qed.


(** The destination of the scenario has four entries: the ancillary
    resource, the two files of the reading order and the manifest. *)
Example scenario_entries :
  (s ← do_calls (∅, scenario.writer, None) scenario.calls;
   r ← Close (H := sample_json.codec) s.1.1 s.1.2;
   Some (r.2, entry_names (RWPPWriter_zipWriter r.1))) =
  Some (None, ["styles.css"; "a.html"; "b.html"; "manifest.json"]).
Proof. vm_compute. reflexivity. Qed.


(** The other two ways a pass leaves the wording of the specification,
    which the statement above keeps out.  A [NewFile] for the path of the
    manifest: the entry comes before the manifest in the archive, and the
    reader takes it for the manifest. *)
Example manifest_path_shadows_manifest :
  pass (H := sample_json.codec) ∅ scenario.empty_writer scenario.manifest_path ∅ =
    Some (None, None).
Proof. vm_compute. reflexivity. Qed.

(** A [MarkAsEncrypted] before the [NewFile] of its path finds no link and
    does nothing. *)
Example marked_early_is_not_marked :
  pass (H := sample_json.codec) ∅ scenario.empty_writer scenario.marked_early ∅ =
    Some (None,
          Some {| wire.title := "A book";
                  wire.readingOrder := [ wire.mkLink "a.html" "text/html" None ];
                  wire.resources := [] |}).
Proof. vm_compute. reflexivity. Qed.

(** ** [CopyTo] *)

(** C2. In [CopyTo], once the destination entry is created and the source
    stream open: an error of the byte transfer is the error returned,
    whatever the two [Close] return; when the transfer succeeds and the
    [Close] of the source fails, the error of the source is returned,
    whatever the [Close] of the destination returns; the result of the
    [Close] of the destination is returned only when the transfer and the
    [Close] of the source both succeed. *)
Theorem CopyTo_error_precedence {W} `{PackageWriter W}
    (resource : rwpResource) (packageWriter : W) f pw1 wc rc pw2 n err pw3 wCloseError :
  file resource = Some f →
  pw_NewFile packageWriter (zip.Name (zip.header f)) (contentType resource)
             (zip.Method (zip.header f)) = (pw1, (wc, None)) →
  zip.Open f = inl rc →
  io.Copy (io.as_Writer wc) rc pw1 = Some (pw2, (n, err)) →
  io.wc_Close wc pw2 = Some (pw3, wCloseError) →
  ∃ result,
    CopyTo resource packageWriter = Some (pw3, result) ∧
    (∀ e, err = Some e → result = Some e) ∧
    (∀ e, err = None → io.rc_Close rc = Some e → result = Some e) ∧
    (err = None → io.rc_Close rc = None → result = wCloseError) ∧
    (∀ e, result = Some e →
          err = Some e ∨
          (err = None ∧ io.rc_Close rc = Some e) ∨
          (err = None ∧ io.rc_Close rc = None ∧ wCloseError = Some e)).
Proof.
  intros Hf Hnew Hopen Hcopy Hclose. unfold CopyTo, Path.
  rewrite Hf. simpl. rewrite Hnew, Hopen, Hcopy. simpl. rewrite Hclose. simpl.
  destruct err as [e|]; [|destruct (io.rc_Close rc) as [e|]].
  - eexists; split; [done|]. split_and!; intros; simplify_eq; auto.
  - eexists; split; [done|]. split_and!; intros; simplify_eq; auto.
  - eexists; split; [done|]. split_and!; intros; simplify_eq; auto.
Qed.

Lemma CopyTo_error_precedence_witness :
  ∃ result,
    CopyTo (H := scenario.unclosable) scenario.broken_resource () = Some ((), result) ∧
    (∀ e, Some scenario.transfer_error = Some e → result = Some e) ∧
    (∀ e, Some scenario.transfer_error = None →
          io.rc_Close scenario.broken_stream = Some e → result = Some e) ∧
    (Some scenario.transfer_error = None → io.rc_Close scenario.broken_stream = None →
     result = Some scenario.closing_error) ∧
    (∀ e, result = Some e →
          Some scenario.transfer_error = Some e ∨
          (Some scenario.transfer_error = None ∧
           io.rc_Close scenario.broken_stream = Some e) ∨
          (Some scenario.transfer_error = None ∧
           io.rc_Close scenario.broken_stream = None ∧
           Some scenario.closing_error = Some e)).
Proof.
  apply (CopyTo_error_precedence (H := scenario.unclosable) scenario.broken_resource ()
           scenario.broken_file () scenario.unclosable_stream scenario.broken_stream
           () 3%Z (Some scenario.transfer_error) ()
           (Some scenario.closing_error)); reflexivity.
Defined.

(** The errors before the transfer: the error of [NewFile], then the error
    of opening the source, are returned at once. *)
Lemma CopyTo_early_errors {W} `{PackageWriter W}
    (resource : rwpResource) (packageWriter : W) f pw1 wc err :
  file resource = Some f →
  pw_NewFile packageWriter (zip.Name (zip.header f)) (contentType resource)
             (zip.Method (zip.header f)) = (pw1, (wc, err)) →
  (∀ e, err = Some e → CopyTo resource packageWriter = Some (pw1, Some e)) ∧
  (∀ e, err = None → zip.Open f = inr e →
        CopyTo resource packageWriter = Some (pw1, Some e)).
Proof.
  intros Hf Hnew. unfold CopyTo, Path. rewrite Hf. simpl. rewrite Hnew.
  split; intros e; [intros ->; done|intros -> ->; done].
Qed.

(** With a [RWPPWriter] the [Close] of the destination stream is the one
    of [NopWriteCloser], which returns no error. *)
Lemma NewFile_stream_Close writer path contentType storageMethod s :
  io.wc_Close (NewFile writer path contentType storageMethod).2.1 s = Some (s, None).
Proof. unfold NewFile. destruct (zip.CreateHeader _ _) as [zw [w err]]. done. Qed.

(** ** [Close] *)

Section Closing.

Context `{JsonCodec}.

(** The calls [writeManifest] makes on the archive are a [Create] and a
    write: it does not close the archive. *)
Lemma writeManifest_log h writer writer1 err :
  writeManifest h writer = Some (writer1, err) →
  zip.closed (RWPPWriter_zipWriter writer1) = zip.closed (RWPPWriter_zipWriter writer) ∧
  (zip.call_Close ∈ zip.log (RWPPWriter_zipWriter writer1) →
   zip.call_Close ∈ zip.log (RWPPWriter_zipWriter writer)).
Proof.
  unfold writeManifest, zip.Create, zip.CreateHeader, Encoder_Encode.
  destruct (zip.next_outcome _); simpl.
  { intros ?; simplify_eq. simpl. split; [done|].
    intros [?|Hin]%elem_of_app; [done|]. apply list_elem_of_singleton in Hin. done. }
  destruct (json_Encode _) as [text|e]; simpl.
  - unfold zip.Write. simpl.
    destruct (bool_decide _ && _); [destruct (zip.next_outcome _)|]; simpl;
      intros ?; simplify_eq; simpl; (split; [done|]);
      intros [[?|Hin]%elem_of_app|Hin]%elem_of_app; try done;
      apply list_elem_of_singleton in Hin; done.
  - intros ?; simplify_eq. simpl. split; [done|].
    intros [?|Hin]%elem_of_app; [done|]. apply list_elem_of_singleton in Hin. done.
Qed.

(** When [writeManifest] fails, [Close] returns its error and leaves the
    writer as [writeManifest] left it: [zipWriter.Close] is not called. *)
Lemma Close_on_manifest_error h writer writer1 e :
  writeManifest h writer = Some (writer1, Some e) →
  Close h writer = Some (writer1, Some e) ∧
  zip.closed (RWPPWriter_zipWriter writer1) = zip.closed (RWPPWriter_zipWriter writer) ∧
  (zip.call_Close ∈ zip.log (RWPPWriter_zipWriter writer1) →
   zip.call_Close ∈ zip.log (RWPPWriter_zipWriter writer)).
Proof.
  intros Hw. split; [unfold Close; by rewrite Hw|]. by eapply writeManifest_log.
Qed.

(** When [writeManifest] succeeds, [Close] closes the archive and returns
    what [zipWriter.Close] returns. *)
Lemma Close_on_manifest_written h writer writer1 :
  writeManifest h writer = Some (writer1, None) →
  Close h writer =
  Some (set_zipWriter writer1 (zip.Close (RWPPWriter_zipWriter writer1)).1,
        (zip.Close (RWPPWriter_zipWriter writer1)).2).
Proof.
  intros Hw. unfold Close. rewrite Hw. simpl. by destruct (zip.Close _).
Qed.

End Closing.

(** C4, on a writer whose output fails when the text of the manifest is
    written.  [Close] returns the error of the manifest, as specified; but
    it returns at once: [zipWriter.Close] is not called (the archive has no
    call [Close] in its log and is not closed), where the specification has
    the close of the archive still attempted. *)
Theorem Close_manifest_error_skips_archive_close :
  ∃ writer',
    Close (H := sample_json.codec) ∅ scenario.failing_writer =
      Some (writer', Some scenario.output_error) ∧
    (zip.call_Close ∉ zip.log (RWPPWriter_zipWriter writer')) ∧
    zip.closed (RWPPWriter_zipWriter writer') = false.
Proof.
  eexists. split; [vm_compute; reflexivity|]. split; [|reflexivity].
  apply (bool_decide_unpack _). vm_compute. exact I.
Qed.

(** ** The reader *)

(** C8. A container with no entry at the location of the manifest,
    [manifest.json], does not open as a package: [NewRWPPReader], and
    [OpenRWPP] on a file that holds the container, return no reader and the
    error of message [Could not find manifest], and leave the store as it
    is. *)
Theorem NewRWPPReader_manifest_absent `{JsonCodec} h zipReader :
  (∀ f, f ∈ zip.Files zipReader → zip.Name (zip.header f) ≠ "manifest.json") →
  NewRWPPReader h zipReader = (h, (None, Some (errors_New "Could not find manifest"))) ∧
  Error (errors_New "Could not find manifest") = Some "Could not find manifest" ∧
  ∀ OpenReader name,
    OpenReader name = inl zipReader →
    OpenRWPP OpenReader h name = (h, (None, Some (errors_New "Could not find manifest"))).
Proof.
  intros Hno.
  assert (find_manifest (zip.Files zipReader) = None) as Hfind.
  { rewrite <-(app_nil_r (zip.Files zipReader)). by rewrite find_manifest_app. }
  assert (NewRWPPReader h zipReader
          = (h, (None, Some (errors_New "Could not find manifest")))) as Hnew.
  { unfold NewRWPPReader. by rewrite Hfind. }
  split_and!; [done..|]. intros OpenReader name Hopen. unfold OpenRWPP. by rewrite Hopen.
Qed.

Lemma NewRWPPReader_manifest_absent_witness :
  NewRWPPReader (H := sample_json.codec) ∅ scenario.bare_archive =
    (∅, (None, Some (errors_New "Could not find manifest"))) ∧
  Error (errors_New "Could not find manifest") = Some "Could not find manifest" ∧
  ∀ OpenReader name,
    OpenReader name = inl scenario.bare_archive →
    OpenRWPP (H := sample_json.codec) OpenReader ∅ name =
      (∅, (None, Some (errors_New "Could not find manifest"))).
Proof.
  apply (NewRWPPReader_manifest_absent (H := sample_json.codec) ∅ scenario.bare_archive).
  intros f Hf. apply list_elem_of_singleton in Hf. subst f. simpl. discriminate.
Defined.

Lemma index_files_Name zipArchive name f :
  index_files zipArchive !! name = Some f → zip.Name (zip.header f) = name.
Proof.
  unfold index_files.
  assert (∀ fs (files : gmap string zip.File),
            (∀ k g, files !! k = Some g → zip.Name (zip.header g) = k) →
            ∀ k g, foldl (λ files file, <[zip.Name (zip.header file) := file]> files)
                         files fs !! k = Some g →
                   zip.Name (zip.header g) = k) as Hgen.
  { induction fs as [|file fs IH]; intros files Hfiles k g; simpl; [by apply Hfiles|].
    apply IH. intros k' g'. destruct (decide (zip.Name (zip.header file) = k')) as [<-|Hne].
    - rewrite lookup_insert_eq. by intros ?; simplify_eq.
    - rewrite lookup_insert_ne by done. apply Hfiles. }
  apply Hgen. intros k g Hk. by rewrite lookup_empty in Hk.
Qed.

Lemma foldl_snoc_fmap {A B} (g : A → B) (ls : list A) (acc : list B) :
  foldl (λ acc x, acc ++ [g x]) acc ls = acc ++ (g <$> ls).
Proof.
  revert acc. induction ls as [|l ls IH]; intros acc; simpl; [by rewrite app_nil_r|].
  rewrite IH. by rewrite <-app_assoc.
Qed.

Lemma Resources_fmap h reader :
  Resources h reader =
  resource_of h (index_files (RWPPReader_zipArchive reader)) <$>
    rwpm.Publication_ReadingOrder (RWPPReader_manifest reader).
Proof.
  unfold Resources.
  apply (foldl_snoc_fmap (resource_of h (index_files (RWPPReader_zipArchive reader)))).
Qed.

(** C7. [Resources] gives one resource for each link of the reading order
    of the source manifest, in the order of the manifest, and none for the
    ancillary resources (the list does not depend on them): the resource
    of a link has its content type, the entry of the archive of its href
    and, when there is such an entry, its href as path; its encrypted flag
    is true if and only if the manifest has an encryption record on the
    link ([Properties] and [Properties.Encrypted] both non-nil). *)
Theorem Resources_reading_order h reader :
  length (Resources h reader) =
    length (rwpm.Publication_ReadingOrder (RWPPReader_manifest reader)) ∧
  (∀ i link,
     rwpm.Publication_ReadingOrder (RWPPReader_manifest reader) !! i = Some link →
     ∃ resource,
       Resources h reader !! i = Some resource ∧
       ContentType resource = rwpm.Link_Type link ∧
       file resource = index_files (RWPPReader_zipArchive reader) !! rwpm.Link_Href link ∧
       (is_Some (file resource) → Path resource = Some (rwpm.Link_Href link)) ∧
       (Encrypted resource = true ↔ is_Some (wire.encrypted (view_Link h link)))) ∧
  (∀ ancillary,
     Resources h {| RWPPReader_manifest :=
                      {| rwpm.Publication_Metadata :=
                           rwpm.Publication_Metadata (RWPPReader_manifest reader);
                         rwpm.Publication_ReadingOrder :=
                           rwpm.Publication_ReadingOrder (RWPPReader_manifest reader);
                         rwpm.Publication_Resources := ancillary |};
                    RWPPReader_zipArchive := RWPPReader_zipArchive reader |}
     = Resources h reader).
Proof.
  rewrite Resources_fmap. split_and!.
  - apply length_fmap.
  - intros i link Hi. eexists. split; [by rewrite list_lookup_fmap, Hi|].
    split_and!; [done..| |].
    + intros [f Hf]. unfold Path. simpl in *. rewrite Hf. simpl.
      by rewrite (index_files_Name _ _ _ Hf).
    + unfold Encrypted, wire.encrypted, view_Link. simpl.
      destruct (rwpm.Link_Properties link) as [p|]; simpl.
      * rewrite bool_decide_eq_true.
        destruct (rwpm.Properties_Encrypted (deref h p)) as [e|].
        -- split; [eauto|done].
        -- split; [done|]. by intros [? ?].
      * split; [done|]. by intros [? ?].
  - intros ancillary. by rewrite Resources_fmap.
Qed.

(** The resources of a source whose first link is marked as encrypted. *)
Example Resources_marked_reader :
  (λ r, (Path r, ContentType r, Encrypted r)) <$>
    Resources scenario.marked_store scenario.marked_reader =
  [ (Some "a.html", "text/html", true); (Some "b.html", "text/html", false) ].
Proof. vm_compute. reflexivity. Qed.

(** C10. Every resource of the reader of the JSON-manifest package can be
    encrypted and is not compressed before encryption, whatever its path,
    its content type and its encryption status. *)
Theorem rwpResource_flags h reader resource :
  resource ∈ Resources h reader →
  CanBeEncrypted resource = true ∧ CompressBeforeEncryption resource = false.
Proof. intros _. split; reflexivity. Qed.

Lemma rwpResource_flags_witness :
  CanBeEncrypted
    {| file := Some (scenario.source_file "a.html" (scenario.content "<p>a</p>"));
       isEncrypted := true; contentType := "text/html" |} = true ∧
  CompressBeforeEncryption
    {| file := Some (scenario.source_file "a.html" (scenario.content "<p>a</p>"));
       isEncrypted := true; contentType := "text/html" |} = false.
Proof.
  apply (rwpResource_flags scenario.marked_store scenario.marked_reader).
  apply list_elem_of_lookup. exists 0. vm_compute. reflexivity.
Defined.

(** ** [NewFile] *)

(** C9. Every call [NewFile(path, contentType, storageMethod)] appends the
    link of href [path] and of type [contentType], without properties, to
    the working reading order, whatever [CreateHeader] returns: when the
    entry cannot be created, the error is returned, the archive has no
    entry more, and the manifest of the writer has the link all the same. *)
Theorem NewFile_appends_link writer path contentType storageMethod :
  let '(writer', (_, err)) := NewFile writer path contentType storageMethod in
  ReadingOrder writer' =
    ReadingOrder writer ++
      [ {| rwpm.Link_Href := path; rwpm.Link_Type := contentType;
           rwpm.Link_Properties := None |} ] ∧
  (∀ e, err = Some e →
        zip.dir (RWPPWriter_zipWriter writer') = zip.dir (RWPPWriter_zipWriter writer) ∧
        RWPPWriter_manifest writer' ≠ RWPPWriter_manifest writer).
Proof.
  pose proof (NewFile_ReadingOrder writer path contentType storageMethod) as Hro.
  revert Hro. unfold NewFile.
  destruct (zip.CreateHeader _ _) as [zw [w err]] eqn:Hch. simpl.
  intros Hro. split; [done|]. intros e ->.
  apply CreateHeader_error in Hch as (Hdir & _). split; [done|].
  intros Heq. unfold ReadingOrder in Hro. simpl in Hro.
  apply (f_equal rwpm.Publication_ReadingOrder) in Heq. simpl in Heq.
  apply (f_equal length) in Heq. unfold ReadingOrder in Heq.
  rewrite length_app in Heq. simpl in Heq. lia.
Qed.

(** A call of [NewFile] that fails, on a writer whose output fails. *)
Example NewFile_error_appends_link :
  let '(writer', (_, err)) := NewFile scenario.full_writer "a.html" "text/html" zip.Deflate in
  err = Some scenario.output_error ∧
  ReadingOrder scenario.full_writer = [] ∧
  ReadingOrder writer' = [ rwpm.mkLink "a.html" "text/html" None ] ∧
  zip.dir (RWPPWriter_zipWriter writer') = [].
Proof. vm_compute. done. Qed.

Lemma MarkAsEncrypted_first_match_witness :
  let encrypted :=
    {| rwpm.Encrypted_Scheme := "http://readium.org/2014/01/lcp";
       rwpm.Encrypted_Profile := license.String scenario.basic;
       rwpm.Encrypted_Algorithm := "AES-CBC" |} in
  let before :=
    view_Publication scenario.marked_store (RWPPWriter_manifest scenario.working_writer) in
  let after :=
    view_Publication scenario.working_marked.1
      (RWPPWriter_manifest scenario.working_marked.2) in
  RWPPWriter_zipWriter scenario.working_marked.2 =
    RWPPWriter_zipWriter scenario.working_writer ∧
  wire.title after = wire.title before ∧
  wire.resources after = wire.resources before ∧
  ((∀ l, l ∈ wire.readingOrder before → wire.href l ≠ "b.html") →
   scenario.working_marked.1 = scenario.marked_store ∧
   scenario.working_marked.2 = scenario.working_writer) ∧
  (∀ i l,
     wire.readingOrder before !! i = Some l → wire.href l = "b.html" →
     (∀ j l', j < i → wire.readingOrder before !! j = Some l' → wire.href l' ≠ "b.html") →
     wire.readingOrder after = <[i := marked encrypted l]> (wire.readingOrder before) ∧
     wire.href (marked encrypted l) = wire.href l ∧
     wire.type (marked encrypted l) = wire.type l ∧
     wire.encrypted (marked encrypted l) = Some encrypted).
Proof.
  apply (MarkAsEncrypted_first_match scenario.marked_store scenario.working_writer
           "b.html" 8 scenario.basic "AES-CBC").
  - split; simpl.
    + intros a [Ha|Ha].
      * apply list_elem_of_singleton in Ha. subst a. by eexists.
      * by apply elem_of_nil in Ha.
    + apply NoDup_singleton.
    + intros a _ Ha. by apply elem_of_nil in Ha.
  - apply surjective_pairing.
Defined.

(** The second link of href [b.html] is left as it is. *)
Example MarkAsEncrypted_first_of_two :
  wire.readingOrder
    (view_Publication scenario.working_marked.1
       (RWPPWriter_manifest scenario.working_marked.2)) =
  [ wire.mkLink "a.html" "text/html"
      (Some (rwpm.mkProperties
               (Some (rwpm.mkEncrypted "http://readium.org/2014/01/lcp" "basic" "AES-CBC"))));
    wire.mkLink "b.html" "text/html"
      (Some (rwpm.mkProperties
               (Some (rwpm.mkEncrypted "http://readium.org/2014/01/lcp" "basic" "AES-CBC"))));
    wire.mkLink "b.html" "text/html" None ].
Proof. vm_compute. reflexivity. Qed.

(** ** The XML encryption manifest *)

Section DataForFile.

Variable URL : Type.
Variable url_Parse : string → URL + error.
Variable EscapedPath : URL → string.

Local Abbreviation DataForFile := (xmlenc.DataForFile URL url_Parse EscapedPath).

Lemma DataForFile_loop_no_match data uri :
  (∀ datum, datum ∈ data → xmlenc.reference datum ≠ uri) →
  xmlenc.DataForFile_loop data uri = (xmlenc.zero_Data, false).
Proof.
  induction data as [|datum rest IH]; intros Hno; [done|]. simpl.
  destruct (decide _) as [Heq|_].
  - exfalso. eapply Hno; [by left|done].
  - apply IH. intros d Hd. apply Hno. by right.
Qed.

Lemma DataForFile_loop_first data uri i datum :
  data !! i = Some datum → xmlenc.reference datum = uri →
  (∀ j d, j < i → data !! j = Some d → xmlenc.reference d ≠ uri) →
  xmlenc.DataForFile_loop data uri = (datum, true).
Proof.
  revert i. induction data as [|d0 rest IH]; intros i Hi Hu Hfirst; [done|].
  simpl. destruct i as [|i]; simpl in Hi.
  - simplify_eq. by rewrite decide_True.
  - rewrite decide_False; [|by apply (Hfirst 0); [lia|]].
    apply (IH i); [done..|]. intros j d Hj Hd. apply (Hfirst (S j)); [lia|done].
Qed.

(** C5. [DataForFile(m, path)] parses [path] with [url.Parse] and takes
    the escaped path of the result; it returns not-found when the
    parsing fails; otherwise it compares this string, as it is, with the
    URI of the cipher reference of each record, as it is stored, and
    returns the first record for which the two strings are equal, and
    not-found when there is none.  So it returns not-found for every path
    when the manifest has no record, and the record when exactly one
    record has the URI. *)
Theorem DataForFile_first_match (m : xmlenc.Manifest) (path : string) :
  (∀ e, url_Parse path = inr e → DataForFile m path = (xmlenc.zero_Data, false)) ∧
  (∀ fileUri, url_Parse path = inl fileUri →
     let uri := EscapedPath fileUri in
     ((∀ datum, datum ∈ xmlenc.Manifest_Data m → xmlenc.reference datum ≠ uri) →
      DataForFile m path = (xmlenc.zero_Data, false)) ∧
     (∀ i datum,
        xmlenc.Manifest_Data m !! i = Some datum → xmlenc.reference datum = uri →
        (∀ j d, j < i → xmlenc.Manifest_Data m !! j = Some d → xmlenc.reference d ≠ uri) →
        DataForFile m path = (datum, true)) ∧
     (∀ i datum,
        xmlenc.Manifest_Data m !! i = Some datum → xmlenc.reference datum = uri →
        (∀ j d, j ≠ i → xmlenc.Manifest_Data m !! j = Some d → xmlenc.reference d ≠ uri) →
        DataForFile m path = (datum, true)) ∧
     (∀ datum, DataForFile m path = (datum, true) →
        ∃ i, xmlenc.Manifest_Data m !! i = Some datum ∧ xmlenc.reference datum = uri)) ∧
  (xmlenc.Manifest_Data m = [] → DataForFile m path = (xmlenc.zero_Data, false)).
Proof.
  unfold xmlenc.DataForFile. split_and!.
  - intros e ->. done.
  - intros fileUri ->. simpl. split_and!.
    + apply DataForFile_loop_no_match.
    + apply DataForFile_loop_first.
    + intros i datum Hi Hu Huniq. eapply DataForFile_loop_first; [done..|].
      intros j d Hj. apply Huniq. lia.
    + generalize (xmlenc.Manifest_Data m) as data.
      induction data as [|d0 rest IH]; intros datum; simpl; [done|].
      destruct (decide _) as [Heq|_].
      * intros ?; simplify_eq. by exists 0.
      * intros Hrec. destruct (IH _ Hrec) as (i & Hi & Hu). by exists (S i).
  - intros ->. by destruct (url_Parse path).
Qed.

End DataForFile.

Lemma DataForFile_first_match_witness :
  xmlenc.DataForFile string scenario.plain_Parse scenario.plain_EscapedPath
    scenario.encryption "OPS/chapter2.xhtml" =
    (scenario.datum "OPS/chapter2.xhtml" scenario.aes, true) ∧
  xmlenc.DataForFile string scenario.plain_Parse scenario.plain_EscapedPath
    scenario.encryption "chapter1.xhtml" = (xmlenc.zero_Data, false).
Proof.
  destruct (DataForFile_first_match string scenario.plain_Parse scenario.plain_EscapedPath
              scenario.encryption "OPS/chapter2.xhtml") as (_ & Hparsed & _).
  destruct (Hparsed "OPS/chapter2.xhtml" eq_refl) as (_ & Hfirst & _).
  destruct (DataForFile_first_match string scenario.plain_Parse scenario.plain_EscapedPath
              scenario.encryption "chapter1.xhtml") as (_ & Hparsed' & _).
  destruct (Hparsed' "chapter1.xhtml" eq_refl) as (Hnone & _).
  split.
  - apply (Hfirst 1); [reflexivity..|].
    intros j d Hj Hd. assert (j = 0) as -> by lia. simpl in Hd. simplify_eq. discriminate.
  - apply Hnone. intros d Hd.
    apply elem_of_cons in Hd as [->|Hd]; [discriminate|].
    apply list_elem_of_singleton in Hd. subst d. discriminate.
Defined.

(** The strings are compared as they are: a path that names the same
    file in another way finds no record. *)
Example DataForFile_not_normalized :
  xmlenc.DataForFile string scenario.plain_Parse scenario.plain_EscapedPath
    scenario.encryption "./OPS/chapter1.xhtml" = (xmlenc.zero_Data, false) ∧
  xmlenc.DataForFile string scenario.plain_Parse scenario.plain_EscapedPath
    scenario.encryption "OPS/chapter1.xhtml" =
    (scenario.datum "OPS/chapter1.xhtml" scenario.aes, true).
Proof. split; vm_compute; reflexivity. Qed.

(** ** The writer [NewWriter] returns *)

Lemma copy_verbatim_names fw f zw zw' :
  copy_verbatim fw f zw = Some zw' → entry_names zw' = entry_names zw.
Proof.
  unfold copy_verbatim, io.Copy. destruct (zip.Open f) as [rc|e]; [|done].
  destruct (io.rc_data rc) as [|b data]; simpl; [by intros ?; simplify_eq|].
  pose proof (zip_Write_names fw (b :: data) zw) as Hn.
  destruct (zip.Write fw (b :: data) zw) as [zw1 [nw [e|]]]; simpl in *.
  - by intros ?; simplify_eq.
  - destruct (bool_decide _); simpl; by intros ?; simplify_eq.
Qed.

Lemma Create_names zw name zw' w :
  zip.Create zw name = (zw', (w, None)) →
  entry_names zw' = entry_names zw ++ [name] ∧ w = Some (length (zip.dir zw)).
Proof. unfold zip.Create. intros Hc. by apply CreateHeader_names in Hc. Qed.

Lemma copy_resources_names (files : gmap string zip.File) resources zw zw' :
  (∀ k f, files !! k = Some f → zip.Name (zip.header f) = k) →
  copy_resources files resources zw = Some (zw', None) →
  entry_names zw' = entry_names zw ++ (rwpm.Link_Href <$> resources).
Proof.
  intros Hfiles. revert zw. induction resources as [|l rest IH]; intros zw; simpl.
  { intros ?; simplify_eq. by rewrite app_nil_r. }
  destruct (files !! rwpm.Link_Href l) as [sourceFile|] eqn:Hl; simpl; [|done].
  destruct (zip.Create zw _) as [zw1 [fw [e|]]] eqn:Hc; [done|].
  apply Create_names in Hc as [Hn ->]. simpl.
  destruct (copy_verbatim _ sourceFile zw1) as [zw2|] eqn:Hv; simpl; [|done].
  apply copy_verbatim_names in Hv. intros Hrec. apply IH in Hrec.
  rewrite Hrec, Hv, Hn, (Hfiles _ _ Hl). by rewrite <-app_assoc.
Qed.

(** The writer [NewWriter] returns has an empty working reading order and
    the state [writer_inv], over a store in which the cells of the
    ancillary resources of the source are allocated; the entries of its
    archive are the W3C manifest, if the source has one, and the ancillary
    resources. *)
Lemma NewWriter_writer (h : gmap positive rwpm.Properties) W3CManifestName reader stream writer :
  (∀ a, a ∈ addresses (rwpm.Publication_Resources (RWPPReader_manifest reader)) →
        is_Some (h !! a)) →
  NewWriter W3CManifestName reader stream = Some (Some writer, None) →
  writer_inv h writer ∧
  ReadingOrder writer = [] ∧
  rwpm.Publication_Resources (RWPPWriter_manifest writer) =
    rwpm.Publication_Resources (RWPPReader_manifest reader) ∧
  entry_names (RWPPWriter_zipWriter writer) =
    match index_files (RWPPReader_zipArchive reader) !! W3CManifestName with
    | Some _ => [W3CManifestName]
    | None => []
    end ++
    (rwpm.Link_Href <$> rwpm.Publication_Resources (RWPPReader_manifest reader)).
Proof.
  intros Hal. unfold NewWriter.
  set (files := index_files (RWPPReader_zipArchive reader)).
  destruct (files !! W3CManifestName) as [w3cmanFile|] eqn:Hw3c.
  - destruct (zip.Create _ _) as [zw1 [fw [e|]]] eqn:Hc; simpl; [done|].
    apply Create_names in Hc as [Hn ->]. simpl.
    destruct (copy_verbatim _ _ zw1) as [zw2|] eqn:Hv; simpl; [|done].
    apply copy_verbatim_names in Hv.
    destruct (copy_resources _ _ zw2) as [[zw' [e|]]|] eqn:Hrs; simpl; try done.
    intros ?; simplify_eq.
    apply copy_resources_names in Hrs; [|apply index_files_Name].
    split_and!; [|done..|].
    + split; simpl; [|constructor|].
      * intros a [Ha|Ha]; [by apply elem_of_nil in Ha|auto].
      * intros a Ha. by apply elem_of_nil in Ha.
    + simpl. rewrite Hrs, Hv, Hn. done.
  - simpl.
    destruct (copy_resources _ _ _) as [[zw' [e|]]|] eqn:Hrs; simpl; try done.
    intros ?; simplify_eq.
    apply copy_resources_names in Hrs; [|apply index_files_Name].
    split_and!; [|done..].
    split; simpl; [|constructor|].
    + intros a [Ha|Ha]; [by apply elem_of_nil in Ha|auto].
    + intros a Ha. by apply elem_of_nil in Ha.
Qed.

(** The cells of the manifest of a reader are allocated in the store
    [NewRWPPReader] leaves. *)
Lemma NewRWPPReader_alloc `{JsonCodec} h zipReader h' reader :
  NewRWPPReader h zipReader = (h', (Some reader, None)) →
  ∀ a,
    a ∈ addresses (rwpm.Publication_ReadingOrder (RWPPReader_manifest reader)) ∨
    a ∈ addresses (rwpm.Publication_Resources (RWPPReader_manifest reader)) →
    is_Some (h' !! a).
Proof.
  unfold NewRWPPReader. destruct (find_manifest _) as [[d|e]|]; [|done..].
  unfold alloc_Publication.
  destruct (alloc_Links h (wire.readingOrder d)) as [h1 ro] eqn:Hro.
  destruct (alloc_Links h1 (wire.resources d)) as [h2 rs] eqn:Hrs.
  intros ?; simplify_eq. simpl.
  destruct (alloc_Links_spec _ _ _ _ Hro) as (_ & _ & Ha1).
  destruct (alloc_Links_spec _ _ _ _ Hrs) as (_ & Hf2 & Ha2).
  intros a [Ha|Ha]; [|by apply Ha2].
  rewrite Hf2; by apply Ha1.
Qed.

(** Every state a writer goes through, from [NewWriter] on, is a state
    [writer_inv]. *)
Lemma writer_inv_reachable (h : gmap positive rwpm.Properties)
    W3CManifestName reader stream writer0 cs h' writer' wc :
  (∀ a, a ∈ addresses (rwpm.Publication_Resources (RWPPReader_manifest reader)) →
        is_Some (h !! a)) →
  NewWriter W3CManifestName reader stream = Some (Some writer0, None) →
  do_calls (h, writer0, None) cs = Some (h', writer', wc) →
  writer_inv h' writer'.
Proof.
  intros Hal Hnew Hcalls.
  apply (NewWriter_writer h) in Hnew as (Hinv & _); [|done].
  by apply do_calls_spec in Hcalls as (? & _).
Qed.

(** * Further properties of the package writer *)

(** ** [MarkAsEncrypted], composed *)

Lemma mark_first_twice path e1 e2 ls :
  mark_first path e2 (mark_first path e1 ls) = mark_first path e2 ls.
Proof.
  induction ls as [|l rest IH]; [done|]. simpl.
  destruct (decide (path = wire.href l)) as [Heq|Hne]; simpl.
  - by rewrite decide_True.
  - rewrite decide_False by done. by rewrite IH.
Qed.

Lemma mark_first_comm p q e e' ls :
  p ≠ q →
  mark_first p e (mark_first q e' ls) = mark_first q e' (mark_first p e ls).
Proof.
  intros Hpq. induction ls as [|l rest IH]; [done|]. simpl.
  destruct (decide (q = wire.href l)) as [Hq|Hq];
    destruct (decide (p = wire.href l)) as [Hp|Hp]; simpl.
  - congruence.
  - rewrite decide_False by done. by rewrite decide_True.
  - rewrite decide_True by done. by rewrite decide_False.
  - rewrite !decide_False by done. by rewrite IH.
Qed.

Lemma mark_first_snoc_new path e ls l :
  (∀ x, x ∈ ls → wire.href x ≠ path) → wire.href l = path →
  mark_first path e (ls ++ [l]) = ls ++ [marked e l].
Proof.
  intros Hno Hl. induction ls as [|x rest IH]; simpl.
  - by rewrite decide_True.
  - rewrite decide_False.
    + rewrite IH; [done|]. intros y Hy. apply Hno. by right.
    + intros Heq. eapply Hno; [by left|done].
Qed.

Lemma mark_first_lookup path e ls i l :
  ls !! i = Some l →
  ∃ l', mark_first path e ls !! i = Some l' ∧
        wire.href l' = wire.href l ∧ wire.type l' = wire.type l ∧
        (is_Some (wire.encrypted l) → is_Some (wire.encrypted l')).
Proof.
  revert i. induction ls as [|x rest IH]; intros i Hi; [done|]. simpl.
  destruct (decide (path = wire.href x)) as [Heq|Hne].
  - destruct i as [|i]; simpl in *.
    + simplify_eq. eexists. split; [done|]. split_and!; [done..|]. intros _. by eexists.
    + eauto.
  - destruct i as [|i]; simpl in *.
    + simplify_eq. eauto.
    + by apply IH.
Qed.

Lemma working_writer_inv : writer_inv scenario.marked_store scenario.working_writer.
Proof.
  split; simpl.
  - intros a [Ha|Ha].
    + apply list_elem_of_singleton in Ha. subst a. by eexists.
    + by apply elem_of_nil in Ha.
  - apply NoDup_singleton.
  - intros a _ Ha. by apply elem_of_nil in Ha.
Qed.

(** X1. Two calls of [MarkAsEncrypted] with the same path leave the
    manifest as the second call alone does: the record of the first link of
    that href is replaced, no other link is reached, and the original
    size given is not recorded. *)
Theorem MarkAsEncrypted_last_call_wins h writer path size1 profile1 algorithm1
    size2 profile2 algorithm2 :
  writer_inv h writer →
  let s1 := MarkAsEncrypted h writer path size1 profile1 algorithm1 in
  let s2 := MarkAsEncrypted s1.1 s1.2 path size2 profile2 algorithm2 in
  let s := MarkAsEncrypted h writer path size2 profile2 algorithm2 in
  view_Publication s2.1 (RWPPWriter_manifest s2.2) =
    view_Publication s.1 (RWPPWriter_manifest s.2) ∧
  RWPPWriter_zipWriter s2.2 = RWPPWriter_zipWriter writer.
Proof.
  intros Hinv. cbv zeta.
  destruct (MarkAsEncrypted h writer path size1 profile1 algorithm1) as [h1 w1] eqn:H1.
  cbn [fst snd].
  destruct (MarkAsEncrypted h1 w1 path size2 profile2 algorithm2) as [h2 w2] eqn:H2.
  destruct (MarkAsEncrypted h writer path size2 profile2 algorithm2) as [h3 w3] eqn:H3.
  pose proof (MarkAsEncrypted_inv _ _ _ _ _ _ _ _ Hinv H1) as Hinv1.
  destruct (MarkAsEncrypted_view _ _ _ _ _ _ _ _ Hinv H1) as [Hz1 Hv1].
  destruct (MarkAsEncrypted_view _ _ _ _ _ _ _ _ Hinv1 H2) as [Hz2 Hv2].
  destruct (MarkAsEncrypted_view _ _ _ _ _ _ _ _ Hinv H3) as [Hz3 Hv3].
  simpl. split; [|congruence].
  rewrite Hv2, Hv3, Hv1. simpl. by rewrite mark_first_twice.
Qed.

Lemma MarkAsEncrypted_last_call_wins_witness :
  let s1 := MarkAsEncrypted scenario.marked_store scenario.working_writer "b.html" 8
              scenario.basic "AES-CBC" in
  let s2 := MarkAsEncrypted s1.1 s1.2 "b.html" 9 (license.mkEncryptionProfile "1.0")
              "AES-GCM" in
  let s := MarkAsEncrypted scenario.marked_store scenario.working_writer "b.html" 9
             (license.mkEncryptionProfile "1.0") "AES-GCM" in
  view_Publication s2.1 (RWPPWriter_manifest s2.2) =
    view_Publication s.1 (RWPPWriter_manifest s.2) ∧
  RWPPWriter_zipWriter s2.2 = RWPPWriter_zipWriter scenario.working_writer.
Proof.
  apply (MarkAsEncrypted_last_call_wins scenario.marked_store scenario.working_writer).
  apply working_writer_inv.
Defined.

(** X2. Calls of [MarkAsEncrypted] with two different paths commute: the
    manifest is the same in either order. *)
Theorem MarkAsEncrypted_commutes h writer path1 size1 profile1 algorithm1
    path2 size2 profile2 algorithm2 :
  writer_inv h writer →
  path1 ≠ path2 →
  let a := MarkAsEncrypted h writer path1 size1 profile1 algorithm1 in
  let ab := MarkAsEncrypted a.1 a.2 path2 size2 profile2 algorithm2 in
  let b := MarkAsEncrypted h writer path2 size2 profile2 algorithm2 in
  let ba := MarkAsEncrypted b.1 b.2 path1 size1 profile1 algorithm1 in
  view_Publication ab.1 (RWPPWriter_manifest ab.2) =
    view_Publication ba.1 (RWPPWriter_manifest ba.2) ∧
  RWPPWriter_zipWriter ab.2 = RWPPWriter_zipWriter ba.2.
Proof.
  intros Hinv Hne. cbv zeta.
  destruct (MarkAsEncrypted h writer path1 size1 profile1 algorithm1) as [h1 w1] eqn:H1.
  cbn [fst snd].
  destruct (MarkAsEncrypted h1 w1 path2 size2 profile2 algorithm2) as [h12 w12] eqn:H12.
  destruct (MarkAsEncrypted h writer path2 size2 profile2 algorithm2) as [h2 w2] eqn:H2.
  cbn [fst snd].
  destruct (MarkAsEncrypted h2 w2 path1 size1 profile1 algorithm1) as [h21 w21] eqn:H21.
  pose proof (MarkAsEncrypted_inv _ _ _ _ _ _ _ _ Hinv H1) as Hinv1.
  pose proof (MarkAsEncrypted_inv _ _ _ _ _ _ _ _ Hinv H2) as Hinv2.
  destruct (MarkAsEncrypted_view _ _ _ _ _ _ _ _ Hinv H1) as [Hz1 Hv1].
  destruct (MarkAsEncrypted_view _ _ _ _ _ _ _ _ Hinv1 H12) as [Hz12 Hv12].
  destruct (MarkAsEncrypted_view _ _ _ _ _ _ _ _ Hinv H2) as [Hz2 Hv2].
  destruct (MarkAsEncrypted_view _ _ _ _ _ _ _ _ Hinv2 H21) as [Hz21 Hv21].
  simpl. split; [|congruence].
  rewrite Hv12, Hv21, Hv1, Hv2. simpl. f_equal. by apply mark_first_comm.
Qed.

Lemma MarkAsEncrypted_commutes_witness :
  let a := MarkAsEncrypted scenario.marked_store scenario.working_writer "b.html" 8
             scenario.basic "AES-CBC" in
  let ab := MarkAsEncrypted a.1 a.2 "a.html" 9 (license.mkEncryptionProfile "1.0")
              "AES-GCM" in
  let b := MarkAsEncrypted scenario.marked_store scenario.working_writer "a.html" 9
             (license.mkEncryptionProfile "1.0") "AES-GCM" in
  let ba := MarkAsEncrypted b.1 b.2 "b.html" 8 scenario.basic "AES-CBC" in
  view_Publication ab.1 (RWPPWriter_manifest ab.2) =
    view_Publication ba.1 (RWPPWriter_manifest ba.2) ∧
  RWPPWriter_zipWriter ab.2 = RWPPWriter_zipWriter ba.2.
Proof.
  apply (MarkAsEncrypted_commutes scenario.marked_store scenario.working_writer).
  - apply working_writer_inv.
  - discriminate.
Defined.

(** X3. The sequence of the driver for an encrypted resource, [NewFile]
    then [MarkAsEncrypted] with the same path: when no link of the working
    reading order has this href yet, the reading order gains one link, the
    last, of this href and type and with the encryption record, and its
    other links are as before; this holds whether or not [NewFile] could
    create the entry. *)
Theorem NewFile_then_MarkAsEncrypted h writer path contentType storageMethod
    originalSize profile algorithm :
  writer_inv h writer →
  (∀ l, l ∈ ReadingOrder writer → rwpm.Link_Href l ≠ path) →
  let writer1 := (NewFile writer path contentType storageMethod).1 in
  let s := MarkAsEncrypted h writer1 path originalSize profile algorithm in
  wire.readingOrder (view_Publication s.1 (RWPPWriter_manifest s.2)) =
    wire.readingOrder (view_Publication h (RWPPWriter_manifest writer)) ++
    [ {| wire.href := path; wire.type := contentType;
         wire.properties :=
           Some {| rwpm.Properties_Encrypted :=
                     Some {| rwpm.Encrypted_Scheme := "http://readium.org/2014/01/lcp";
                             rwpm.Encrypted_Profile := license.String profile;
                             rwpm.Encrypted_Algorithm := algorithm |} |} |} ] ∧
  RWPPWriter_zipWriter s.2 = RWPPWriter_zipWriter writer1.
Proof.
  intros Hinv Hnew. cbv zeta.
  pose proof (NewFile_inv h writer path contentType storageMethod Hinv) as Hinv1.
  pose proof (NewFile_ReadingOrder writer path contentType storageMethod) as Hro.
  destruct (MarkAsEncrypted h _ path originalSize profile algorithm) as [h2 w2] eqn:Hm.
  destruct (MarkAsEncrypted_view _ _ _ _ _ _ _ _ Hinv1 Hm) as [Hz Hv].
  cbn [fst snd]. split; [|done]. rewrite Hv. simpl.
  unfold ReadingOrder in Hro. rewrite Hro, fmap_app. simpl.
  rewrite mark_first_snoc_new; [done| |done].
  intros x Hx. apply list_elem_of_fmap in Hx as (l & -> & Hl). simpl. by apply Hnew.
Qed.

Lemma NewFile_then_MarkAsEncrypted_witness :
  let writer1 := (NewFile scenario.working_writer "c.html" "text/html" zip.Deflate).1 in
  let s := MarkAsEncrypted scenario.marked_store writer1 "c.html" 8 scenario.basic
             "AES-CBC" in
  wire.readingOrder (view_Publication s.1 (RWPPWriter_manifest s.2)) =
    wire.readingOrder
      (view_Publication scenario.marked_store
         (RWPPWriter_manifest scenario.working_writer)) ++
    [ {| wire.href := "c.html"; wire.type := "text/html";
         wire.properties :=
           Some {| rwpm.Properties_Encrypted :=
                     Some {| rwpm.Encrypted_Scheme := "http://readium.org/2014/01/lcp";
                             rwpm.Encrypted_Profile := license.String scenario.basic;
                             rwpm.Encrypted_Algorithm := "AES-CBC" |} |} |} ] ∧
  RWPPWriter_zipWriter s.2 = RWPPWriter_zipWriter writer1.
Proof.
  apply (NewFile_then_MarkAsEncrypted scenario.marked_store scenario.working_writer).
  - apply working_writer_inv.
  - intros l Hl. simpl in Hl.
    repeat (apply elem_of_cons in Hl as [->|Hl]; [discriminate|]).
    by apply elem_of_nil in Hl.
Defined.

(** X4. What [MarkAsEncrypted] never does, whatever the path: it keeps the
    number of the links of the working reading order, the href and the type
    of each, and the encryption record of a link that has one is never
    taken away; the ancillary resources, the title and the archive are
    untouched. *)
Theorem MarkAsEncrypted_keeps_links h writer path originalSize profile algorithm :
  writer_inv h writer →
  let s := MarkAsEncrypted h writer path originalSize profile algorithm in
  let before := view_Publication h (RWPPWriter_manifest writer) in
  let after := view_Publication s.1 (RWPPWriter_manifest s.2) in
  length (wire.readingOrder after) = length (wire.readingOrder before) ∧
  (∀ i l, wire.readingOrder before !! i = Some l →
     ∃ l', wire.readingOrder after !! i = Some l' ∧
           wire.href l' = wire.href l ∧ wire.type l' = wire.type l ∧
           (is_Some (wire.encrypted l) → is_Some (wire.encrypted l'))) ∧
  wire.resources after = wire.resources before ∧
  wire.title after = wire.title before ∧
  RWPPWriter_zipWriter s.2 = RWPPWriter_zipWriter writer.
Proof.
  intros Hinv. cbv zeta.
  destruct (MarkAsEncrypted h writer path originalSize profile algorithm) as [h1 w1] eqn:Hm.
  destruct (MarkAsEncrypted_view _ _ _ _ _ _ _ _ Hinv Hm) as [Hz Hv].
  cbn [fst snd]. rewrite Hv. simpl. split_and!; [|  |done..].
  - apply mark_first_length.
  - intros i l Hl. by apply mark_first_lookup.
Qed.

Lemma MarkAsEncrypted_keeps_links_witness :
  let s := MarkAsEncrypted scenario.marked_store scenario.working_writer "a.html" 8
             (license.mkEncryptionProfile "1.0") "AES-GCM" in
  let before :=
    view_Publication scenario.marked_store (RWPPWriter_manifest scenario.working_writer) in
  let after := view_Publication s.1 (RWPPWriter_manifest s.2) in
  length (wire.readingOrder after) = length (wire.readingOrder before) ∧
  (∀ i l, wire.readingOrder before !! i = Some l →
     ∃ l', wire.readingOrder after !! i = Some l' ∧
           wire.href l' = wire.href l ∧ wire.type l' = wire.type l ∧
           (is_Some (wire.encrypted l) → is_Some (wire.encrypted l'))) ∧
  wire.resources after = wire.resources before ∧
  wire.title after = wire.title before ∧
  RWPPWriter_zipWriter s.2 = RWPPWriter_zipWriter scenario.working_writer.
Proof.
  apply (MarkAsEncrypted_keeps_links scenario.marked_store scenario.working_writer).
  apply working_writer_inv.
Defined.

(** ** The archive on a destination without failure *)

Lemma no_failure_next zw : no_failure (zip.outcomes zw) → zip.next_outcome zw = None.
Proof.
  unfold no_failure, zip.next_outcome. destruct (zip.outcomes zw) as [|o rest]; [done|].
  intros Hq. apply Hq. by left.
Qed.

Lemma no_failure_tail outcomes : no_failure outcomes → no_failure (tail outcomes).
Proof.
  unfold no_failure. destruct outcomes as [|o rest]; [done|]. simpl.
  intros Hq o' Ho'. apply Hq. by right.
Qed.

Lemma CreateHeader_no_failure zw fh :
  no_failure (zip.outcomes zw) →
  zip.compressor (zip.Method fh) = true →
  ∃ zw', zip.CreateHeader zw fh = (zw', (Some (length (zip.dir zw)), None)) ∧
         zip.dir zw' = zip.dir zw ++ [(fh, [])] ∧
         zip.closed zw' = zip.closed zw ∧
         no_failure (zip.outcomes zw').
Proof.
  intros Hq Hm. unfold zip.CreateHeader. rewrite (no_failure_next _ Hq), Hm.
  eexists. split; [done|]. simpl. split_and!; [done..|]. by apply no_failure_tail.
Qed.

Lemma Write_no_failure zw d fh old data :
  zip.closed zw = false → no_failure (zip.outcomes zw) →
  zip.dir zw = d ++ [(fh, old)] →
  ∃ zw', zip.Write (length d) data zw = (zw', (Z.of_nat (length data), None)) ∧
         zip.dir zw' = d ++ [(fh, old ++ data)] ∧
         zip.closed zw' = false ∧
         no_failure (zip.outcomes zw').
Proof.
  intros Hc Hq Hd. unfold zip.Write.
  rewrite Hd, length_app, Hc. simpl.
  rewrite bool_decide_eq_true_2 by lia. simpl.
  rewrite (no_failure_next _ Hq).
  eexists. split; [done|]. simpl. split_and!; [|done|by apply no_failure_tail].
  replace (length d) with (length d + 0) by lia. by rewrite alter_app_r.
Qed.

(** [io.Copy] to the last entry of an archive: the bytes of the source are
    added to the entry, and the result is the error of the source. *)
Lemma Copy_no_failure {W} (get : W → zip.Writer) (set : W → zip.Writer → W)
    (dst : io.Writer W) (s : W) rc d fh :
  (∀ data s0, io.Write dst data s0 =
              Some (set s0 (zip.Write (length d) data (get s0)).1,
                    (zip.Write (length d) data (get s0)).2)) →
  set s (get s) = s →
  zip.closed (get s) = false → no_failure (zip.outcomes (get s)) →
  zip.dir (get s) = d ++ [(fh, [])] →
  ∃ zw' n,
    io.Copy dst rc s = Some (set s zw', (n, io.rc_err rc)) ∧
    zip.dir zw' = d ++ [(fh, io.rc_data rc)] ∧
    zip.closed zw' = false ∧ no_failure (zip.outcomes zw').
Proof.
  intros Hdst Hset Hc Hq Hd. unfold io.Copy.
  destruct (io.rc_data rc) as [|b data] eqn:Hdata.
  { exists (get s), 0%Z. rewrite Hset. done. }
  rewrite Hdst.
  destruct (Write_no_failure (get s) d fh [] (b :: data) Hc Hq Hd)
    as (zw' & Hw & Hd' & Hc' & Hq').
  rewrite Hw. simpl. rewrite bool_decide_eq_true_2 by done.
  by eexists _, _.
Qed.

(** ** [CopyTo] into a [RWPPWriter] *)

Lemma entry_Writer_Write i data writer :
  io.Write (io.as_Writer (NopWriteCloser_stream (mkNopWriteCloser (Some (entry_Writer i)))))
    data writer =
  Some (set_zipWriter writer (zip.Write i data (RWPPWriter_zipWriter writer)).1,
        (zip.Write i data (RWPPWriter_zipWriter writer)).2).
Proof.
  simpl. unfold NopWriteCloser_Write. simpl. by destruct (zip.Write _ _ _).
Qed.

(** X5. [CopyTo] into a [RWPPWriter] whose destination does not fail, of
    a resource whose entry has a storage method with a compressor ([Store]
    or [Deflate]): the archive gains one entry, of the name and the storage
    method of the source entry, holding the bytes the source stream yields;
    the working
    reading order gains the link of this name and of the content type of
    the resource; the error returned is the one of the reading of the
    source, or else the one of its [Close], and never one of the
    destination. *)
Theorem CopyTo_RWPPWriter_copies `{JsonCodec} resource writer f rc :
  file resource = Some f →
  zip.Open f = inl rc →
  zip.compressor (zip.Method (zip.header f)) = true →
  zip.closed (RWPPWriter_zipWriter writer) = false →
  no_failure (zip.outcomes (RWPPWriter_zipWriter writer)) →
  ∃ writer',
    CopyTo resource writer =
      Some (writer', match io.rc_err rc with
                     | Some e => Some e
                     | None => io.rc_Close rc
                     end) ∧
    ReadingOrder writer' =
      ReadingOrder writer ++
        [ {| rwpm.Link_Href := zip.Name (zip.header f);
             rwpm.Link_Type := contentType resource;
             rwpm.Link_Properties := None |} ] ∧
    zip.dir (RWPPWriter_zipWriter writer') =
      zip.dir (RWPPWriter_zipWriter writer) ++
        [ ({| zip.Name := zip.Name (zip.header f);
              zip.Method := zip.Method (zip.header f);
              zip.UncompressedSize64 := 0 |}, io.rc_data rc) ].
Proof.
  intros Hf Hopen Hm Hc Hq. unfold CopyTo, Path. rewrite Hf. simpl. unfold NewFile.
  destruct (CreateHeader_no_failure (RWPPWriter_zipWriter writer)
              {| zip.Name := zip.Name (zip.header f);
                 zip.Method := zip.Method (zip.header f);
                 zip.UncompressedSize64 := 0 |} Hq Hm) as (zw1 & Hch & Hd1 & Hc1 & Hq1).
  rewrite Hch. simpl. rewrite Hopen.
  set (writer1 := {| RWPPWriter_manifest := _; RWPPWriter_zipWriter := zw1 |}).
  destruct (Copy_no_failure RWPPWriter_zipWriter set_zipWriter
              (io.as_Writer (NopWriteCloser_stream
                 (mkNopWriteCloser (Some (entry_Writer
                    (length (zip.dir (RWPPWriter_zipWriter writer))))))))
              writer1 rc (zip.dir (RWPPWriter_zipWriter writer))
              {| zip.Name := zip.Name (zip.header f);
                 zip.Method := zip.Method (zip.header f);
                 zip.UncompressedSize64 := 0 |})
    as (zw2 & n & Hcopy & Hd2 & Hc2 & Hq2).
  { intros data s0. apply entry_Writer_Write. }
  { done. }
  { simpl. by rewrite <-Hc. }
  { done. }
  { done. }
  rewrite Hcopy. simpl.
  exists (set_zipWriter writer1 zw2). split; [|done].
  by destruct (io.rc_err rc), (io.rc_Close rc).
Qed.

Lemma CopyTo_RWPPWriter_copies_witness :
  ∃ writer',
    CopyTo (H := RWPPWriter_PackageWriter (H := sample_json.codec))
      cases.a_html scenario.writer =
      Some (writer', match io.rc_err cases.a_html_stream with
                     | Some e => Some e
                     | None => io.rc_Close cases.a_html_stream
                     end) ∧
    ReadingOrder writer' =
      ReadingOrder scenario.writer ++
        [ {| rwpm.Link_Href := "a.html";
             rwpm.Link_Type := contentType cases.a_html;
             rwpm.Link_Properties := None |} ] ∧
    zip.dir (RWPPWriter_zipWriter writer') =
      zip.dir (RWPPWriter_zipWriter scenario.writer) ++
        [ ({| zip.Name := "a.html"; zip.Method := zip.Deflate;
              zip.UncompressedSize64 := 0 |}, io.rc_data cases.a_html_stream) ].
Proof.
  apply (CopyTo_RWPPWriter_copies (H := sample_json.codec) cases.a_html scenario.writer
           (scenario.source_file "a.html" (scenario.content "<p>a</p>"))
           cases.a_html_stream); try reflexivity.
  intros o Ho. by apply elem_of_nil in Ho.
Defined.



(** ** [NewWriter] on a destination without failure *)

Lemma copy_verbatim_no_failure fw f zw d fh rc :
  zip.Open f = inl rc → fw = length d →
  zip.closed zw = false → no_failure (zip.outcomes zw) →
  zip.dir zw = d ++ [(fh, [])] →
  ∃ zw', copy_verbatim fw f zw = Some zw' ∧
         zip.dir zw' = d ++ [(fh, io.rc_data rc)] ∧
         zip.closed zw' = false ∧ no_failure (zip.outcomes zw').
Proof.
  intros Hopen -> Hc Hq Hd. unfold copy_verbatim. rewrite Hopen.
  destruct (Copy_no_failure (λ z, z) (λ _ z, z)
              {| io.Write := λ data s, Some (zip.Write (length d) data s) |}
              zw rc d fh) as (zw' & n & Hcopy & Hd' & Hc' & Hq'); try done.
  { intros data s0. simpl. by destruct (zip.Write _ _ _). }
  rewrite Hcopy. simpl. by exists zw'.
Qed.

Lemma copy_resources_no_failure (files : gmap string zip.File) resources : ∀ zw,
  (∀ k f, files !! k = Some f → zip.Name (zip.header f) = k) →
  (∀ l, l ∈ resources → opens files (rwpm.Link_Href l)) →
  zip.closed zw = false → no_failure (zip.outcomes zw) →
  ∃ zw', copy_resources files resources zw = Some (zw', None) ∧
         zip.dir zw' =
           zip.dir zw ++ omap (seeded_entry files) (rwpm.Link_Href <$> resources) ∧
         zip.closed zw' = false ∧ no_failure (zip.outcomes zw').
Proof.
  induction resources as [|l rest IH]; intros zw Hfiles Hopens Hc Hq; simpl.
  { exists zw. by rewrite app_nil_r. }
  destruct (Hopens l) as (f & rc & Hl & Hopen); [by left|].
  rewrite Hl. simpl. rewrite (Hfiles _ _ Hl). unfold zip.Create.
  destruct (CreateHeader_no_failure zw
              {| zip.Name := rwpm.Link_Href l; zip.Method := zip.Deflate;
                 zip.UncompressedSize64 := 0 |} Hq eq_refl) as (zw1 & Hch & Hd1 & Hc1 & Hq1).
  rewrite Hch. simpl.
  destruct (copy_verbatim_no_failure (length (zip.dir zw)) f zw1 (zip.dir zw)
              {| zip.Name := rwpm.Link_Href l; zip.Method := zip.Deflate;
                 zip.UncompressedSize64 := 0 |} rc
              Hopen eq_refl) as (zw2 & Hv & Hd2 & Hc2 & Hq2); [congruence|done..|].
  rewrite Hv. simpl.
  destruct (IH zw2) as (zw' & Hrec & Hd' & Hc' & Hq'); [done| |done..|].
  { intros l' Hl'. apply Hopens. by right. }
  exists zw'. split; [done|]. split; [|done].
  rewrite Hd', Hd2. unfold seeded_entry at 2. rewrite Hl. simpl.
  unfold stream_data. rewrite Hopen. by rewrite <-app_assoc.
Qed.

(** X7. [NewWriter] on a destination that does not fail, when every entry
    it copies (the W3C manifest if the source has one, and each ancillary
    resource of the source manifest) is in the source archive and opens:
    it returns a writer and no error; the manifest of the writer is the one
    of the source with an empty reading order; the archive holds exactly
    these entries, in this order, each under the href and holding the bytes
    its source stream yields, with the method [Deflate] whatever the method
    of the source entry; an error of the reading of a source stream is not
    reported. *)
Theorem NewWriter_copies W3CManifestName reader stream :
  no_failure stream →
  (∀ name, name ∈ referenced W3CManifestName reader →
           opens (index_files (RWPPReader_zipArchive reader)) name) →
  ∃ writer,
    NewWriter W3CManifestName reader stream = Some (Some writer, None) ∧
    RWPPWriter_manifest writer = set_ReadingOrder (RWPPReader_manifest reader) [] ∧
    zip.dir (RWPPWriter_zipWriter writer) =
      omap (seeded_entry (index_files (RWPPReader_zipArchive reader)))
           (referenced W3CManifestName reader) ∧
    zip.closed (RWPPWriter_zipWriter writer) = false.
Proof.
  intros Hq Hopens. unfold NewWriter, referenced in *.
  set (files := index_files (RWPPReader_zipArchive reader)) in *.
  assert (∀ k f, files !! k = Some f → zip.Name (zip.header f) = k) as Hfiles
    by apply index_files_Name.
  destruct (files !! W3CManifestName) as [w3cmanFile|] eqn:Hw3c.
  - destruct (Hopens W3CManifestName) as (f & rc & Hf & Hopen); [by left|].
    assert (f = w3cmanFile) as -> by congruence.
    unfold zip.Create.
    destruct (CreateHeader_no_failure (zip.NewWriter stream)
                {| zip.Name := W3CManifestName; zip.Method := zip.Deflate;
                   zip.UncompressedSize64 := 0 |} Hq eq_refl) as (zw1 & Hch & Hd1 & Hc1 & Hq1).
    rewrite Hch. simpl.
    destruct (copy_verbatim_no_failure 0 w3cmanFile zw1 []
                {| zip.Name := W3CManifestName; zip.Method := zip.Deflate;
                   zip.UncompressedSize64 := 0 |} rc Hopen eq_refl)
      as (zw2 & Hv & Hd2 & Hc2 & Hq2); [done..|].
    rewrite Hv. simpl.
    destruct (copy_resources_no_failure files
                (rwpm.Publication_Resources (RWPPReader_manifest reader)) zw2)
      as (zw' & Hrec & Hd' & Hc' & Hq'); [done| |done..|].
    { intros l Hl. apply Hopens. right. apply list_elem_of_fmap. by exists l. }
    rewrite Hrec. simpl. eexists. split; [done|]. simpl. split_and!; [done| |done].
    rewrite Hd', Hd2. unfold seeded_entry at 2. rewrite Hw3c. simpl.
    unfold stream_data. by rewrite Hopen.
  - simpl.
    destruct (copy_resources_no_failure files
                (rwpm.Publication_Resources (RWPPReader_manifest reader))
                (zip.NewWriter stream))
      as (zw' & Hrec & Hd' & Hc' & Hq'); [done| |done..|].
    { intros l Hl. apply Hopens. simpl. apply list_elem_of_fmap. by exists l. }
    rewrite Hrec. simpl. eexists. split; [done|]. simpl. by split_and!.
Qed.

Lemma NewWriter_copies_witness :
  ∃ writer,
    NewWriter "publication.json" scenario.reader [] = Some (Some writer, None) ∧
    RWPPWriter_manifest writer =
      set_ReadingOrder (RWPPReader_manifest scenario.reader) [] ∧
    zip.dir (RWPPWriter_zipWriter writer) =
      omap (seeded_entry (index_files (RWPPReader_zipArchive scenario.reader)))
           (referenced "publication.json" scenario.reader) ∧
    zip.closed (RWPPWriter_zipWriter writer) = false.
Proof.
  apply (NewWriter_copies "publication.json" scenario.reader []).
  - intros o Ho. by apply elem_of_nil in Ho.
  - intros name Hname. vm_compute in Hname.
    apply list_elem_of_singleton in Hname. subst name.
    eexists _, _. split; vm_compute; reflexivity.
Defined.

Lemma copy_resources_panics (files : gmap string zip.File) resources : ∀ zw,
  (∃ l, l ∈ resources ∧ ¬ opens files (rwpm.Link_Href l)) →
  zip.closed zw = false → no_failure (zip.outcomes zw) →
  copy_resources files resources zw = None.
Proof.
  induction resources as [|l rest IH]; intros zw (bad & Hin & Hbad) Hc Hq.
  { by apply elem_of_nil in Hin. }
  simpl. destruct (files !! rwpm.Link_Href l) as [f|] eqn:Hl; simpl; [|done].
  unfold zip.Create.
  destruct (CreateHeader_no_failure zw
              {| zip.Name := zip.Name (zip.header f); zip.Method := zip.Deflate;
                 zip.UncompressedSize64 := 0 |} Hq eq_refl) as (zw1 & Hch & Hd1 & Hc1 & Hq1).
  rewrite Hch. simpl.
  destruct (zip.Open f) as [rc|e] eqn:Hopen.
  - destruct (copy_verbatim_no_failure (length (zip.dir zw)) f zw1 (zip.dir zw)
                {| zip.Name := zip.Name (zip.header f); zip.Method := zip.Deflate;
                   zip.UncompressedSize64 := 0 |} rc Hopen eq_refl)
      as (zw2 & Hv & Hd2 & Hc2 & Hq2); [congruence|done..|].
    rewrite Hv. simpl. apply IH; [|done..].
    apply elem_of_cons in Hin as [->|Hin]; [|by exists bad].
    exfalso. apply Hbad. by exists f, rc.
  - unfold copy_verbatim. by rewrite Hopen.
Qed.



(** ** The resources and the entries of the archive *)

Lemma index_files_fold fs : ∀ (files : gmap string zip.File) name,
  foldl (λ files file, <[zip.Name (zip.header file) := file]> files) files fs !! name =
  match last (filter (λ f, zip.Name (zip.header f) = name) fs) with
  | Some f => Some f
  | None => files !! name
  end.
Proof.
  induction fs as [|file fs IH]; intros files name; simpl; [done|].
  rewrite IH. rewrite filter_cons.
  destruct (decide (zip.Name (zip.header file) = name)) as [Heq|Hne].
  - destruct (filter _ fs) as [|g gs] eqn:Hfilter.
    + simpl. rewrite <-Heq. by rewrite lookup_insert_eq.
    + rewrite last_cons_cons.
      destruct (last (g :: gs)) eqn:Hlast; [done|]. by apply last_None in Hlast.
  - destruct (last (filter _ fs)); [done|]. by rewrite lookup_insert_ne.
Qed.

(** X9. The index of the entries by name, from which [Resources] and
    [NewWriter] take the entry of an href: a name is bound to the last
    entry of the archive that has it, and to none when no entry has it.
    (The reader of the manifest, on the contrary, takes the first entry
    named [manifest.json].) *)
Theorem index_files_last zipArchive name :
  index_files zipArchive !! name =
  last (filter (λ f, zip.Name (zip.header f) = name) (zip.Files zipArchive)).
Proof.
  unfold index_files. rewrite index_files_fold.
  destruct (last _); [done|]. apply lookup_empty.
Qed.

(** X10. A link of the reading order whose href names no entry of the
    archive still gets its resource from [Resources], with a nil file: on
    this resource [Path], [Size] and [Open] panic, and so does [CopyTo],
    whatever the writer, before anything is written. *)
Theorem Resources_missing_entry {W} `{PackageWriter W} h reader i link (packageWriter : W) :
  rwpm.Publication_ReadingOrder (RWPPReader_manifest reader) !! i = Some link →
  (∀ f, f ∈ zip.Files (RWPPReader_zipArchive reader) →
        zip.Name (zip.header f) ≠ rwpm.Link_Href link) →
  ∃ resource,
    Resources h reader !! i = Some resource ∧
    file resource = None ∧
    ContentType resource = rwpm.Link_Type link ∧
    Path resource = None ∧ Size resource = None ∧ Open resource = None ∧
    CopyTo resource packageWriter = None.
Proof.
  intros Hi Hno. rewrite Resources_fmap, list_lookup_fmap, Hi. simpl.
  eexists. split; [done|].
  assert (index_files (RWPPReader_zipArchive reader) !! rwpm.Link_Href link = None) as Hnone.
  { unfold index_files. rewrite index_files_fold.
    assert (filter (λ f, zip.Name (zip.header f) = rwpm.Link_Href link)
                   (zip.Files (RWPPReader_zipArchive reader)) = []) as ->;
      [|apply lookup_empty].
    induction (zip.Files (RWPPReader_zipArchive reader)) as [|f fs IH]; [done|].
    rewrite filter_cons, decide_False; [|apply Hno; by left].
    apply IH. intros g Hg. apply Hno. by right. }
  unfold Path, Size, Open, CopyTo, Path, ContentType. simpl. rewrite Hnone. done.
Qed.

Lemma Resources_missing_entry_witness :
  ∃ resource,
    Resources ∅ cases.orphan_reader !! 1 = Some resource ∧
    file resource = None ∧
    ContentType resource = "text/html" ∧
    Path resource = None ∧ Size resource = None ∧ Open resource = None ∧
    CopyTo (H := scenario.unclosable) resource () = None.
Proof.
  apply (Resources_missing_entry (H := scenario.unclosable) ∅ cases.orphan_reader 1
           (rwpm.mkLink "missing.html" "text/html" None) ()).
  - reflexivity.
  - intros f Hf. simpl in Hf.
    repeat (apply elem_of_cons in Hf as [->|Hf]; [discriminate|]).
    by apply elem_of_nil in Hf.
Defined.

(** ** Opening a package *)

Lemma find_manifest_first `{JsonCodec} zipReader file :
  first_manifest zipReader file →
  find_manifest (zip.Files zipReader) =
  Some match zip.Open file with
       | inr e => inr e
       | inl fileReader => Decoder_Decode fileReader
       end.
Proof.
  intros (before & after & -> & Hname & Hbefore).
  rewrite find_manifest_app by done. simpl. rewrite decide_True by done.
  by destruct (zip.Open file).
Qed.

(** X11. [NewRWPPReader] on an archive whose first entry named
    [manifest.json] opens and decodes: it returns a reader on this archive
    and no error; the manifest of the reader, read through the store, is
    the document decoded, link for link; the cells that were in the store
    are as before. *)
Theorem NewRWPPReader_reads `{JsonCodec} h zipReader file rc d :
  first_manifest zipReader file →
  zip.Open file = inl rc →
  json_Decode (io.rc_data rc) = inl d →
  ∃ h' reader,
    NewRWPPReader h zipReader = (h', (Some reader, None)) ∧
    RWPPReader_zipArchive reader = zipReader ∧
    view_Publication h' (RWPPReader_manifest reader) = d ∧
    (∀ a, is_Some (h !! a) → h' !! a = h !! a).
Proof.
  intros Hfirst Hopen Hdec. unfold NewRWPPReader.
  rewrite (find_manifest_first _ _ Hfirst), Hopen. unfold Decoder_Decode. rewrite Hdec.
  destruct (alloc_Publication h d) as [h' m] eqn:Hal.
  exists h', {| RWPPReader_manifest := m; RWPPReader_zipArchive := zipReader |}.
  split_and!; [done..|by eapply alloc_Publication_view|].
  revert Hal. unfold alloc_Publication.
  destruct (alloc_Links h (wire.readingOrder d)) as [h1 ro] eqn:Hro.
  destruct (alloc_Links h1 (wire.resources d)) as [h2 rs] eqn:Hrs.
  intros ?; simplify_eq.
  destruct (alloc_Links_spec _ _ _ _ Hro) as (_ & Hf1 & _).
  destruct (alloc_Links_spec _ _ _ _ Hrs) as (_ & Hf2 & _).
  intros a Ha. rewrite Hf2; [by apply Hf1|]. by rewrite Hf1.
Qed.

Lemma NewRWPPReader_reads_witness :
  ∃ h' reader,
    NewRWPPReader (H := sample_json.codec) scenario.marked_store cases.destination_archive =
      (h', (Some reader, None)) ∧
    RWPPReader_zipArchive reader = cases.destination_archive ∧
    view_Publication h' (RWPPReader_manifest reader) = scenario.destination ∧
    (∀ a, is_Some (scenario.marked_store !! a) → h' !! a = scenario.marked_store !! a).
Proof.
  apply (NewRWPPReader_reads (H := sample_json.codec) scenario.marked_store
           cases.destination_archive cases.manifest_file
           (io.mkReadCloser
              (match sample_json.encode scenario.destination with
               | inl text => text
               | inr _ => []
               end) None None)).
  - exists [ scenario.source_file "styles.css" (scenario.content "p {}");
             scenario.source_file "a.html" (scenario.content "(a.html, encrypted)") ],
           [ scenario.source_file "b.html" (scenario.content "<p>b</p>") ].
    split; [reflexivity|]. split; [reflexivity|].
    intros f Hf. repeat (apply elem_of_cons in Hf as [->|Hf]; [discriminate|]).
    by apply elem_of_nil in Hf.
  - reflexivity.
  - vm_compute. reflexivity.
Defined.

(** X12. The first entry named [manifest.json] decides: when it does not
    open, or opens on bytes that do not decode, [NewRWPPReader] returns
    this error and no reader, and leaves the store as it is; an entry of
    the same name further in the archive is not tried. *)
Theorem NewRWPPReader_first_entry_decides `{JsonCodec} h zipReader file :
  first_manifest zipReader file →
  (∀ e, zip.Open file = inr e →
        NewRWPPReader h zipReader = (h, (None, Some e))) ∧
  (∀ rc e, zip.Open file = inl rc → json_Decode (io.rc_data rc) = inr e →
           NewRWPPReader h zipReader = (h, (None, Some (default e (io.rc_err rc))))).
Proof.
  intros Hfirst. unfold NewRWPPReader. rewrite (find_manifest_first _ _ Hfirst).
  split.
  - intros e ->. done.
  - intros rc e -> Hdec. unfold Decoder_Decode. by rewrite Hdec.
Qed.

Lemma NewRWPPReader_first_entry_decides_witness :
  (∀ e, zip.Open cases.locked_manifest = inr e →
        NewRWPPReader (H := sample_json.codec) ∅ cases.shadowed_archive =
          (∅, (None, Some e))) ∧
  (∀ rc e, zip.Open cases.locked_manifest = inl rc →
           json_Decode (JsonCodec := sample_json.codec) (io.rc_data rc) = inr e →
           NewRWPPReader (H := sample_json.codec) ∅ cases.shadowed_archive =
             (∅, (None, Some (default e (io.rc_err rc))))).
Proof.
  apply (NewRWPPReader_first_entry_decides (H := sample_json.codec) ∅
           cases.shadowed_archive cases.locked_manifest).
  exists [ scenario.source_file "a.html" (scenario.content "<p>a</p>") ],
         [ scenario.source_file "manifest.json"
             (match sample_json.encode scenario.destination with
              | inl text => text
              | inr _ => []
              end) ].
  split; [reflexivity|]. split; [reflexivity|].
  intros f Hf. apply list_elem_of_singleton in Hf. subst f. discriminate.
Defined.

(** ** [Close], on a destination without failure and on a manifest that
    does not marshal *)

(** X13. [Close] on a writer whose archive is open and whose destination
    does not fail, the manifest marshalling to [text]: no error is
    returned; the archive has one entry more, the last, named
    [manifest.json], of method [Deflate], holding [text]; the entries
    written before are untouched; the archive is closed and the manifest of
    the writer is unchanged. *)
Theorem Close_commits `{JsonCodec} h writer text :
  zip.closed (RWPPWriter_zipWriter writer) = false →
  no_failure (zip.outcomes (RWPPWriter_zipWriter writer)) →
  json_Encode (view_Publication h (RWPPWriter_manifest writer)) = inl text →
  ∃ writer',
    Close h writer = Some (writer', None) ∧
    RWPPWriter_manifest writer' = RWPPWriter_manifest writer ∧
    zip.dir (RWPPWriter_zipWriter writer') =
      zip.dir (RWPPWriter_zipWriter writer) ++
        [ ({| zip.Name := "manifest.json"; zip.Method := zip.Deflate;
              zip.UncompressedSize64 := 0 |}, text) ] ∧
    zip.closed (RWPPWriter_zipWriter writer') = true.
Proof.
  intros Hc Hq Henc. unfold Close, writeManifest, zip.Create.
  destruct (CreateHeader_no_failure (RWPPWriter_zipWriter writer)
              {| zip.Name := ManifestLocation; zip.Method := zip.Deflate;
                 zip.UncompressedSize64 := 0 |} Hq eq_refl) as (zw1 & Hch & Hd1 & Hc1 & Hq1).
  rewrite Hch. simpl. unfold Encoder_Encode. simpl. rewrite Henc. simpl.
  destruct (Write_no_failure zw1 (zip.dir (RWPPWriter_zipWriter writer))
              {| zip.Name := ManifestLocation; zip.Method := zip.Deflate;
                 zip.UncompressedSize64 := 0 |} [] text)
    as (zw2 & Hw & Hd2 & Hc2 & Hq2); [congruence|done..|].
  rewrite Hw. simpl. unfold zip.Close. rewrite Hc2. simpl.
  rewrite (no_failure_next _ Hq2).
  eexists. split; [done|]. simpl. done.
Qed.

Lemma Close_commits_witness :
  ∃ writer',
    Close (H := sample_json.codec) ∅ scenario.writer = Some (writer', None) ∧
    RWPPWriter_manifest writer' = RWPPWriter_manifest scenario.writer ∧
    zip.dir (RWPPWriter_zipWriter writer') =
      zip.dir (RWPPWriter_zipWriter scenario.writer) ++
        [ ({| zip.Name := "manifest.json"; zip.Method := zip.Deflate;
              zip.UncompressedSize64 := 0 |},
           sample_json.w_Publication
             (view_Publication ∅ (RWPPWriter_manifest scenario.writer)) ++
           sample_json.bytes nl) ] ∧
    zip.closed (RWPPWriter_zipWriter writer') = true.
Proof.
  apply (Close_commits (H := sample_json.codec) ∅ scenario.writer).
  - reflexivity.
  - intros o Ho. by apply elem_of_nil in Ho.
  - vm_compute. reflexivity.
Defined.

(** X14. [Close] on a manifest that does not marshal, the entry of the
    manifest having been created: the error of the marshalling is
    returned; the archive is left with an empty entry named
    [manifest.json] and is not closed. *)
Theorem Close_marshal_error `{JsonCodec} h writer e :
  zip.next_outcome (RWPPWriter_zipWriter writer) = None →
  json_Encode (view_Publication h (RWPPWriter_manifest writer)) = inr e →
  ∃ writer',
    Close h writer = Some (writer', Some e) ∧
    RWPPWriter_manifest writer' = RWPPWriter_manifest writer ∧
    zip.dir (RWPPWriter_zipWriter writer') =
      zip.dir (RWPPWriter_zipWriter writer) ++
        [ ({| zip.Name := "manifest.json"; zip.Method := zip.Deflate;
              zip.UncompressedSize64 := 0 |}, []) ] ∧
    zip.closed (RWPPWriter_zipWriter writer') = zip.closed (RWPPWriter_zipWriter writer).
Proof.
  intros Hn Henc. unfold Close, writeManifest, zip.Create, zip.CreateHeader.
  rewrite Hn. simpl. unfold Encoder_Encode. simpl. rewrite Henc. simpl.
  eexists. split; [done|]. done.
Qed.

Lemma Close_marshal_error_witness :
  ∃ writer',
    Close (H := cases.mute_codec) ∅ scenario.writer =
      Some (writer', Some cases.marshal_error) ∧
    RWPPWriter_manifest writer' = RWPPWriter_manifest scenario.writer ∧
    zip.dir (RWPPWriter_zipWriter writer') =
      zip.dir (RWPPWriter_zipWriter scenario.writer) ++
        [ ({| zip.Name := "manifest.json"; zip.Method := zip.Deflate;
              zip.UncompressedSize64 := 0 |}, []) ] ∧
    zip.closed (RWPPWriter_zipWriter writer') =
      zip.closed (RWPPWriter_zipWriter scenario.writer).
Proof.
  apply (Close_marshal_error (H := cases.mute_codec) ∅ scenario.writer); reflexivity.
Defined.

(** ** [Size] *)

(** X15. [Size] converts the 64-bit unsigned size of the entry to [int64]:
    it is the declared size when this is below 2^63, and a negative number,
    the size minus 2^64, from 2^63 on. *)
Theorem Size_int64 resource f :
  file resource = Some f →
  (0 ≤ zip.UncompressedSize64 (zip.header f) < 2 ^ 64)%Z →
  ∃ n, Size resource = Some n ∧
       (- 2 ^ 63 ≤ n < 2 ^ 63)%Z ∧
       ((zip.UncompressedSize64 (zip.header f) < 2 ^ 63)%Z →
        n = zip.UncompressedSize64 (zip.header f)) ∧
       ((2 ^ 63 ≤ zip.UncompressedSize64 (zip.header f))%Z →
        n = (zip.UncompressedSize64 (zip.header f) - 2 ^ 64)%Z ∧ (n < 0)%Z).
Proof.
  intros Hf Hrange. unfold Size. rewrite Hf. simpl. eexists. split; [done|].
  unfold int64_of_uint64.
  destruct (Z.ltb_spec (zip.UncompressedSize64 (zip.header f)) (2 ^ 63)); lia.
Qed.

Lemma Size_int64_witness :
  ∃ n, Size cases.huge = Some n ∧
       (- 2 ^ 63 ≤ n < 2 ^ 63)%Z ∧
       ((2 ^ 63 + 5 < 2 ^ 63)%Z → n = (2 ^ 63 + 5)%Z) ∧
       ((2 ^ 63 ≤ 2 ^ 63 + 5)%Z → n = (2 ^ 63 + 5 - 2 ^ 64)%Z ∧ (n < 0)%Z).
Proof.
  apply (Size_int64 cases.huge
           {| zip.header := {| zip.Name := "big.bin"; zip.Method := zip.Store;
                               zip.UncompressedSize64 := 2 ^ 63 + 5 |};
              zip.Open := inl (io.mkReadCloser [] None None) |}).
  - reflexivity.
  - simpl. lia.
Defined.

(** ** [BuildRWPPFromPDF] *)

Lemma zip_Write_closed i data zw : zip.closed (zip.Write i data zw).1 = zip.closed zw.
Proof.
  unfold zip.Write. destruct (bool_decide _ && _); [|done].
  by destruct (zip.next_outcome zw).
Qed.

Lemma CreateHeader_closed zw fh : zip.closed (zip.CreateHeader zw fh).1 = zip.closed zw.
Proof.
  unfold zip.CreateHeader. destruct (zip.next_outcome zw); [done|].
  by destruct (zip.compressor _).
Qed.

Lemma CreateHeader_failed zw fh zw' w e :
  zip.CreateHeader zw fh = (zw', (w, Some e)) →
  last (zip.log zw') = Some (zip.call_CreateHeader (zip.Name fh) (zip.Method fh)).
Proof.
  intros Hch. apply CreateHeader_error in Hch as (_ & _ & _ & ->). apply last_snoc.
Qed.

Lemma CreateHeader_writer zw fh zw' w :
  zip.CreateHeader zw fh = (zw', (w, None)) → is_Some w.
Proof.
  unfold zip.CreateHeader.
  destruct (zip.next_outcome zw); [|destruct (zip.compressor _)]; intros ?; by simplify_eq.
Qed.

Lemma zip_Close_closed zw :
  zip.closed (zip.Close zw).1 = true ∧ last (zip.log (zip.Close zw).1) = Some zip.call_Close.
Proof. unfold zip.Close. destruct (zip.closed zw); simpl; by rewrite last_snoc. Qed.

Lemma Copy_entry_closed i rc zw :
  ∃ zw' r, io.Copy (zip_entry_Writer i) rc zw = Some (zw', r) ∧
           zip.closed zw' = zip.closed zw.
Proof.
  unfold io.Copy. destruct (io.rc_data rc) as [|b data]; [by eexists _, _|].
  simpl. pose proof (zip_Write_closed i (b :: data) zw) as Hc.
  destruct (zip.Write i (b :: data) zw) as [zw' [n [e|]]]; simpl in *.
  - by eexists _, _.
  - destruct (bool_decide _); by eexists _, _.
Qed.

Lemma Template_Execute_closed title i zw :
  ∃ zw' err, Template_Execute title (zip_entry_Writer i) zw = Some (zw', err) ∧
             zip.closed zw' = zip.closed zw.
Proof.
  unfold Template_Execute. simpl.
  pose proof (zip_Write_closed i (String.list_byte_of_string manifest_head) zw) as H1.
  destruct (zip.Write i (String.list_byte_of_string manifest_head) zw)
    as [zw1 [n1 [e1|]]]; simpl in *; [by eexists _, _|].
  pose proof (zip_Write_closed i (String.list_byte_of_string title) zw1) as H2.
  destruct (zip.Write i (String.list_byte_of_string title) zw1)
    as [zw2 [n2 [e2|]]]; simpl in *; [eexists _, _; split; [done|congruence]|].
  pose proof (zip_Write_closed i (String.list_byte_of_string manifest_tail) zw2) as H3.
  destruct (zip.Write i (String.list_byte_of_string manifest_tail) zw2)
    as [zw3 [n3 err]]; simpl in *.
  eexists _, _; split; [done|congruence].
Qed.

(** X16. [BuildRWPPFromPDF] with files that work (the output file is
    created and takes every write, the input file opens and is read to its
    end): no error is returned; the archive written to the output is
    closed and has exactly two entries, [publication.pdf] holding the bytes
    of the input, then [manifest.json] holding the text of the template
    with the title put in as it is, without any escaping. *)
Theorem BuildRWPPFromPDF_builds title env f inputFile :
  os_Create env = inl f → no_failure f →
  os_Open env = inl inputFile → io.rc_err inputFile = None →
  Template_Parse env = None →
  ∃ zw,
    BuildRWPPFromPDF title env = Some (Some zw, None) ∧
    zip.dir zw =
      [ ({| zip.Name := "publication.pdf"; zip.Method := zip.Deflate;
            zip.UncompressedSize64 := 0 |}, io.rc_data inputFile);
        ({| zip.Name := "manifest.json"; zip.Method := zip.Deflate;
            zip.UncompressedSize64 := 0 |},
         String.list_byte_of_string manifest_head ++ String.list_byte_of_string title ++
         String.list_byte_of_string manifest_tail) ] ∧
    zip.closed zw = true.
Proof.
  intros Hcreate Hq Hopen Herr Hparse. unfold BuildRWPPFromPDF.
  rewrite Hcreate, Hopen, Hparse. unfold zip.Create.
  destruct (CreateHeader_no_failure (zip.NewWriter f)
              {| zip.Name := "publication.pdf"; zip.Method := zip.Deflate;
                 zip.UncompressedSize64 := 0 |} Hq eq_refl) as (zw1 & Hch & Hd1 & Hc1 & Hq1).
  rewrite Hch. simpl.
  destruct (Copy_no_failure (λ z, z) (λ _ z, z) (zip_entry_Writer 0) zw1 inputFile []
              {| zip.Name := "publication.pdf"; zip.Method := zip.Deflate;
                 zip.UncompressedSize64 := 0 |})
    as (zw2 & n & Hcopy & Hd2 & Hc2 & Hq2); try done.
  { intros data s0. simpl. by destruct (zip.Write _ _ _). }
  rewrite Hcopy, Herr. simpl.
  destruct (CreateHeader_no_failure zw2
              {| zip.Name := ManifestLocation; zip.Method := zip.Deflate;
                 zip.UncompressedSize64 := 0 |} Hq2 eq_refl) as (zw3 & Hch3 & Hd3 & Hc3 & Hq3).
  rewrite Hch3. simpl. rewrite Hd2. simpl. unfold Template_Execute. simpl.
  rewrite Hd2 in Hd3. simpl in Hd3.
  destruct (Write_no_failure zw3 [(_, io.rc_data inputFile)] _ []
              (String.list_byte_of_string manifest_head) ltac:(congruence) Hq3 Hd3)
    as (zw4 & Hw4 & Hd4 & Hc4 & Hq4).
  simpl in Hw4. rewrite Hw4. simpl.
  destruct (Write_no_failure zw4 [(_, io.rc_data inputFile)] _ _
              (String.list_byte_of_string title) Hc4 Hq4 Hd4)
    as (zw5 & Hw5 & Hd5 & Hc5 & Hq5).
  simpl in Hw5. rewrite Hw5. simpl.
  destruct (Write_no_failure zw5 [(_, io.rc_data inputFile)] _ _
              (String.list_byte_of_string manifest_tail) Hc5 Hq5 Hd5)
    as (zw6 & Hw6 & Hd6 & Hc6 & Hq6).
  simpl in Hw6. rewrite Hw6. simpl.
  unfold zip.Close. rewrite Hc6. simpl. rewrite (no_failure_next _ Hq6).
  eexists. split; [done|]. simpl. split; [|done].
  rewrite Hd6. simpl. by rewrite <-?app_assoc.
Qed.

Lemma BuildRWPPFromPDF_builds_witness :
  ∃ zw,
    BuildRWPPFromPDF "A book" cases.pdf_files = Some (Some zw, None) ∧
    zip.dir zw =
      [ ({| zip.Name := "publication.pdf"; zip.Method := zip.Deflate;
            zip.UncompressedSize64 := 0 |}, io.rc_data cases.pdf);
        ({| zip.Name := "manifest.json"; zip.Method := zip.Deflate;
            zip.UncompressedSize64 := 0 |},
         String.list_byte_of_string manifest_head ++
         String.list_byte_of_string "A book" ++
         String.list_byte_of_string manifest_tail) ] ∧
    zip.closed zw = true.
Proof.
  apply (BuildRWPPFromPDF_builds "A book" cases.pdf_files [] cases.pdf); try reflexivity.
  intros o Ho. by apply elem_of_nil in Ho.
Defined.

(** A return of the function with an archive: the result is given, and what
    is left to show is the state of the archive. *)
Ltac returned :=
  eexists _, _; split; [done|];
  split; [split; [done|by intros [? ?]]|];
  intros ? ?; simplify_eq.


(** * The XML encryption manifest, further *)

(** X18. [Write] does not look at the result of the write of the XML
    declaration: on an output whose first write fails and whose next
    writes succeed, [Write] returns no error, and what the output has
    taken is the encoding of the manifest alone, without the declaration. *)
Theorem Manifest_Write_header_unchecked
    (xml_Encode : string → string → xmlenc.Manifest → list byte + error) m s text e rest :
  xml_Encode "" "  " m = inl text →
  sink_outcomes s = Some e :: rest →
  no_failure rest →
  Manifest_Write xml_Encode m sink_Writer s =
    Some ({| sink_bytes := sink_bytes s ++ text; sink_outcomes := tail rest |}, None).
Proof.
  intros Henc Ho Hq. unfold Manifest_Write. simpl. unfold sink_Write at 1. rewrite Ho.
  simpl. rewrite Henc. simpl. unfold sink_Write. simpl.
  destruct rest as [|o rest']; [done|].
  rewrite (Hq o) by by left. done.
Qed.

Lemma Manifest_Write_header_unchecked_witness :
  Manifest_Write cases.lines_Encode scenario.encryption sink_Writer cases.failing_once =
    Some ({| sink_bytes :=
               sink_bytes cases.failing_once ++
               String.list_byte_of_string
                 ("  OPS/chapter1.xhtml" +:+ nl +:+ "  OPS/chapter2.xhtml" +:+ nl);
             sink_outcomes := tail [] |}, None).
Proof.
  apply (Manifest_Write_header_unchecked cases.lines_Encode scenario.encryption
           cases.failing_once _ scenario.output_error []).
  - reflexivity.
  - reflexivity.
  - intros o Ho. by apply elem_of_nil in Ho.
Defined.

(** X19. [Write] on an output that does not fail: the output takes the XML
    declaration [xml.Header] and then the encoding of the manifest with an
    empty prefix and an indentation of two spaces; the error returned is
    the one of the marshalling, in which case the declaration has been
    written all the same. *)
Theorem Manifest_Write_output
    (xml_Encode : string → string → xmlenc.Manifest → list byte + error) m s :
  no_failure (sink_outcomes s) →
  ∃ s',
    Manifest_Write xml_Encode m sink_Writer s =
      Some (s', match xml_Encode "" "  " m with inl _ => None | inr e => Some e end) ∧
    sink_bytes s' =
      sink_bytes s ++ String.list_byte_of_string xml_Header ++
      match xml_Encode "" "  " m with inl text => text | inr _ => [] end.
Proof.
  intros Hq. unfold Manifest_Write.
  generalize (String.list_byte_of_string xml_Header). intros header. simpl.
  assert (∀ data t, no_failure (sink_outcomes t) →
            sink_Write data t =
              ({| sink_bytes := sink_bytes t ++ data;
                  sink_outcomes := tail (sink_outcomes t) |},
               (Z.of_nat (length data), None))) as Hw.
  { intros data t Ht. unfold sink_Write.
    destruct (sink_outcomes t) as [|[e|] rest] eqn:Ho; [done| |done].
    by specialize (Ht (Some e) ltac:(by left)). }
  rewrite Hw by done. simpl.
  destruct (xml_Encode "" "  " m) as [text|e].
  - rewrite Hw by (simpl; by apply no_failure_tail). simpl.
    eexists. split; [done|]. cbn [sink_bytes]. by rewrite <-app_assoc.
  - simpl. eexists. split; [done|]. cbn [sink_bytes]. by rewrite app_nil_r.
Qed.

Lemma Manifest_Write_output_witness :
  ∃ s',
    Manifest_Write cases.lines_Encode scenario.encryption sink_Writer (mksink [] []) =
      Some (s', match cases.lines_Encode "" "  " scenario.encryption with
                | inl _ => None
                | inr e => Some e
                end) ∧
    sink_bytes s' =
      sink_bytes (mksink [] []) ++ String.list_byte_of_string xml_Header ++
      match cases.lines_Encode "" "  " scenario.encryption with
      | inl text => text
      | inr _ => []
      end.
Proof.
  apply (Manifest_Write_output cases.lines_Encode scenario.encryption (mksink [] [])).
  intros o Ho. by apply elem_of_nil in Ho.
Defined.

(** X20. [DataForFile] on a manifest whose records are those of a first
    manifest followed by those of a second: the result on the first
    manifest when it finds a record there, and the result on the second
    otherwise.  Records added after the others never change what is found. *)
Theorem DataForFile_append (URL : Type) (url_Parse : string → URL + error)
    (EscapedPath : URL → string) data1 data2 path :
  xmlenc.DataForFile URL url_Parse EscapedPath (xmlenc.mkManifest (data1 ++ data2)) path =
  if (xmlenc.DataForFile URL url_Parse EscapedPath (xmlenc.mkManifest data1) path).2
  then xmlenc.DataForFile URL url_Parse EscapedPath (xmlenc.mkManifest data1) path
  else xmlenc.DataForFile URL url_Parse EscapedPath (xmlenc.mkManifest data2) path.
Proof.
  unfold xmlenc.DataForFile. destruct (url_Parse path) as [fileUri|e]; [|done]. simpl.
  induction data1 as [|d rest IH]; simpl; [done|].
  by destruct (decide _).
Qed.

(** * The events of the license statuses (package transactions) *)

Lemma calls_closed {Row A} (zero : A) (scan : Row → A * option error) n rows :
  transactions.calls (transactions.call_iterator zero scan) n
    (transactions.reading (sql.mkRows rows true)) =
  replicate n (zero, Some transactions.NotFound).
Proof.
  induction n as [|n IH]; [done|].
  cbn [transactions.calls transactions.call_iterator]. unfold sql.Next. cbn [sql.closed].
  unfold sql.Close. cbn [sql.pending]. by rewrite IH.
Qed.

Lemma calls_reading_le {Row A} (zero : A) (scan : Row → A * option error) n m rows :
  n ≤ m →
  transactions.calls (transactions.call_iterator zero scan) n
    (transactions.reading (sql.mkRows rows false)) =
  take n ((scan <$> rows) ++ replicate m (zero, Some transactions.NotFound)).
Proof.
  revert n. induction rows as [|r rest IH]; intros [|n] Hn; try done.
  - cbn [transactions.calls transactions.call_iterator]. unfold sql.Next.
    cbn [sql.closed sql.pending]. unfold sql.Close. cbn [sql.pending].
    rewrite calls_closed. rewrite fmap_nil, app_nil_l, take_replicate.
    by rewrite Nat.min_l.
  - cbn [transactions.calls transactions.call_iterator]. unfold sql.Next.
    cbn [sql.closed sql.pending]. rewrite IH by lia. done.
Qed.

Lemma calls_reading {Row A} (zero : A) (scan : Row → A * option error) n rows :
  transactions.calls (transactions.call_iterator zero scan) n
    (transactions.reading (sql.mkRows rows false)) =
  take n ((scan <$> rows) ++ replicate n (zero, Some transactions.NotFound)).
Proof. by apply calls_reading_le. Qed.

Lemma calls_failed {Row A} (zero : A) (scan : Row → A * option error) n err :
  transactions.calls (transactions.call_iterator zero scan) n
    (transactions.failed err) =
  replicate n (zero, Some err).
Proof.
  induction n as [|n IH]; [done|].
  cbn [transactions.calls transactions.call_iterator]. by rewrite IH.
Qed.

Lemma query_iterator_calls {Row A} (zero : A) (scan : Row → A * option error)
    (stmt : sql.Stmt Row) args :
  ∃ it, transactions.query_iterator (Some stmt) args = Some it ∧
    ∀ n, transactions.calls (transactions.call_iterator zero scan) n it =
      match sql.Query stmt args with
      | inl rows =>
          take n ((scan <$> rows) ++ replicate n (zero, Some transactions.NotFound))
      | inr err => replicate n (zero, Some err)
      end.
Proof.
  unfold transactions.query_iterator. simpl. eexists. split; [done|]. intros n.
  destruct (sql.Query stmt args) as [rows|err].
  - apply calls_reading.
  - apply calls_failed.
Qed.

(** X21. [CheckDeviceStatus] with a prepared statement: when the query
    selects no row the result is the empty string and no error, and
    [sql.ErrNoRows] is never the error returned; whenever an error is
    returned the string is empty. *)
Theorem CheckDeviceStatus_no_row {Row} (Scan_int : Row → Z * option error)
    (status_Types : Z → option string) i licenseStatusFk deviceId stmt :
  transactions.checkdevicestatus i = Some stmt →
  (sql.Query stmt [sql.int licenseStatusFk; sql.text deviceId] = inl [] →
   transactions.CheckDeviceStatus Row Scan_int status_Types i licenseStatusFk deviceId =
     Some ("", None)) ∧
  (∀ typeString err,
     transactions.CheckDeviceStatus Row Scan_int status_Types i licenseStatusFk deviceId =
       Some (typeString, Some err) →
     err ≠ sql.ErrNoRows ∧ typeString = "").
Proof.
  intros Hstmt. unfold transactions.CheckDeviceStatus. rewrite Hstmt. simpl. split.
  - intros Hq. unfold sql.QueryRow_Scan. rewrite Hq. by rewrite decide_True.
  - intros typeString err.
    destruct (sql.QueryRow_Scan _ _ _ _) as [typeInt [e|]].
    + destruct (decide (e = sql.ErrNoRows)); intros ?; by simplify_eq.
    + destruct (status_Types typeInt); simpl; intros ?; by simplify_eq.
Qed.

Lemma CheckDeviceStatus_no_row_witness :
  (sql.Query (cases.selecting []) [sql.int 7; sql.text "device"] = inl [] →
   transactions.CheckDeviceStatus Z cases.Scan_int cases.status_Types
     (cases.events (cases.selecting [])) 7 "device" = Some ("", None)) ∧
  (∀ typeString err,
     transactions.CheckDeviceStatus Z cases.Scan_int cases.status_Types
       (cases.events (cases.selecting [])) 7 "device" = Some (typeString, Some err) →
     err ≠ sql.ErrNoRows ∧ typeString = "").
Proof.
  apply (CheckDeviceStatus_no_row cases.Scan_int cases.status_Types
           (cases.events (cases.selecting [])) 7 "device" (cases.selecting [])).
  reflexivity.
Defined.

(** X22. [Open] looks at the error of the first and of the last [Prepare]
    only: on a database that creates the table and prepares the statements
    of [Get] and of [ListRegisteredDevices] but not the one of
    [GetByLicenseStatusId], [Open] returns no error and a value whose
    statement [getbylicensestatusid] is nil, on which every call of
    [GetByLicenseStatusId] panics. *)
Theorem Open_unchecked_Prepare {Row} (db : sql.DB Row) get list e :
  sql.DB_Exec db transactions.tableDef = None →
  sql.Prepare db transactions.get_text = inl get →
  sql.Prepare db transactions.getbylicensestatusid_text = inr e →
  sql.Prepare db transactions.listregistereddevices_text = inl list →
  ∃ t, transactions.Open db = (Some t, None) ∧
    transactions.getbylicensestatusid t = None ∧
    ∀ licenseStatusFk, transactions.GetByLicenseStatusId Row t licenseStatusFk = None.
Proof.
  intros Hexec Hget Hby Hlist. unfold transactions.Open.
  rewrite Hexec, Hget, Hby, Hlist. simpl. eexists. split; [done|]. by split.
Qed.

Lemma Open_unchecked_Prepare_witness :
  ∃ t, transactions.Open cases.half_prepared = (Some t, None) ∧
    transactions.getbylicensestatusid t = None ∧
    ∀ licenseStatusFk, transactions.GetByLicenseStatusId Z t licenseStatusFk = None.
Proof.
  apply (Open_unchecked_Prepare cases.half_prepared (cases.selecting [1%Z; 2%Z])
           (cases.selecting [1%Z; 2%Z]) scenario.output_error); reflexivity.
Defined.

(** X23. The results of [Open]: it returns an error exactly when it returns
    no value, which is when the creation of the table, the first [Prepare]
    or the last fails; the value it returns has the statements of [Get] and
    of [ListRegisteredDevices], the database it was given, and a nil
    statement [add]. *)
Theorem Open_results {Row} (db : sql.DB Row) :
  ((transactions.Open db).1 = None ↔ (transactions.Open db).2 ≠ None) ∧
  ((transactions.Open db).2 ≠ None ↔
     sql.DB_Exec db transactions.tableDef ≠ None ∨
     transactions.prepared (sql.Prepare db transactions.get_text) = None ∨
     transactions.prepared (sql.Prepare db transactions.listregistereddevices_text) = None) ∧
  (∀ t, (transactions.Open db).1 = Some t →
     transactions.db t = db ∧ transactions.add t = None ∧
     is_Some (transactions.get t) ∧ is_Some (transactions.listregistereddevices t)).
Proof.
  unfold transactions.Open.
  destruct (sql.DB_Exec db transactions.tableDef) as [e|]; simpl.
  { split; [done|]. split; [|done]. split; [by left|done]. }
  destruct (sql.Prepare db transactions.get_text) as [get|e]; simpl.
  2:{ split; [done|]. split; [|done]. split; [by (right; left)|done]. }
  destruct (sql.Prepare db transactions.listregistereddevices_text) as [list|e]; simpl.
  2:{ split; [done|]. split; [|done]. split; [by (right; right)|done]. }
  split; [by split|]. split.
  - split; [done|]. by intros [?|[?|?]].
  - intros t ?. simplify_eq. simpl. by repeat split.
Qed.

(** X24. The function [GetByLicenseStatusId] returns, on a prepared
    statement: when the query fails, every call returns the zero event and
    the error of the query; otherwise the calls return what [Scan] makes of
    the rows, one row for each call and in their order, whether or not
    [Scan] fails, and from the end of the rows on the zero event and
    [NotFound] at every call. *)
Theorem GetByLicenseStatusId_calls {Row} (Scan_Event : Row → transactions.Event * option error)
    i licenseStatusFk stmt :
  transactions.getbylicensestatusid i = Some stmt →
  ∃ it, transactions.GetByLicenseStatusId Row i licenseStatusFk = Some it ∧
    ∀ n, transactions.calls (transactions.next_Event Row Scan_Event) n it =
      match sql.Query stmt [sql.int licenseStatusFk] with
      | inl rows =>
          take n ((Scan_Event <$> rows) ++
                  replicate n (transactions.zero_Event, Some transactions.NotFound))
      | inr err => replicate n (transactions.zero_Event, Some err)
      end.
Proof.
  intros Hstmt. unfold transactions.GetByLicenseStatusId, transactions.next_Event.
  rewrite Hstmt. apply query_iterator_calls.
Qed.

Lemma GetByLicenseStatusId_calls_witness :
  ∃ it, transactions.GetByLicenseStatusId Z (cases.events (cases.selecting [1%Z; 2%Z])) 7
          = Some it ∧
    ∀ n, transactions.calls (transactions.next_Event Z cases.Scan_Event) n it =
      match sql.Query (cases.selecting [1%Z; 2%Z]) [sql.int 7] with
      | inl rows =>
          take n ((cases.Scan_Event <$> rows) ++
                  replicate n (transactions.zero_Event, Some transactions.NotFound))
      | inr err => replicate n (transactions.zero_Event, Some err)
      end.
Proof.
  apply (GetByLicenseStatusId_calls cases.Scan_Event
           (cases.events (cases.selecting [1%Z; 2%Z])) 7 (cases.selecting [1%Z; 2%Z])).
  reflexivity.
Defined.

(** X25. The function [ListRegisteredDevices] returns, on a prepared
    statement: when the query fails, every call returns the zero device and
    the error of the query; otherwise the calls return what [Scan] makes of
    the rows, one row for each call and in their order, and from the end of
    the rows on the zero device and [NotFound] at every call. *)
Theorem ListRegisteredDevices_calls {Row}
    (Scan_Device : Row → transactions.Device * option error) i licenseStatusFk stmt :
  transactions.listregistereddevices i = Some stmt →
  ∃ it, transactions.ListRegisteredDevices Row i licenseStatusFk = Some it ∧
    ∀ n, transactions.calls (transactions.next_Device Row Scan_Device) n it =
      match sql.Query stmt [sql.int licenseStatusFk] with
      | inl rows =>
          take n ((Scan_Device <$> rows) ++
                  replicate n (transactions.zero_Device, Some transactions.NotFound))
      | inr err => replicate n (transactions.zero_Device, Some err)
      end.
Proof.
  intros Hstmt. unfold transactions.ListRegisteredDevices, transactions.next_Device.
  rewrite Hstmt. apply query_iterator_calls.
Qed.

Lemma ListRegisteredDevices_calls_witness :
  ∃ it, transactions.ListRegisteredDevices Z (cases.events cases.refusing) 7 = Some it ∧
    ∀ n, transactions.calls (transactions.next_Device Z cases.Scan_Device) n it =
      match sql.Query cases.refusing [sql.int 7] with
      | inl rows =>
          take n ((cases.Scan_Device <$> rows) ++
                  replicate n (transactions.zero_Device, Some transactions.NotFound))
      | inr err => replicate n (transactions.zero_Device, Some err)
      end.
Proof.
  apply (ListRegisteredDevices_calls cases.Scan_Device (cases.events cases.refusing) 7
           cases.refusing).
  reflexivity.
Defined.

(** X26. [Get] with a prepared statement.  When the query fails, [Get]
    panics: the error is not looked at before the rows are read.  When the
    query selects no row, [Get] returns the zero event and [NotFound].
    Otherwise the first row alone counts: when its [Scan] fails, [Get]
    returns the event as scanned and that error, and [status.Types] is not
    read. *)
Theorem Get_errors {Row} (Scan_Event_int : Row → (transactions.Event * Z) * option error)
    (status_Types : Z → option string) i id stmt :
  transactions.get i = Some stmt →
  (∀ e, sql.Query stmt [sql.int id] = inr e →
     transactions.Get Row Scan_Event_int status_Types i id = None) ∧
  (sql.Query stmt [sql.int id] = inl [] →
     transactions.Get Row Scan_Event_int status_Types i id =
       Some (transactions.zero_Event, Some transactions.NotFound)) ∧
  (∀ r rest err,
     sql.Query stmt [sql.int id] = inl (r :: rest) →
     (Scan_Event_int r).2 = Some err →
     transactions.Get Row Scan_Event_int status_Types i id =
       Some ((Scan_Event_int r).1.1, Some err)).
Proof.
  intros Hstmt. unfold transactions.Get. rewrite Hstmt. simpl.
  split; [|split].
  - by intros e ->.
  - by intros ->.
  - intros r rest err -> Herr. unfold sql.Next. simpl.
    destruct (Scan_Event_int r) as [[ev typeInt] err']. simpl in Herr. by subst.
Qed.

Lemma Get_errors_witness :
  (∀ e, sql.Query (cases.selecting [(-1)%Z; 2%Z]) [sql.int 5] = inr e →
     transactions.Get Z cases.Scan_Event_int cases.status_Types
       (cases.events (cases.selecting [(-1)%Z; 2%Z])) 5 = None) ∧
  (sql.Query (cases.selecting [(-1)%Z; 2%Z]) [sql.int 5] = inl [] →
     transactions.Get Z cases.Scan_Event_int cases.status_Types
       (cases.events (cases.selecting [(-1)%Z; 2%Z])) 5 =
       Some (transactions.zero_Event, Some transactions.NotFound)) ∧
  (∀ r rest err,
     sql.Query (cases.selecting [(-1)%Z; 2%Z]) [sql.int 5] = inl (r :: rest) →
     (cases.Scan_Event_int r).2 = Some err →
     transactions.Get Z cases.Scan_Event_int cases.status_Types
       (cases.events (cases.selecting [(-1)%Z; 2%Z])) 5 =
       Some ((cases.Scan_Event_int r).1.1, Some err)).
Proof.
  apply (Get_errors cases.Scan_Event_int cases.status_Types
           (cases.events (cases.selecting [(-1)%Z; 2%Z])) 5 (cases.selecting [(-1)%Z; 2%Z])).
  reflexivity.
Defined.

(** * The publications of the frontend (package staticapi) *)





(** X29. [GetPublication] does not return after the problem of an id that
    is not a number: it goes on to get the publication of the number
    [Atoi] returned with its error, and then encodes that publication to
    the same response, or reports a second problem. *)
Theorem GetPublication_no_return {Publication} `{!staticapi.Packages Publication}
    (w : staticapi.ResponseWriter Publication) r (s : staticapi.IServer Publication)
    id err :
  staticapi.Atoi Publication (default "" (staticapi.Vars r !! "id")) = (id, Some err) →
  ∃ rest,
    staticapi.GetPublication w r s =
      staticapi.problem_Error "The publication id must be an integer" 400 ::
      staticapi.call_Get id :: rest ∧
    match staticapi.Get s id with
    | inl pub => head rest = Some (staticapi.Encode (staticapi.publication pub))
    | inr e => ∃ status, rest = [staticapi.problem_Error (staticapi.err_Error Publication e) status]
    end.
Proof.
  intros Hid. unfold staticapi.GetPublication. rewrite Hid. simpl.
  eexists. split; [done|].
  destruct (staticapi.Get s id) as [pub|e]; [done|].
  destruct (decide _); by eexists.
Qed.

Lemma GetPublication_no_return_witness :
  ∃ rest,
    @staticapi.GetPublication string cases.packages cases.quiet
      (cases.page_request "first") cases.shelves =
      staticapi.problem_Error "The publication id must be an integer" 400 ::
      staticapi.call_Get 0 :: rest ∧
    match staticapi.Get cases.shelves 0 with
    | inl pub => head rest = Some (staticapi.Encode (staticapi.publication pub))
    | inr e => ∃ status, rest = [staticapi.problem_Error
                                   (@staticapi.err_Error string cases.packages e) status]
    end.
Proof.
  apply (@GetPublication_no_return string cases.packages cases.quiet
           (cases.page_request "first") cases.shelves 0%Z (lib_error 7)).
  reflexivity.
Defined.

(** X30. [DecodeJSONPublication] panics on a request whose first content
    type is not the one of JSON, or that has none: the decoder is nil when
    [Decode] is called.  So does [CreatePublication] on such a request,
    instead of the problem of an incorrect publication. *)
Theorem CreatePublication_panics {Publication} `{!staticapi.Packages Publication}
    (w : staticapi.ResponseWriter Publication) r (s : staticapi.IServer Publication) :
  head (staticapi.Header_Content_Type r) ≠ Some (staticapi.ContentType_JSON Publication) →
  staticapi.DecodeJSONPublication r = None ∧
  staticapi.CreatePublication w r s = None.
Proof.
  intros Hct. unfold staticapi.CreatePublication.
  assert (staticapi.DecodeJSONPublication r = None) as ->; [|done].
  unfold staticapi.DecodeJSONPublication.
  destruct (staticapi.Header_Content_Type r) as [|ctype0 rest]; [done|].
  simpl in Hct. destruct (decide _) as [->|]; [done|done].
Qed.

Lemma CreatePublication_panics_witness :
  @staticapi.DecodeJSONPublication string cases.packages (cases.page_request "1") = None ∧
  @staticapi.CreatePublication string cases.packages cases.quiet (cases.page_request "1")
    cases.shelves = None.
Proof.
  apply (@CreatePublication_panics string cases.packages cases.quiet
           (cases.page_request "1") cases.shelves).
  vm_compute. intros Heq. discriminate Heq.
Defined.
